(** * gitsquash: squashing a selection of commits

    A shallow embedding of [src/index.js] (the version with the classifier
    and the temporary-branch reconstruction) together with a small model of
    the repository the program drives through [simple-git].

    - Part 1 models the repository: an append-only object store of commits
      with parent pointers, branch refs, the checked-out branch, the index,
      the uncommitted files and the stash.
    - Part 2 is the effect monad of the program: state, exceptions
      ([throw]/[try_catch]) and [process.exit], with a journal of every
      repository call that was issued.
    - Part 3 is the program, function by function.
    - Part 4 onwards are the properties. *)

From Stdlib Require Import ZArith Lia.
From stdpp Require Import base tactics option list sorting strings pretty infinite gmap.

Open Scope string_scope.
Open Scope list_scope.

(* ===================================================================== *)
(** * Part 1: the repository                                              *)
(* ===================================================================== *)

(** Commit identities are opaque strings: the program compares them with
    [===], cuts them with [slice(0, 7)] for display and appends ["~1"]. *)
Definition Hash := string.

(** The changeset of a commit is opaque; a tree is identified with the
    sequence of changesets applied since the empty tree. *)
Definition Change := string.
Definition Tree := list Change.

Record Commit := mkCommit {
  hash : Hash;
  parent : option Hash;
  date : string;
  message : string;
  patch : list Change
}.

Global Instance Commit_eq_dec : EqDecision Commit.
Proof. solve_decision. Defined.

(** Revision arguments the program builds: the literal [HEAD], a commit
    identity, and the template [`${h}~1`]. *)
Inductive Rev :=
  | RevHEAD
  | RevCommit (h : Hash)
  | RevParent (h : Hash).

Inductive ResetMode := Soft | Hard.

(** The repository calls of the program, with their arguments. *)
Inductive Op :=
  | OpLog (maxCount : option nat)      (* git.log() / git.log({ maxCount }) *)
  | OpStatus                           (* git.status() *)
  | OpBranch                           (* git.branch() *)
  | OpCheckoutNew (b : string)         (* git.checkout(['-b', b]) *)
  | OpCheckout (b : string)            (* git.checkout([b]) *)
  | OpBranchDelete (b : string)        (* git.branch(['-D', b]) *)
  | OpReset (m : ResetMode) (r : Rev)  (* git.reset(['--soft'|'--hard', r]) *)
  | OpCommit (msg : string)            (* git.commit(msg) *)
  | OpCherryPick (h : Hash)            (* git.raw(['cherry-pick', h]) *)
  | OpRevParse (r : Rev)               (* git.revparse([r]) *)
  | OpStashSave (label : string)       (* git.stash(['save', label]) *)
  | OpStashPop.                        (* git.stash(['pop']) *)

Global Instance Rev_eq_dec : EqDecision Rev.
Proof. solve_decision. Defined.
Global Instance ResetMode_eq_dec : EqDecision ResetMode.
Proof. solve_decision. Defined.
Global Instance Op_eq_dec : EqDecision Op.
Proof. solve_decision. Defined.

Record Repo := mkRepo {
  objects : list Commit;           (* object store, most recently created first *)
  branches : gmap string Hash;     (* refs/heads *)
  HEAD : string;                   (* the checked-out branch *)
  index : Tree;                    (* the staging area *)
  files : list string;             (* status().files: uncommitted changes *)
  stash : list (string * list string)
}.

(** ** Reading the object store *)

Definition find_commit (h : Hash) (objs : list Commit) : option Commit :=
  List.find (λ c, bool_decide (hash c = h)) objs.

(** The history reachable from [h], newest first.  A commit is created after
    its parent, so the parent is looked for among the older objects only. *)
Fixpoint ancestry (h : Hash) (objs : list Commit) : list Commit :=
  match objs with
  | [] => []
  | c :: older =>
      if decide (hash c = h)
      then c :: match parent c with
                | Some p => ancestry p older
                | None => []
                end
      else ancestry h older
  end.

Definition tree_of (h : Hash) (objs : list Commit) : Tree :=
  concat (patch <$> reverse (ancestry h objs)).

Definition tip (r : Repo) : option Hash := branches r !! HEAD r.

Definition tip_tree (r : Repo) : Tree :=
  match tip r with
  | Some t => tree_of t (objects r)
  | None => []
  end.

Definition resolve (r : Repo) (rv : Rev) : option Hash :=
  match rv with
  | RevHEAD => tip r
  | RevCommit h => hash <$> find_commit h (objects r)
  | RevParent h =>
      c ← find_commit h (objects r);
      p ← parent c;
      hash <$> find_commit p (objects r)
  end.

(** A new commit gets an identity that no object of the store has. *)
Definition fresh_hash (objs : list Commit) : Hash := fresh (hash <$> objs).

(** ** The calls: what each does to the repository when git accepts it

    Every function returns the reply and the new repository, or the reason
    git refuses.  Failures that depend on file contents (a conflicting
    cherry-pick) or on the environment are not decided here: they are
    injected by the fault plan of Part 2. *)

Definition set_tip (t : Hash) (r : Repo) : Repo :=
  mkRepo (objects r) (<[HEAD r := t]> (branches r)) (HEAD r) (index r) (files r) (stash r).

Definition sem_log (maxCount : option nat) (r : Repo) : string + (list Commit * Repo) :=
  match tip r with
  | None => inl "your current branch does not have any commits yet"
  | Some t =>
      let all := ancestry t (objects r) in
      inr (match maxCount with Some n => take n all | None => all end, r)
  end.

Definition sem_status (r : Repo) : string + (list string * Repo) :=
  inr (files r, r).

Definition sem_branch (r : Repo) : string + (string * Repo) :=
  inr (HEAD r, r).

Definition sem_checkout_new (b : string) (r : Repo) : string + (unit * Repo) :=
  match branches r !! b with
  | Some _ => inl "a branch with that name already exists"
  | None =>
      let refs := match tip r with
                  | Some t => <[b := t]> (branches r)
                  | None => branches r
                  end in
      inr (tt, mkRepo (objects r) refs b (index r) (files r) (stash r))
  end.

Definition sem_checkout (b : string) (r : Repo) : string + (unit * Repo) :=
  match branches r !! b with
  | None => inl "pathspec did not match any branch"
  | Some t =>
      inr (tt, mkRepo (objects r) (branches r) b (tree_of t (objects r)) (files r) (stash r))
  end.

Definition sem_branch_delete (b : string) (r : Repo) : string + (unit * Repo) :=
  if decide (b = HEAD r) then inl "cannot delete the checked-out branch"
  else match branches r !! b with
       | None => inl "branch not found"
       | Some _ =>
           inr (tt, mkRepo (objects r) (delete b (branches r)) (HEAD r) (index r) (files r) (stash r))
       end.

Definition sem_reset (m : ResetMode) (rv : Rev) (r : Repo) : string + (unit * Repo) :=
  match resolve r rv with
  | None => inl "unknown revision or path not in the working tree"
  | Some t =>
      match m with
      | Soft => inr (tt, set_tip t r)
      | Hard =>
          inr (tt, mkRepo (objects r) (<[HEAD r := t]> (branches r)) (HEAD r)
                          (tree_of t (objects r)) [] (stash r))
      end
  end.

(** [commit] records the index as a new commit on top of the tip; its
    changeset is what the index adds to the tree of the tip. *)
Definition sem_commit (now : N) (msg : string) (r : Repo) : string + (unit * Repo) :=
  let c := mkCommit (fresh_hash (objects r)) (tip r) (pretty now) msg
                    (drop (length (tip_tree r)) (index r)) in
  inr (tt, mkRepo (c :: objects r) (<[HEAD r := hash c]> (branches r)) (HEAD r)
                  (index r) (files r) (stash r)).

(** [cherry-pick h] applies the changeset of [h] on top of the tip as a new
    commit that keeps the date and the message of [h]. *)
Definition sem_cherry_pick (h : Hash) (r : Repo) : string + (unit * Repo) :=
  match find_commit h (objects r), tip r with
  | None, _ => inl "bad revision"
  | _, None => inl "your current branch does not have any commits yet"
  | Some src, Some t =>
      let c := mkCommit (fresh_hash (objects r)) (Some t) (date src) (message src) (patch src) in
      inr (tt, mkRepo (c :: objects r) (<[HEAD r := hash c]> (branches r)) (HEAD r)
                      (tree_of t (objects r) ++ patch src) (files r) (stash r))
  end.

Definition sem_revparse (rv : Rev) (r : Repo) : string + (Hash * Repo) :=
  match resolve r rv with
  | None => inl "unknown revision or path not in the working tree"
  | Some t => inr (t, r)
  end.

Definition sem_stash_save (label : string) (r : Repo) : string + (unit * Repo) :=
  inr (tt, mkRepo (objects r) (branches r) (HEAD r) (tip_tree r) []
                  ((label, files r) :: stash r)).

Definition sem_stash_pop (r : Repo) : string + (unit * Repo) :=
  match stash r with
  | [] => inl "No stash entries found."
  | (_, saved) :: rest =>
      inr (tt, mkRepo (objects r) (branches r) (HEAD r) (index r) (saved ++ files r) rest)
  end.

(* ===================================================================== *)
(** * Part 2: the effects of the program                                 *)
(* ===================================================================== *)

Inductive Error :=
  | GitError (op : Op) (msg : string)
  | TypeError (msg : string).

Definition error_message (e : Error) : string :=
  match e with
  | GitError _ msg => msg
  | TypeError msg => msg
  end.

(** One journal entry per repository call: the call, the branch that was
    checked out when it was issued, and whether it succeeded. *)
Record Event := mkEvent {
  ev_op : Op;
  ev_head : string;
  ev_ok : bool
}.

Record World := mkWorld {
  repo : Repo;
  clock : N;                    (* Date.now() *)
  trace : list Event;           (* the calls issued so far, oldest first *)
  stdout : list string;         (* chunks written to the output stream *)
  stderr : list string          (* lines written to the error stream *)
}.

Inductive Outcome (A : Type) :=
  | Ok (a : A)
  | Throw (e : Error)
  | Exit (code : nat).
Arguments Ok {A} a.
Arguments Throw {A} e.
Arguments Exit {A} code.

Definition M (A : Type) : Type := World → Outcome A * World.

Definition ret {A} (a : A) : M A := λ w, (Ok a, w).

Definition bind {A B} (m : M A) (k : A → M B) : M B := λ w,
  match m w with
  | (Ok a, w') => k a w'
  | (Throw e, w') => (Throw e, w')
  | (Exit c, w') => (Exit c, w')
  end.

Definition throw {A} (e : Error) : M A := λ w, (Throw e, w).

Definition process_exit {A} (code : nat) : M A := λ w, (Exit code, w).

(** [try { m } catch (error) { h error }] *)
Definition try_catch {A} (m : M A) (h : Error → M A) : M A := λ w,
  match m w with
  | (Throw e, w') => h e w'
  | r => r
  end.

(** [p.catch(() => {})]: a rejected call is swallowed. *)
Definition suppress (m : M unit) : M unit := try_catch m (λ _, ret tt).

Notation "x <- m ;; k" := (bind m (λ x, k))
  (at level 100, m at next level, right associativity).
Notation "m ;; k" := (bind m (λ _, k))
  (at level 100, right associativity).

Definition when (b : bool) (m : M unit) : M unit := if b then m else ret tt.

(** [for (const x of l) { f x }] *)
Fixpoint for_of {X} (l : list X) (f : X → M unit) : M unit :=
  match l with
  | [] => ret tt
  | x :: rest => f x ;; for_of rest f
  end.

Definition stdout_write (s : string) : M unit := λ w,
  (Ok tt, mkWorld (repo w) (clock w) (trace w) (stdout w ++ [s]) (stderr w)).

Definition nl : string := String (Ascii.ascii_of_nat 10) EmptyString.

Definition console_log (s : string) : M unit := stdout_write (s +:+ nl).

Definition console_error (s : string) : M unit := λ w,
  (Ok tt, mkWorld (repo w) (clock w) (trace w) (stdout w) (stderr w ++ [s])).

Definition Date_now : M N := λ w, (Ok (clock w), w).

Definition journal (op : Op) (ok : bool) (r : Repo) (w : World) : World :=
  mkWorld r (clock w) (trace w ++ [mkEvent op (HEAD (repo w)) ok]) (stdout w) (stderr w).

Section Gateway.

(** The fault plan: [faults k = Some msg] makes the [k]-th call issued to
    the repository fail with [msg], whatever the call is.  It stands for
    the failures the model of Part 1 does not decide: conflicts, locks,
    the file system. *)
Variable faults : nat → option string.

Definition gateway {A} (op : Op) (sem : Repo → string + (A * Repo)) : M A := λ w,
  match faults (length (trace w)) with
  | Some msg => (Throw (GitError op msg), journal op false (repo w) w)
  | None =>
      match sem (repo w) with
      | inl msg => (Throw (GitError op msg), journal op false (repo w) w)
      | inr (a, r') => (Ok a, journal op true r' w)
      end
  end.

Definition git_log (maxCount : option nat) : M (list Commit) :=
  gateway (OpLog maxCount) (sem_log maxCount).
Definition git_status : M (list string) :=
  gateway OpStatus sem_status.
Definition git_branch : M string :=
  gateway OpBranch sem_branch.
Definition git_checkout_b (b : string) : M unit :=
  gateway (OpCheckoutNew b) (sem_checkout_new b).
Definition git_checkout (b : string) : M unit :=
  gateway (OpCheckout b) (sem_checkout b).
Definition git_branch_D (b : string) : M unit :=
  gateway (OpBranchDelete b) (sem_branch_delete b).
Definition git_reset (m : ResetMode) (rv : Rev) : M unit :=
  gateway (OpReset m rv) (sem_reset m rv).
Definition git_commit (msg : string) : M unit := λ w,
  gateway (OpCommit msg) (sem_commit (clock w) msg) w.
Definition git_cherry_pick (h : Hash) : M unit :=
  gateway (OpCherryPick h) (sem_cherry_pick h).
Definition git_revparse (rv : Rev) : M Hash :=
  gateway (OpRevParse rv) (sem_revparse rv).
Definition git_stash_save (label : string) : M unit :=
  gateway (OpStashSave label) (sem_stash_save label).
Definition git_stash_pop : M unit :=
  gateway OpStashPop sem_stash_pop.

End Gateway.

(* ===================================================================== *)
(** * Part 3: the program                                                *)
(* ===================================================================== *)

(** ** JavaScript helpers *)

(** [s.slice(0, 7)] *)
Definition slice07 (s : string) : string := String.substring 0 7 s.

(** [s.split('\n')[0]] *)
Fixpoint first_line (s : string) : string :=
  match s with
  | EmptyString => EmptyString
  | String c rest =>
      if decide (c = Ascii.ascii_of_nat 10) then EmptyString
      else String c (first_line rest)
  end.

(** [commit.message.split('\n')[0]] *)
Definition subject (commit : Commit) : string := first_line (message commit).

(** [`${x}`] for an [x] that is a string or [undefined]. *)
Definition template (x : option string) : string := default "undefined" x.

(** [x.slice(0, 7)] for an [x] that is a string or [undefined]. *)
Definition slice_of (x : option string) : M string :=
  match x with
  | Some s => ret (slice07 s)
  | None => throw (TypeError "Cannot read properties of undefined (reading 'slice')")
  end.

Definition dq : string := String (Ascii.ascii_of_nat 34) EmptyString.

(** [recentCommits.indexOf(x)]: the first position of [x], or [-1]. *)
Fixpoint indexOf (l : list Hash) (x : Hash) : Z :=
  match l with
  | [] => (-1)%Z
  | y :: rest =>
      if decide (y = x) then 0%Z
      else let i := indexOf rest x in
           if (i <? 0)%Z then (-1)%Z else (i + 1)%Z
  end.

(** [[...l].sort(cmp)]: the sort is stable, and for a comparator that
    compares keys every stable sort returns the same array; insertion
    from the right is one. *)
Fixpoint sort_insert {X} (cmp : X → X → Z) (x : X) (l : list X) : list X :=
  match l with
  | [] => [x]
  | y :: rest =>
      if (cmp x y <=? 0)%Z then x :: y :: rest
      else y :: sort_insert cmp x rest
  end.

Definition js_sort {X} (cmp : X → X → Z) (l : list X) : list X :=
  foldr (sort_insert cmp) [] l.

(** ** [areCommitsLatestAndConsecutive], after the log has been read *)
Definition isLatestAndConsecutive (recentCommits commits : list Hash) : bool :=
  let sortedSelectedCommits :=
    js_sort (λ a b, indexOf recentCommits a - indexOf recentCommits b)%Z commits in
  forallb (λ i, bool_decide (sortedSelectedCommits !! i = recentCommits !! i))
          (seq 0 (length commits)).

(** The commits of the log above the newest selected one (lines 83-89). *)
Fixpoint laterCommitsOf (newestSelectedCommit : option Hash) (all : list Commit)
  : list (Hash * string) :=
  match all with
  | [] => []
  | commit :: rest =>
      if decide (Some (hash commit) = newestSelectedCommit) then []
      else (hash commit, subject commit)
             :: laterCommitsOf newestSelectedCommit rest
  end.

(** [inquirer]'s checkbox prompt: every keypress toggles one choice, and the
    answer lists the values of the checked choices in the order of the
    choices, whatever the order they were checked in. *)
Definition checked (toggles : list nat) (i : nat) : bool :=
  Nat.odd (length (filter (λ j, j = i) toggles)).

Definition checkbox_answer {V} (choices : list V) (toggles : list nat) : list V :=
  snd <$> filter (λ iv, checked toggles iv.1 = true) (imap (λ i v, (i, v)) choices).

(** [selectCommits]: the prompt does not accept fewer than two choices. *)
Definition selectCommits (commits : list Commit) (toggles : list nat)
  : option (list Hash) :=
  let choices := hash <$> commits in
  let selectedCommits := checkbox_answer choices toggles in
  if decide (length selectedCommits < 2) then None else Some selectedCommits.

Section Program.

Variable faults : nat → option string.

Abbreviation git_log := (git_log faults).
Abbreviation git_status := (git_status faults).
Abbreviation git_branch := (git_branch faults).
Abbreviation git_checkout_b := (git_checkout_b faults).
Abbreviation git_checkout := (git_checkout faults).
Abbreviation git_branch_D := (git_branch_D faults).
Abbreviation git_reset := (git_reset faults).
Abbreviation git_commit := (git_commit faults).
Abbreviation git_cherry_pick := (git_cherry_pick faults).
Abbreviation git_revparse := (git_revparse faults).
Abbreviation git_stash_save := (git_stash_save faults).
Abbreviation git_stash_pop := (git_stash_pop faults).

Definition squashLatestCommits (commits : list Hash) (message : string) : M unit :=
  let oldestCommit := last commits in
  (* Reset to the commit before the oldest commit we want to squash *)
  git_reset Soft (RevParent (template oldestCommit)) ;;
  (* Create a new commit with all the changes *)
  git_commit message.

Definition squashNonConsecutiveCommits (commits : list Hash) (message : string) : M unit :=
  (* Get the current branch name *)
  currentBranch <- git_branch ;;
  (* Create a temporary branch *)
  now <- Date_now ;;
  let tempBranch := "temp-squash-" +:+ pretty now in
  (* Get all commits after our newest selected commit *)
  console_log (nl +:+ "🔍 Phase 1: Analyzing commits...") ;;
  let newestSelectedCommit := head commits in
  log <- git_log None ;;
  let laterCommits := laterCommitsOf newestSelectedCommit log in
  console_log ("  Found " +:+ pretty (length laterCommits) +:+ " newer commits to preserve") ;;
  console_log (nl +:+ "📦 Phase 2: Preparing workspace...") ;;
  console_log ("  Creating temporary branch: " +:+ tempBranch) ;;
  git_checkout_b tempBranch ;;
  try_catch
    (console_log (nl +:+ "🔄 Phase 3: Reconstructing history...") ;;
     let oldestCommit := last commits in
     shortOldest <- slice_of oldestCommit ;;
     console_log ("  Resetting to parent of " +:+ shortOldest) ;;
     git_reset Hard (RevParent (template oldestCommit)) ;;
     (* Cherry pick all commits in order *)
     console_log (nl +:+ "  🍒 Cherry picking selected commits:") ;;
     for_of (reverse commits) (λ commit,
       let shortHash := slice07 commit in
       stdout_write ("    Processing " +:+ shortHash +:+ "... ") ;;
       git_cherry_pick commit ;;
       console_log "✓") ;;
     (* Now squash all the commits *)
     console_log (nl +:+ "  💼 Creating squashed commit:") ;;
     shortOldest <- slice_of oldestCommit ;;
     console_log ("    Resetting to parent of " +:+ shortOldest) ;;
     git_reset Soft (RevParent (template oldestCommit)) ;;
     stdout_write "    Creating new commit... " ;;
     git_commit message ;;
     console_log "✓" ;;
     (* Get the new commit hash *)
     newCommit <- git_revparse RevHEAD ;;
     let shortNewCommit := slice07 newCommit in
     console_log ("    New commit hash: " +:+ shortNewCommit) ;;
     console_log (nl +:+ "🔄 Phase 4: Applying changes to main branch...") ;;
     console_log ("  Switching back to " +:+ currentBranch) ;;
     git_checkout currentBranch ;;
     shortOldest <- slice_of oldestCommit ;;
     console_log ("  Resetting to parent of " +:+ shortOldest) ;;
     git_reset Hard (RevParent (template oldestCommit)) ;;
     stdout_write ("  Applying squashed commit " +:+ shortNewCommit +:+ "... ") ;;
     git_cherry_pick newCommit ;;
     console_log "✓" ;;
     (* Now cherry pick all the later commits back on top *)
     when (bool_decide (0 < length laterCommits))
       (console_log (nl +:+ "  🔄 Restoring newer commits:") ;;
        for_of (reverse laterCommits) (λ commit,
          let shortHash := slice07 commit.1 in
          stdout_write ("    " +:+ shortHash +:+ " " +:+ commit.2 +:+ "... ") ;;
          git_cherry_pick commit.1 ;;
          console_log "✓")) ;;
     (* Clean up: delete temporary branch *)
     console_log (nl +:+ "🧹 Phase 5: Cleanup") ;;
     stdout_write ("  Removing temporary branch " +:+ tempBranch +:+ "... ") ;;
     git_branch_D tempBranch ;;
     console_log "✓")
    (λ error,
     (* If something goes wrong, try to cleanup *)
     console_log (nl +:+ "❌ Error: Squash failed!") ;;
     console_log "🧹 Cleaning up..." ;;
     console_log ("  Switching back to " +:+ currentBranch) ;;
     git_checkout currentBranch ;;
     stdout_write ("  Removing temporary branch " +:+ tempBranch +:+ "... ") ;;
     suppress (git_branch_D tempBranch) ;;
     console_log "✓" ;;
     throw error).

Definition areCommitsLatestAndConsecutive (commits : list Hash) : M bool :=
  (* Get recent commits - fetch at least the number of commits we're checking *)
  log <- git_log (Some (length commits)) ;;
  let recentCommits := hash <$> log in
  ret (isLatestAndConsecutive recentCommits commits).

Definition squashCommits (commits : list Hash) (message : string) (isDryRun : bool)
  : M unit :=
  try_catch
    (let oldestCommit := last commits in
     status <- git_status ;;
     if isDryRun then
       (* Get all commits to show context *)
       log <- git_log (Some (Nat.max 10 (length commits + 3))) ;;
       console_log (nl +:+ "📋 Dry Run - Squash Preview" +:+ nl) ;;
       (* Show current state *)
       console_log "Current Commits:" ;;
       for_of log (λ commit,
         let isSelected := bool_decide (hash commit ∈ commits) in
         let prefix := if isSelected then "🔷" else "⚪️" in
         let hash7 := slice07 (hash commit) in
         console_log (prefix +:+ " " +:+ hash7 +:+ " " +:+ subject commit)) ;;
       (* Show future state *)
       console_log (nl +:+ "After Squash:") ;;
       for_of log (λ commit,
         let hash7 := slice07 (hash commit) in
         if bool_decide (hash commit ∈ commits) then
           (* Show the new squashed commit, skip the others *)
           when (bool_decide (Some (hash commit) = oldestCommit))
             (console_log ("🔶 NEW " +:+ message))
         else
           (* Show unaffected commits *)
           console_log ("⚪️ " +:+ hash7 +:+ " " +:+ subject commit)) ;;
       console_log (nl +:+ "Details:") ;;
       console_log ("• " +:+ pretty (length commits) +:+ " commits will be squashed into one") ;;
       console_log ("• New commit message: " +:+ dq +:+ message +:+ dq) ;;
       when (bool_decide (0 < length status))
         (console_log ("• " +:+ pretty (length status)
                       +:+ " uncommitted changes will be preserved"))
     else
       when (bool_decide (0 < length status))
         (console_log "Warning: You have uncommitted changes. Stashing them..." ;;
          git_stash_save "temporary stash before squash") ;;
       useSimpleApproach <- areCommitsLatestAndConsecutive commits ;;
       (if useSimpleApproach then
          squashLatestCommits commits message
        else
          console_log (nl +:+ "🔄 Using advanced squash approach (non-consecutive or non-latest commits)...") ;;
          squashNonConsecutiveCommits commits message) ;;
       when (bool_decide (0 < length status)) git_stash_pop ;;
       console_log (nl +:+ "✨ Successfully squashed commits!"))
    (λ error,
     console_error ("Error during squash: " +:+ error_message error) ;;
     process_exit 1).

End Program.

(* ===================================================================== *)
(** * Part 4: the classifier                                             *)
(* ===================================================================== *)

Section Classifier.

Implicit Types (recent commits : list Hash) (x y : Hash).

Lemma indexOf_bounds recent x : (-1 ≤ indexOf recent x < Z.of_nat (length recent))%Z.
Proof.
  induction recent as [|y recent IH]; simpl; [lia|].
  destruct (decide (y = x)); [lia|].
  destruct (Z.ltb_spec (indexOf recent x) 0); lia.
Qed.

Lemma indexOf_lookup recent x :
  (0 ≤ indexOf recent x)%Z → recent !! Z.to_nat (indexOf recent x) = Some x.
Proof.
  induction recent as [|y recent IH]; simpl; [lia|].
  destruct (decide (y = x)) as [->|]; [done|].
  destruct (Z.ltb_spec (indexOf recent x) 0); [lia|]. intros _.
  replace (Z.to_nat (indexOf recent x + 1)) with (S (Z.to_nat (indexOf recent x))) by lia.
  simpl. apply IH. lia.
Qed.

Lemma indexOf_elem_of recent x : x ∈ recent ↔ (0 ≤ indexOf recent x)%Z.
Proof.
  split.
  - induction 1 as [y recent|y z recent ? IH]; simpl.
    + rewrite decide_True by done. lia.
    + destruct (decide (z = y)); [lia|].
      destruct (Z.ltb_spec (indexOf recent y) 0); lia.
  - intros H. apply indexOf_lookup in H. by eapply list_elem_of_lookup_2.
Qed.

Lemma indexOf_absent recent x : x ∉ recent → indexOf recent x = (-1)%Z.
Proof.
  rewrite indexOf_elem_of. pose proof (indexOf_bounds recent x). lia.
Qed.

(** Two members of [recent] with the same index are the same identity. *)
Lemma indexOf_inj recent x y :
  x ∈ recent → indexOf recent x = indexOf recent y → x = y.
Proof.
  intros Hx Heq. apply indexOf_elem_of in Hx.
  pose proof (indexOf_lookup recent x Hx) as H1.
  assert (0 ≤ indexOf recent y)%Z as Hy by lia.
  pose proof (indexOf_lookup recent y Hy) as H2.
  rewrite Heq in H1. congruence.
Qed.

Lemma indexOf_NoDup recent i x :
  NoDup recent → recent !! i = Some x → indexOf recent x = Z.of_nat i.
Proof.
  intros Hnd Hi.
  assert (x ∈ recent) as Hx by (by eapply list_elem_of_lookup_2).
  apply indexOf_elem_of in Hx.
  pose proof (indexOf_lookup recent x Hx) as Hj.
  pose proof (NoDup_lookup _ _ _ _ Hnd Hi Hj). lia.
Qed.

(** *** The sort *)

Context {X : Type} (key : X → Z).

Definition by_key (a b : X) : Prop := (key a ≤ key b)%Z.
Definition cmp_key (a b : X) : Z := (key a - key b)%Z.

Lemma sort_insert_Permutation (a : X) l : sort_insert cmp_key a l ≡ₚ a :: l.
Proof.
  induction l as [|b l IH]; simpl; [done|].
  destruct (cmp_key a b <=? 0)%Z; [done|].
  rewrite IH. apply perm_swap.
Qed.

Lemma js_sort_Permutation l : js_sort cmp_key l ≡ₚ l.
Proof.
  induction l as [|a l IH]; simpl; [done|].
  rewrite sort_insert_Permutation. by f_equiv.
Qed.

Lemma js_sort_length l : length (js_sort cmp_key l) = length l.
Proof. apply Permutation_length, js_sort_Permutation. Qed.

Lemma sort_insert_sorted (a : X) l :
  StronglySorted by_key l → StronglySorted by_key (sort_insert cmp_key a l).
Proof.
  induction 1 as [|b l Hl IH Hb]; simpl.
  - repeat constructor.
  - unfold cmp_key at 1. destruct (Z.leb_spec (key a - key b) 0).
    + constructor; [by constructor|].
      constructor; [unfold by_key; lia|].
      eapply Forall_impl; [exact Hb|]. unfold by_key. intros; lia.
    + constructor; [done|].
      rewrite sort_insert_Permutation. constructor; [unfold by_key; lia|done].
Qed.

Lemma js_sort_sorted l : StronglySorted by_key (js_sort cmp_key l).
Proof.
  induction l as [|a l IH]; simpl; [constructor|].
  by apply sort_insert_sorted.
Qed.

(** Sorted arrangements of the same elements agree as soon as the key
    tells the elements apart. *)
Lemma sorted_by_key_unique l1 l2 :
  (∀ a b, a ∈ l1 → b ∈ l2 → key a = key b → a = b) →
  StronglySorted by_key l1 → StronglySorted by_key l2 → l1 ≡ₚ l2 → l1 = l2.
Proof.
  intros Hinj. apply StronglySorted_unique_strong.
  intros a b Ha Hb H1 H2. apply Hinj; [done..|]. unfold by_key in *. lia.
Qed.

End Classifier.

Lemma StronglySorted_of_lookup {X} (R : X → X → Prop) (l : list X) :
  (∀ i j a b, i < j → l !! i = Some a → l !! j = Some b → R a b) →
  StronglySorted R l.
Proof.
  induction l as [|a l IH]; intros H; constructor.
  - apply IH. intros i j b c Hij Hi Hj. by apply (H (S i) (S j) b c); [lia|..].
  - apply Forall_forall. intros b Hb.
    apply list_elem_of_lookup in Hb as [j Hj].
    by apply (H 0 (S j) a b); [lia|..].
Qed.

Lemma self_sorted (recent : list Hash) :
  NoDup recent → StronglySorted (by_key (indexOf recent)) recent.
Proof.
  intros Hnd. apply StronglySorted_of_lookup. intros i j a b Hij Hi Hj.
  unfold by_key. rewrite (indexOf_NoDup _ _ _ Hnd Hi), (indexOf_NoDup _ _ _ Hnd Hj). lia.
Qed.

(** The loop of lines 176-180 compares the sorted selection with the log,
    position by position. *)
Lemma isLatestAndConsecutive_true recent commits :
  isLatestAndConsecutive recent commits = true ↔
  js_sort (cmp_key (indexOf recent)) commits = take (length commits) recent.
Proof.
  unfold isLatestAndConsecutive. fold (cmp_key (indexOf recent)).
  set (sorted := js_sort _ commits).
  assert (length sorted = length commits) as Hlen by apply js_sort_length.
  rewrite forallb_forall. split.
  - intros H. apply list_eq. intros i.
    destruct (decide (i < length commits)) as [Hi|Hi].
    + rewrite lookup_take_lt by done.
      specialize (H i). rewrite bool_decide_eq_true in H.
      apply H, in_seq. lia.
    + rewrite lookup_take_ge by lia. apply lookup_ge_None. lia.
  - intros Heq i Hi%in_seq. rewrite bool_decide_eq_true, Heq.
    apply lookup_take_lt. lia.
Qed.

(** A selection that the classifier accepts is a rearrangement of the head
    of the log. *)
Lemma isLatestAndConsecutive_Permutation recent commits :
  isLatestAndConsecutive recent commits = true →
  commits ≡ₚ take (length commits) recent.
Proof.
  rewrite isLatestAndConsecutive_true. intros <-.
  symmetry. apply js_sort_Permutation.
Qed.

Lemma Permutation_isLatestAndConsecutive recent commits :
  NoDup recent → commits ≡ₚ recent →
  isLatestAndConsecutive recent commits = true.
Proof.
  intros Hnd Hperm. apply isLatestAndConsecutive_true.
  rewrite (Permutation_length Hperm), firstn_all.
  apply (sorted_by_key_unique (indexOf recent)).
  - intros a b Ha Hb. apply indexOf_inj.
    by rewrite <-Hperm, <-(js_sort_Permutation (indexOf recent) commits).
  - apply js_sort_sorted.
  - by apply self_sorted.
  - by rewrite js_sort_Permutation.
Qed.

Lemma isLatestAndConsecutive_perm_true recent c1 c2 :
  c1 ≡ₚ c2 → isLatestAndConsecutive recent c1 = true →
  isLatestAndConsecutive recent c2 = true.
Proof.
  intros Hperm H1. pose proof H1 as H1'.
  rewrite isLatestAndConsecutive_true in H1.
  apply isLatestAndConsecutive_true.
  rewrite <-(Permutation_length Hperm), <-H1.
  assert (∀ a, a ∈ c1 → a ∈ recent) as Hin.
  { intros a Ha. rewrite <-(js_sort_Permutation (indexOf recent) c1), H1 in Ha.
    by eapply subseteq_take. }
  apply (sorted_by_key_unique (indexOf recent)).
  - intros a b Ha Hb. apply indexOf_inj, Hin.
    by rewrite Hperm, <-(js_sort_Permutation (indexOf recent) c2).
  - apply js_sort_sorted.
  - apply js_sort_sorted.
  - by rewrite !js_sort_Permutation.
Qed.

Lemma isLatestAndConsecutive_perm recent c1 c2 :
  c1 ≡ₚ c2 → isLatestAndConsecutive recent c1 = isLatestAndConsecutive recent c2.
Proof.
  intros Hperm.
  destruct (isLatestAndConsecutive recent c1) eqn:H1.
  - symmetry. by eapply isLatestAndConsecutive_perm_true.
  - destruct (isLatestAndConsecutive recent c2) eqn:H2; [|done].
    symmetry in Hperm.
    pose proof (isLatestAndConsecutive_perm_true _ _ _ Hperm H2). congruence.
Qed.

(* ===================================================================== *)
(** * Part 5: reasoning about runs                                       *)
(* ===================================================================== *)

(** [wp m Q w]: the run of [m] from [w] ends in an outcome and a world that
    satisfy [Q].  Runs are functions, so this is total correctness. *)
Definition wp {A} (m : M A) (Q : Outcome A → World → Prop) (w : World) : Prop :=
  Q (m w).1 (m w).2.

(** [preserves I m]: whatever the outcome, [m] takes a world of [I] to a
    world of [I]. *)
Definition preserves {A} (I : World → Prop) (m : M A) : Prop :=
  ∀ w, I w → I (m w).2.

(** An invariant that does not read the output streams. *)
Definition quiet (I : World → Prop) : Prop :=
  ∀ r c tr o e o' e', I (mkWorld r c tr o e) → I (mkWorld r c tr o' e').

(** The events a run from [w0] has added to the journal. *)
Definition events_since (w0 w : World) : list Event :=
  drop (length (trace w0)) (trace w).

Definition ops (evs : list Event) : list Op := ev_op <$> evs.

(** [issued P w0 w]: the journal of [w] extends the one of [w0] by events
    that all satisfy [P]. *)
Definition issued (P : Event → Prop) (w0 w : World) : Prop :=
  ∃ evs, trace w = trace w0 ++ evs ∧ Forall P evs.

Section Logic.

Context {A B : Type}.
Implicit Types (m : M A) (k : A → M B) (Q : Outcome B → World → Prop).

Lemma wp_run m (Q : Outcome A → World → Prop) w o w' :
  m w = (o, w') → wp m Q w → Q o w'.
Proof. unfold wp. by intros ->. Qed.

Lemma wp_mono m (Q Q' : Outcome A → World → Prop) w :
  wp m Q w → (∀ o w', Q o w' → Q' o w') → wp m Q' w.
Proof. unfold wp. auto. Qed.

Lemma wp_bind m k Q w :
  wp m (λ o w', match o with
                | Ok a => wp (k a) Q w'
                | Throw e => Q (Throw e) w'
                | Exit c => Q (Exit c) w'
                end) w →
  wp (x <- m ;; k x) Q w.
Proof. unfold wp, bind. by destruct (m w) as [[a|e|c] w']. Qed.

Lemma wp_try (m : M A) (h : Error → M A) (Q : Outcome A → World → Prop) w :
  wp m (λ o w', match o with
                | Throw e => wp (h e) Q w'
                | _ => Q o w'
                end) w →
  wp (try_catch m h) Q w.
Proof. unfold wp, try_catch. by destruct (m w) as [[a|e|c] w']. Qed.

Lemma wp_preserves (I : World → Prop) m (Q : Outcome A → World → Prop) w :
  preserves I m → I w → (∀ o w', I w' → Q o w') → wp m Q w.
Proof. unfold wp, preserves. auto. Qed.

(** One step of a sequence, under an invariant the step preserves. *)
Lemma wp_bind_inv (I : World → Prop) m k Q w :
  preserves I m → I w →
  (∀ a w', I w' → wp (k a) Q w') →
  (∀ e w', I w' → Q (Throw e) w') →
  (∀ c w', I w' → Q (Exit c) w') →
  wp (x <- m ;; k x) Q w.
Proof.
  intros Hm Hw Hk He Hc. apply wp_bind, (wp_preserves I); [done..|].
  intros [a|e|c] w' HI; auto.
Qed.

Lemma preserves_bind (I : World → Prop) m k :
  preserves I m → (∀ a, preserves I (k a)) → preserves I (x <- m ;; k x).
Proof.
  intros Hm Hk w Hw. specialize (Hm w Hw). unfold bind.
  destruct (m w) as [[a|e|c] w']; simpl in *; [by apply Hk|done..].
Qed.

Lemma preserves_try (I : World → Prop) (m : M A) (h : Error → M A) :
  preserves I m → (∀ e, preserves I (h e)) → preserves I (try_catch m h).
Proof.
  intros Hm Hh w Hw. specialize (Hm w Hw). unfold try_catch.
  destruct (m w) as [[a|e|c] w']; simpl in *; [done|by apply Hh|done].
Qed.

Lemma preserves_ret (I : World → Prop) (a : A) : preserves I (ret a).
Proof. by intros w. Qed.

Lemma preserves_throw (I : World → Prop) e : preserves I (throw (A:=A) e).
Proof. by intros w. Qed.

Lemma preserves_exit (I : World → Prop) c : preserves I (process_exit (A:=A) c).
Proof. by intros w. Qed.

Lemma preserves_gateway (I : World → Prop) faults op (sem : Repo → string + (A * Repo)) :
  (∀ w, I w → I (journal op false (repo w) w)) →
  (∀ w a r', I w → sem (repo w) = inr (a, r') → I (journal op true r' w)) →
  preserves I (gateway faults op sem).
Proof.
  intros Hfail Hok w Hw. unfold gateway.
  destruct (faults _); [by apply Hfail|].
  destruct (sem (repo w)) as [msg|[a r']] eqn:Hsem; simpl; eauto.
Qed.

Lemma wp_gateway faults op (sem : Repo → string + (A * Repo))
    (Q : Outcome A → World → Prop) w :
  match faults (length (trace w)) with
  | Some msg => Q (Throw (GitError op msg)) (journal op false (repo w) w)
  | None =>
      match sem (repo w) with
      | inl msg => Q (Throw (GitError op msg)) (journal op false (repo w) w)
      | inr (a, r') => Q (Ok a) (journal op true r' w)
      end
  end →
  wp (gateway faults op sem) Q w.
Proof.
  unfold wp, gateway. destruct (faults _); [done|].
  by destruct (sem (repo w)) as [msg|[a r']].
Qed.

End Logic.

Lemma wp_ret {A} (a : A) (Q : Outcome A → World → Prop) w :
  Q (Ok a) w → wp (ret a) Q w.
Proof. done. Qed.

Lemma wp_throw {A} e (Q : Outcome A → World → Prop) w :
  Q (Throw e) w → wp (throw e) Q w.
Proof. done. Qed.

Lemma wp_stdout_write s (Q : Outcome unit → World → Prop) w :
  Q (Ok tt) (mkWorld (repo w) (clock w) (trace w) (stdout w ++ [s]) (stderr w)) →
  wp (stdout_write s) Q w.
Proof. done. Qed.

Lemma wp_console_log s (Q : Outcome unit → World → Prop) w :
  Q (Ok tt) (mkWorld (repo w) (clock w) (trace w) (stdout w ++ [s +:+ nl]) (stderr w)) →
  wp (console_log s) Q w.
Proof. done. Qed.

Lemma wp_console_error s (Q : Outcome unit → World → Prop) w :
  Q (Ok tt) (mkWorld (repo w) (clock w) (trace w) (stdout w) (stderr w ++ [s])) →
  wp (console_error s) Q w.
Proof. done. Qed.

Lemma wp_Date_now (Q : Outcome N → World → Prop) w :
  Q (Ok (clock w)) w → wp Date_now Q w.
Proof. done. Qed.

Lemma wp_when (b : bool) (m : M unit) (Q : Outcome unit → World → Prop) w :
  (if b then wp m Q w else Q (Ok tt) w) → wp (when b m) Q w.
Proof. by destruct b. Qed.

(** Worlds are kept in normal form while stepping through a program. *)
Ltac wp_norm := cbn [repo clock trace stdout stderr journal].
Ltac wp_log := apply wp_bind, wp_console_log; wp_norm.
Ltac wp_write := apply wp_bind, wp_stdout_write; wp_norm.

(** The loop rule: [Inv done] holds after the elements [done] have been
    processed; an iteration that does not complete ends the loop. *)
Lemma wp_for_of {X} (Inv : list X → World → Prop) (l : list X) (f : X → M unit)
    (Q : Outcome unit → World → Prop) w :
  Inv [] w →
  (∀ done x rest w1, l = done ++ x :: rest → Inv done w1 →
     wp (f x) (λ o w2, match o with
                       | Ok _ => Inv (done ++ [x]) w2
                       | Throw e => Q (Throw e) w2
                       | Exit c => Q (Exit c) w2
                       end) w1) →
  (∀ w', Inv l w' → Q (Ok tt) w') →
  wp (for_of l f) Q w.
Proof.
  intros H0 Hstep Hend.
  assert (∀ todo done w1, l = done ++ todo → Inv done w1 → wp (for_of todo f) Q w1) as Hgen.
  { induction todo as [|x todo IH]; intros done w1 Hl HI; simpl.
    - rewrite app_nil_r in Hl. subst. apply wp_ret. auto.
    - apply wp_bind. eapply wp_mono; [by eapply Hstep|].
      intros [[]|e|c] w2; simpl; [|done..].
      intros HI2. apply (IH (done ++ [x])); [|done].
      by rewrite <-app_assoc. }
  by apply (Hgen l []).
Qed.

Lemma preserves_when (I : World → Prop) (b : bool) (m : M unit) :
  preserves I m → preserves I (when b m).
Proof. destruct b; [done|]. intros _. apply preserves_ret. Qed.

Lemma preserves_for_of {X} (I : World → Prop) (l : list X) (f : X → M unit) :
  (∀ x, preserves I (f x)) → preserves I (for_of l f).
Proof.
  intros Hf. induction l as [|x l IH]; simpl; [apply preserves_ret|].
  apply preserves_bind; auto.
Qed.

Lemma preserves_suppress (I : World → Prop) (m : M unit) :
  preserves I m → preserves I (suppress m).
Proof. intros Hm. apply preserves_try; [done|]. intros _. apply preserves_ret. Qed.

Lemma preserves_stdout_write (I : World → Prop) s :
  quiet I → preserves I (stdout_write s).
Proof. intros Hq [r c tr o e] Hw. by eapply Hq. Qed.

Lemma preserves_console_log (I : World → Prop) s :
  quiet I → preserves I (console_log s).
Proof. apply preserves_stdout_write. Qed.

Lemma preserves_console_error (I : World → Prop) s :
  quiet I → preserves I (console_error s).
Proof. intros Hq [r c tr o e] Hw. by eapply Hq. Qed.

Lemma preserves_Date_now (I : World → Prop) : preserves I Date_now.
Proof. by intros w. Qed.

Lemma preserves_slice_of (I : World → Prop) x : preserves I (slice_of x).
Proof. destruct x; [apply preserves_ret|apply preserves_throw]. Qed.

(** Walks the structure of a program; what is left are its repository
    calls and the side condition [quiet]. *)
Ltac preserves_structure :=
  repeat first
    [ apply preserves_bind; [|intros ?]
    | apply preserves_try; [|intros ?]
    | apply preserves_for_of; intros ?
    | apply preserves_when
    | apply preserves_suppress
    | apply preserves_ret
    | apply preserves_throw
    | apply preserves_exit
    | apply preserves_Date_now
    | apply preserves_slice_of
    | apply preserves_stdout_write
    | apply preserves_console_log
    | apply preserves_console_error
    | match goal with
      | |- preserves _ (if ?b then _ else _) => destruct b
      end ].

(** ** The journal only grows *)

Lemma issued_refl P w : issued P w w.
Proof. exists []. by rewrite app_nil_r. Qed.

Lemma issued_events_since P w0 w :
  issued P w0 w → trace w = trace w0 ++ events_since w0 w ∧ Forall P (events_since w0 w).
Proof.
  intros (evs & Htr & HP). unfold events_since.
  by rewrite Htr, drop_app_length.
Qed.

Lemma issued_quiet P w0 : quiet (issued P w0).
Proof. by intros r c tr o e o' e'. Qed.

Lemma issued_journal P w0 w op ok r' :
  P (mkEvent op (HEAD (repo w)) ok) → issued P w0 w → issued P w0 (journal op ok r' w).
Proof.
  intros HP (evs & Htr & Hevs). exists (evs ++ [mkEvent op (HEAD (repo w)) ok]). split.
  - simpl. by rewrite Htr, <-app_assoc.
  - apply Forall_app. by repeat constructor.
Qed.

Lemma preserves_issued_gateway {A} P w0 faults op (sem : Repo → string + (A * Repo)) :
  (∀ h ok, P (mkEvent op h ok)) → preserves (issued P w0) (gateway faults op sem).
Proof. intros HP. apply preserves_gateway; intros; by apply issued_journal. Qed.

(** The calls of the two rewriting paths and of the classifier: everything
    but [status] and [stash]. *)
Definition rewrite_op (op : Op) : bool :=
  match op with
  | OpStatus | OpStashSave _ | OpStashPop => false
  | _ => true
  end.

Lemma preserves_git_commit (I : World → Prop) faults msg :
  (∀ w, I w → I (journal (OpCommit msg) false (repo w) w)) →
  (∀ w a r', I w → sem_commit (clock w) msg (repo w) = inr (a, r') →
     I (journal (OpCommit msg) true r' w)) →
  preserves I (git_commit faults msg).
Proof.
  intros Hfail Hok w Hw. unfold git_commit, gateway.
  destruct (faults _); [by apply Hfail|].
  destruct (sem_commit _ _ _) as [m|[a r']] eqn:Hsem; simpl; eauto.
Qed.

Lemma preserves_issued_commit P w0 faults msg :
  (∀ h ok, P (mkEvent (OpCommit msg) h ok)) →
  preserves (issued P w0) (git_commit faults msg).
Proof. intros HP. apply preserves_git_commit; intros; by apply issued_journal. Qed.

Ltac issued_calls :=
  preserves_structure;
  first [ apply issued_quiet
        | apply preserves_issued_commit; intros; done
        | apply preserves_issued_gateway; intros; done ].

Lemma squashLatestCommits_issued faults commits message w0 :
  preserves (issued (λ e, rewrite_op (ev_op e) = true) w0)
            (squashLatestCommits faults commits message).
Proof. unfold squashLatestCommits. issued_calls. Qed.

Lemma squashNonConsecutiveCommits_issued faults commits message w0 :
  preserves (issued (λ e, rewrite_op (ev_op e) = true) w0)
            (squashNonConsecutiveCommits faults commits message).
Proof. unfold squashNonConsecutiveCommits. issued_calls. Qed.

Lemma areCommitsLatestAndConsecutive_issued faults commits w0 :
  preserves (issued (λ e, rewrite_op (ev_op e) = true) w0)
            (areCommitsLatestAndConsecutive faults commits).
Proof. unfold areCommitsLatestAndConsecutive. issued_calls. Qed.

(* ===================================================================== *)
(** * Part 6: which path the orchestrator takes                           *)
(* ===================================================================== *)

(** The plan in which no call fails for an outside reason. *)
Definition no_faults : nat → option string := λ _, None.

(** The commit sequence of the checked-out branch, newest first. *)
Definition history (r : Repo) : list Commit :=
  match tip r with
  | Some t => ancestry t (objects r)
  | None => []
  end.

Definition stash_label : string := "temporary stash before squash".




Lemma ops_app evs1 evs2 : ops (evs1 ++ evs2) = ops evs1 ++ ops evs2.
Proof. apply fmap_app. Qed.



(** ** A sample repository: five commits on [main], [C5] the newest *)

Definition sample_commit (h : Hash) (p : option Hash) : Commit :=
  mkCommit h p "2024-01-01" ("commit " +:+ h) ["change " +:+ h].

Definition sample_objects : list Commit :=
  [ sample_commit "C5" (Some "C4"); sample_commit "C4" (Some "C3");
    sample_commit "C3" (Some "C2"); sample_commit "C2" (Some "C1");
    sample_commit "C1" None ].

Definition sample_repo (uncommitted : list string) : Repo :=
  mkRepo sample_objects {[ "main" := "C5" ]} "main"
         (tree_of "C5" sample_objects) uncommitted [].

Definition sample_world (uncommitted : list string) : World :=
  mkWorld (sample_repo uncommitted) 1700000000000%N [] [] [].

(** Closed decidable facts are settled by evaluating their decision. *)
Ltac decide_by_computation := apply (bool_decide_unpack _); vm_compute; exact I.

(** ** Gaps in a selection *)







Lemma areCommitsLatestAndConsecutive_result faults commits w b w1 :
  areCommitsLatestAndConsecutive faults commits w = (Ok b, w1) →
  b = isLatestAndConsecutive (take (length commits) (hash <$> history (repo w))) commits.
Proof.
  unfold areCommitsLatestAndConsecutive, bind, git_log, gateway, sem_log, history.
  destruct (faults _); [done|].
  destruct (tip (repo w)); [|done]. simpl. rewrite fmap_take. unfold ret. congruence.
Qed.



(** C9. The classifier returns the same answer for every listing order of
    the selection: with the same repository and the same fault plan, the run
    of [areCommitsLatestAndConsecutive] on a permutation of the selection
    ends in the same outcome and the same world. *)
Theorem classifier_ignores_listing_order faults (c1 c2 : list Hash) (w : World) :
  c1 ≡ₚ c2 →
  areCommitsLatestAndConsecutive faults c1 w = areCommitsLatestAndConsecutive faults c2 w.
Proof.
  intros Hperm. unfold areCommitsLatestAndConsecutive, bind.
  rewrite (Permutation_length Hperm).
  destruct (git_log faults (Some (length c2)) w) as [[log|e|c] w']; [|done..].
  unfold ret. by rewrite (isLatestAndConsecutive_perm _ _ _ Hperm).
Qed.

Lemma classifier_ignores_listing_order_witness :
  areCommitsLatestAndConsecutive no_faults ["C5"; "C4"; "C3"] (sample_world [])
  = areCommitsLatestAndConsecutive no_faults ["C4"; "C3"; "C5"] (sample_world []).
Proof.
  apply (classifier_ignores_listing_order no_faults ["C5"; "C4"; "C3"] ["C4"; "C3"; "C5"]).
  decide_by_computation.
Defined.

(* ===================================================================== *)
(** * Part 7: the dry run                                                *)
(* ===================================================================== *)

(** [prints m]: [m] only writes to the output stream, and returns. *)
Definition prints {A} (m : M A) : Prop :=
  ∀ w, ∃ a out, m w = (Ok a, mkWorld (repo w) (clock w) (trace w) (stdout w ++ out) (stderr w)).

Lemma prints_ret {A} (a : A) : prints (ret a).
Proof. intros [r c tr o e]. exists a, []. simpl. by rewrite app_nil_r. Qed.

Lemma prints_stdout_write s : prints (stdout_write s).
Proof. intros w. by exists tt, [s]. Qed.

Lemma prints_console_log s : prints (console_log s).
Proof. apply prints_stdout_write. Qed.

Lemma prints_bind {A B} (m : M A) (k : A → M B) :
  prints m → (∀ a, prints (k a)) → prints (x <- m ;; k x).
Proof.
  intros Hm Hk w. destruct (Hm w) as (a & out1 & H1).
  destruct (Hk a (mkWorld (repo w) (clock w) (trace w) (stdout w ++ out1) (stderr w)))
    as (b & out2 & H2).
  exists b, (out1 ++ out2). unfold bind. rewrite H1, H2. simpl. by rewrite <-app_assoc.
Qed.

Lemma prints_when b (m : M unit) : prints m → prints (when b m).
Proof. destruct b; [done|]. intros _. apply prints_ret. Qed.

Lemma prints_for_of {X} (l : list X) (f : X → M unit) :
  (∀ x, prints (f x)) → prints (for_of l f).
Proof.
  intros Hf. induction l as [|x l IH]; simpl; [apply prints_ret|].
  apply prints_bind; auto.
Qed.

Lemma wp_prints {A} (m : M A) (Q : Outcome A → World → Prop) w :
  prints m →
  (∀ a out, Q (Ok a) (mkWorld (repo w) (clock w) (trace w) (stdout w ++ out) (stderr w))) →
  wp m Q w.
Proof. intros Hm HQ. unfold wp. destruct (Hm w) as (a & out & ->). apply HQ. Qed.

Ltac prints_structure :=
  repeat first
    [ apply prints_bind; [|intros ?]
    | apply prints_for_of; intros ?
    | apply prints_when
    | apply prints_ret
    | apply prints_console_log
    | apply prints_stdout_write
    | match goal with
      | |- prints (if ?b then _ else _) => destruct b
      end ].

(** The calls that change the repository. *)
Definition mutating_op (op : Op) : bool :=
  match op with
  | OpLog _ | OpStatus | OpBranch | OpRevParse _ => false
  | _ => true
  end.

(** The line of the preview that reports the uncommitted changes. *)
Definition uncommitted_report (count : nat) : string :=
  "• " +:+ pretty count +:+ " uncommitted changes will be preserved".

(** C7. With the dry-run toggle set, [squashCommits] issues at most two
    calls, the status query and then the log read of
    [max(10, |selection| + 3)] commits, both of them reads; the repository
    is the same afterwards, so [status()] answers the same; the preview is
    completed exactly when both reads succeed, and it then ends with the
    count of the uncommitted changes when there are some. *)
Theorem dry_run_reads_only faults (commits : list Hash) message w o w' :
  squashCommits faults commits message true w = (o, w') →
  let evs := events_since w w' in
  trace w' = trace w ++ evs
  ∧ ops evs `prefix_of` [OpStatus; OpLog (Some (Nat.max 10 (length commits + 3)))]
  ∧ Forall (λ e, mutating_op (ev_op e) = false) evs
  ∧ repo w' = repo w
  ∧ sem_status (repo w') = sem_status (repo w)
  ∧ (o = Ok tt ∨ o = Exit 1)
  ∧ (o = Ok tt ↔ length evs = 2 ∧ Forall (λ e, ev_ok e = true) evs)
  ∧ (o = Ok tt → 0 < length (files (repo w)) →
     last (stdout w') = Some (uncommitted_report (length (files (repo w))) +:+ nl)).
Proof.
  intros Hrun evs.
  set (script := [OpStatus; OpLog (Some (Nat.max 10 (length commits + 3)))]).
  set (Q := λ (o : Outcome unit) w', ∃ evs,
     trace w' = trace w ++ evs
     ∧ ops evs `prefix_of` script
     ∧ repo w' = repo w
     ∧ (o = Ok tt ∨ o = Exit 1)
     ∧ (o = Ok tt ↔ length evs = 2 ∧ Forall (λ e, ev_ok e = true) evs)
     ∧ (o = Ok tt → 0 < length (files (repo w)) →
        last (stdout w') = Some (uncommitted_report (length (files (repo w))) +:+ nl))).
  assert (wp (squashCommits faults commits message true) Q w) as Hwp.
  { assert (∀ e w1 evs1, trace w1 = trace w ++ evs1 → ops evs1 `prefix_of` script →
              repo w1 = repo w → ¬ Forall (λ e, ev_ok e = true) evs1 →
              wp (console_error ("Error during squash: " +:+ error_message e) ;; process_exit 1) Q w1)
      as Hh.
    { intros e w1 evs1 Htr Hpre Hrepo Hnok. exists evs1. simpl.
      split_and!; [done..|by right| |done]. split; [done|]. by intros [_ ?]. }
    unfold squashCommits. apply wp_try, wp_bind, wp_gateway.
    destruct (faults _).
    { apply (Hh _ _ [mkEvent OpStatus (HEAD (repo w)) false]); [done|by exists (tail script)|done|].
      by intros Hall%Forall_inv. }
    unfold sem_status. cbv iota beta.
    apply wp_bind, wp_gateway. simpl trace. simpl repo.
    set (ev1 := mkEvent OpStatus (HEAD (repo w)) true).
    set (w1 := journal OpStatus true (repo w) w).
    set (oplog := OpLog (Some (Nat.max 10 (length commits + 3)))).
    assert (∀ e, wp (console_error ("Error during squash: " +:+ error_message e) ;; process_exit 1) Q
               (journal oplog false (repo w) w1)) as Hfail.
    { intros e. apply (Hh _ _ [ev1; mkEvent oplog (HEAD (repo w)) false]).
      - simpl. by rewrite <-app_assoc.
      - done.
      - done.
      - intros Hall. apply Forall_inv_tail, Forall_inv in Hall. done. }
    destruct (faults _); [apply Hfail|].
    destruct (sem_log _ _) as [msg|[log r']] eqn:Hlog; [apply Hfail|].
    assert (r' = repo w) as ->.
    { unfold sem_log in Hlog. destruct (tip (repo w)); by simplify_eq. }
    set (ev2 := mkEvent oplog (HEAD (repo w)) true).
    assert (∀ c out err,
              (0 < length (files (repo w)) →
               last out = Some (uncommitted_report (length (files (repo w))) +:+ nl)) →
              Q (Ok tt) (mkWorld (repo w) c ((trace w ++ [ev1]) ++ [ev2]) out err)) as Hdone.
    { intros c out err Hout. exists [ev1; ev2]. cbn [trace repo stdout].
      split_and!; [by rewrite <-app_assoc|done|done|by left| |by intros _].
      split; [intros _; split; [done|by repeat constructor]|done]. }
    unfold w1. cbn [repo clock trace stdout stderr journal]. fold ev1 ev2.
    clear Hh Hfail Hlog. clearbody Q.
    (* everything that follows only prints *)
    do 8 (apply wp_bind, wp_prints;
          [by prints_structure|intros ? ?; cbn [repo clock trace stdout stderr journal]]).
    apply wp_when. destruct (bool_decide (0 < length (files (repo w)))) eqn:Hd.
    - apply wp_console_log. cbn [repo clock trace stdout stderr journal].
      apply Hdone. intros _. apply last_snoc.
    - apply Hdone. intros Hlt. apply bool_decide_eq_false in Hd. done. }
  apply (wp_run _ _ _ _ _ Hrun) in Hwp. destruct Hwp as (evs' & Htr & Hpre & Hrepo & Ho & Hiff & Hrep).
  assert (evs = evs') as ->.
  { unfold evs, events_since. by rewrite Htr, drop_app_length. }
  split_and!; try done.
  - destruct Hpre as [k Hk]. apply Forall_forall. intros e He.
    assert (ev_op e ∈ script) as Hin.
    { rewrite Hk. apply elem_of_app. left. by apply list_elem_of_fmap_2. }
    unfold script in Hin. rewrite !elem_of_cons, elem_of_nil in Hin.
    by destruct Hin as [->|[->|[]]].
  - by rewrite Hrepo.
Qed.

Lemma dry_run_reads_only_witness :
  let run := squashCommits no_faults ["C4"; "C2"] "squashed" true
               (sample_world ["a.txt"; "b.txt"]) in
  run.1 = Ok tt
  ∧ repo run.2 = sample_repo ["a.txt"; "b.txt"]
  ∧ ops (trace run.2) `prefix_of` [OpStatus; OpLog (Some 10)]
  ∧ last (stdout run.2) = Some (uncommitted_report 2 +:+ nl).
Proof.
  intros run.
  assert (run.1 = Ok tt) as Hok by (vm_compute; reflexivity).
  destruct (dry_run_reads_only no_faults ["C4"; "C2"] "squashed"
              (sample_world ["a.txt"; "b.txt"]) run.1 run.2 (surjective_pairing _))
    as (Htr & Hops & _ & Hrepo & _ & _ & _ & Hreport).
  split_and!; [exact Hok|exact Hrepo| |].
  - rewrite Htr. exact Hops.
  - apply Hreport; [exact Hok|simpl; lia].
Defined.

(* ===================================================================== *)
(** * Part 8: the stash around a real run                                *)
(* ===================================================================== *)

(** ** The three blocks of a real run of [squashCommits] *)

(** Lines 188 and 231-234: the status query, and the stash when it reports
    files. *)
Definition stash_before (faults : nat → option string) : M (list string) :=
  status <- git_status faults ;;
  when (bool_decide (0 < length status))
    (console_log "Warning: You have uncommitted changes. Stashing them..." ;;
     git_stash_save faults "temporary stash before squash") ;;
  ret status.

(** Lines 236-243: the classification and the squash on the chosen path. *)
Definition squash_step (faults : nat → option string)
    (commits : list Hash) (message : string) : M unit :=
  useSimpleApproach <- areCommitsLatestAndConsecutive faults commits ;;
  if useSimpleApproach then
    squashLatestCommits faults commits message
  else
    console_log (nl +:+ "🔄 Using advanced squash approach (non-consecutive or non-latest commits)...") ;;
    squashNonConsecutiveCommits faults commits message.

(** Lines 245-249: the stash is popped when the status had reported files. *)
Definition stash_after (faults : nat → option string) (status : list string) : M unit :=
  when (bool_decide (0 < length status)) (git_stash_pop faults) ;;
  console_log (nl +:+ "✨ Successfully squashed commits!").

(** Lines 250-253. *)
Definition report_failure (error : Error) : M unit :=
  console_error ("Error during squash: " +:+ error_message error) ;;
  process_exit 1.

Lemma squashCommits_blocks faults commits message w :
  squashCommits faults commits message false w =
  try_catch (status <- stash_before faults ;;
             squash_step faults commits message ;;
             stash_after faults status)
            report_failure w.
Proof.
  unfold squashCommits, stash_before, squash_step, stash_after, try_catch, bind.
  destruct (git_status faults w) as [[st|e|c] w1]; [|done..].
  destruct (when _ _ w1) as [[[]|e|c] w2]; [|done..]. simpl.
  by destruct (areCommitsLatestAndConsecutive faults commits w2) as [[b|e|c] w3].
Qed.

Lemma gateway_inv {A} faults op (sem : Repo → string + (A * Repo)) w o w' :
  gateway faults op sem w = (o, w') →
  (∃ msg, o = Throw (GitError op msg) ∧ w' = journal op false (repo w) w)
  ∨ (∃ a r', sem (repo w) = inr (a, r') ∧ o = Ok a ∧ w' = journal op true r' w).
Proof.
  unfold gateway. destruct (faults _).
  { intros [= <- <-]. left. eauto. }
  destruct (sem (repo w)) as [msg|[a r']] eqn:Hsem; intros [= <- <-]; [left|right]; eauto.
Qed.

Ltac trace_eq := simpl; rewrite <-?app_assoc; simpl; reflexivity.

Definition all_ok (evs : list Event) : Prop := Forall (λ e, ev_ok e = true) evs.

(** What [stash_before] issues. *)
Lemma stash_before_run faults w o1 w1 :
  stash_before faults w = (o1, w1) →
  let dirty := bool_decide (0 < length (files (repo w))) in
  ∃ evs1, trace w1 = trace w ++ evs1 ∧
    match o1 with
    | Ok status =>
        status = files (repo w) ∧ all_ok evs1
        ∧ ops evs1 = OpStatus :: (if dirty then [OpStashSave stash_label] else [])
    | Throw _ =>
        (∃ h, evs1 = [mkEvent OpStatus h false])
        ∨ (dirty = true ∧ ∃ h h', evs1 = [mkEvent OpStatus h true; mkEvent (OpStashSave stash_label) h' false])
    | Exit _ => False
    end.
Proof.
  intros Hrun dirty. unfold stash_before, bind in Hrun.
  destruct (git_status faults w) as [[st|e|c] ws] eqn:Hst;
    apply gateway_inv in Hst as [(msg & ? & ->)|(a & r' & Hsem & ? & ->)]; simplify_eq.
  2: { exists [mkEvent OpStatus (HEAD (repo w)) false]. split; [done|]. left. eauto. }
  unfold sem_status in Hsem. simplify_eq. fold dirty in Hrun.
  destruct dirty eqn:Hd; unfold when, bind, console_log, stdout_write, ret in Hrun;
    cbv beta iota in Hrun.
  - destruct (git_stash_save _ _ _) as [[[]|e|c] w2] eqn:Hsave;
      apply gateway_inv in Hsave as [(msg & ? & ->)|(a & r' & Hsem & ? & ->)]; simplify_eq.
    + eexists [_; _]. split; [trace_eq|].
      split_and!; [done|by repeat constructor|done].
    + eexists [_; _]. split; [trace_eq|]. right. eauto.
  - simplify_eq. eexists [_]. split; [done|].
    split_and!; [done|by repeat constructor|done].
Qed.

Lemma squash_step_issued faults commits message w0 :
  preserves (issued (λ e, rewrite_op (ev_op e) = true) w0) (squash_step faults commits message).
Proof.
  unfold squash_step. apply preserves_bind; [apply areCommitsLatestAndConsecutive_issued|].
  intros [].
  - apply squashLatestCommits_issued.
  - apply preserves_bind; [apply preserves_console_log, issued_quiet|].
    intros _. apply squashNonConsecutiveCommits_issued.
Qed.

(** [no_exit m]: [m] returns or throws; it does not end the process. *)
Definition no_exit {A} (m : M A) : Prop := ∀ w c, (m w).1 ≠ Exit c.

Lemma no_exit_bind {A B} (m : M A) (k : A → M B) :
  no_exit m → (∀ a, no_exit (k a)) → no_exit (x <- m ;; k x).
Proof.
  intros Hm Hk w c. specialize (Hm w). unfold bind.
  destruct (m w) as [[a|e|c'] w']; simpl in *; [apply Hk|done|by destruct (Hm c')].
Qed.

Lemma no_exit_try {A} (m : M A) (h : Error → M A) :
  no_exit m → (∀ e, no_exit (h e)) → no_exit (try_catch m h).
Proof.
  intros Hm Hh w c. specialize (Hm w). unfold try_catch.
  destruct (m w) as [[a|e|c'] w']; simpl in *; [done|apply Hh|by destruct (Hm c')].
Qed.

Lemma no_exit_ret {A} (a : A) : no_exit (ret a).
Proof. by intros w c. Qed.

Lemma no_exit_throw {A} e : no_exit (throw (A:=A) e).
Proof. by intros w c. Qed.

Lemma no_exit_prints {A} (m : M A) : prints m → no_exit m.
Proof. intros Hm w c. by destruct (Hm w) as (a & out & ->). Qed.

Lemma no_exit_gateway {A} faults op (sem : Repo → string + (A * Repo)) :
  no_exit (gateway faults op sem).
Proof.
  intros w c. unfold gateway. destruct (faults _); [done|].
  by destruct (sem (repo w)) as [msg|[a r']].
Qed.

Lemma no_exit_git_commit faults msg : no_exit (git_commit faults msg).
Proof. intros w c. apply (no_exit_gateway faults _ (sem_commit (clock w) msg)). Qed.

Lemma no_exit_when b (m : M unit) : no_exit m → no_exit (when b m).
Proof. destruct b; [done|]. intros _. apply no_exit_ret. Qed.

Lemma no_exit_for_of {X} (l : list X) (f : X → M unit) :
  (∀ x, no_exit (f x)) → no_exit (for_of l f).
Proof.
  intros Hf. induction l as [|x l IH]; simpl; [apply no_exit_ret|].
  apply no_exit_bind; auto.
Qed.

Lemma no_exit_slice_of x : no_exit (slice_of x).
Proof. destruct x; [apply no_exit_ret|apply no_exit_throw]. Qed.

Ltac no_exit_structure :=
  repeat first
    [ apply no_exit_bind; [|intros ?]
    | apply no_exit_try; [|intros ?]
    | apply no_exit_for_of; intros ?
    | apply no_exit_when
    | apply no_exit_ret
    | apply no_exit_throw
    | apply no_exit_slice_of
    | apply no_exit_git_commit
    | apply no_exit_gateway
    | apply no_exit_prints, prints_stdout_write
    | by intros ? ?
    | match goal with
      | |- no_exit (if ?b then _ else _) => destruct b
      end ].

Lemma squash_step_no_exit faults commits message :
  no_exit (squash_step faults commits message).
Proof.
  unfold squash_step, areCommitsLatestAndConsecutive, squashLatestCommits,
    squashNonConsecutiveCommits, suppress.
  no_exit_structure.
Qed.

Lemma rewrite_ops_exclude evs op :
  Forall (λ e, rewrite_op (ev_op e) = true) evs → rewrite_op op = false → op ∉ ops evs.
Proof.
  intros Hall Hop (e & -> & He)%list_elem_of_fmap.
  rewrite Forall_forall in Hall. specialize (Hall e He). congruence.
Qed.

(** C8. In a real run, the stash is saved under the fixed label exactly when
    the status query succeeds and reports files, and then as the second
    call, before anything else; it is popped exactly when that status had
    reported files and the squash that followed succeeded; when the squash
    fails the stash is not popped and the process exits with code 1. *)
Theorem stash_guard faults (commits : list Hash) message w o w' :
  squashCommits faults commits message false w = (o, w') →
  let evs := events_since w w' in
  let dirty := bool_decide (0 < length (files (repo w))) in
  (o = Ok tt ∨ o = Exit 1)
  ∧ (OpStashSave stash_label ∈ ops evs ↔
     dirty = true ∧ ∃ e rest, evs = e :: rest ∧ ev_ok e = true)
  ∧ (OpStashSave stash_label ∈ ops evs → ops evs !! 1 = Some (OpStashSave stash_label))
  ∧ (∀ status w1 o2 w2,
       stash_before faults w = (Ok status, w1) →
       squash_step faults commits message w1 = (o2, w2) →
       (OpStashPop ∈ ops evs ↔ dirty = true ∧ o2 = Ok tt)
       ∧ (o2 ≠ Ok tt → (OpStashPop ∉ ops evs) ∧ o = Exit 1))
  ∧ (∀ e w1, stash_before faults w = (Throw e, w1) →
       (OpStashPop ∉ ops evs) ∧ o = Exit 1).
Proof.
  intros Hrun evs dirty. rewrite squashCommits_blocks in Hrun.
  unfold try_catch, bind in Hrun.
  destruct (stash_before faults w) as [o1 w1] eqn:H1.
  pose proof (stash_before_run _ _ _ _ H1) as (evs1 & Htr1 & Hevs1). cbv zeta in Hevs1.
  subst dirty. cbv zeta.
  assert (∀ x, trace w' = trace w ++ x → evs = x) as Hevs.
  { intros x Hx. unfold evs, events_since. by rewrite Hx, drop_app_length. }
  destruct o1 as [status|e|c]; [| |done].
  2: { (* the status query or the stash failed *)
    assert (o = Exit 1 ∧ evs = evs1) as [-> Heq].
    { unfold report_failure, bind, console_error, process_exit in *.
      simplify_eq. split; [done|]. by apply Hevs. }
    rewrite Heq. clear Hevs Heq evs.
    destruct Hevs1 as [[h ->]|(Hd & h & h' & ->)]; simpl.
    - split_and!; [by right| | |by intros ? ? ? ? [=]|].
      + rewrite list_elem_of_singleton. split; [by intros [=]|]. intros (_ & e' & rest & ? & ?). by simplify_eq.
      + rewrite list_elem_of_singleton. by intros [=].
      + intros _ _ _. split; [|done]. rewrite list_elem_of_singleton. by intros [=].
    - split_and!; [by right| | |by intros ? ? ? ? [=]|].
      + split; [intros _; split; [done|eauto]|]. intros _. by right; left.
      + done.
      + intros _ _ _. split; [|done]. rewrite !elem_of_cons, elem_of_nil. by intros [|[|]]. }
  destruct Hevs1 as (-> & Hok1 & Hops1).
  remember (bool_decide (0 < length (files (repo w)))) as dirty eqn:Hdirty in *.
  destruct (squash_step faults commits message w1) as [o2 w2] eqn:H2.
  destruct (squash_step_issued faults commits message w1 w1 (issued_refl _ _))
    as (evs2 & Htr2 & Hevs2). rewrite H2 in Htr2. simpl in Htr2.
  pose proof (squash_step_no_exit faults commits message w1) as Hexit. rewrite H2 in Hexit.
  simpl in Hexit.
  assert (∃ evs3, evs = evs1 ++ evs2 ++ evs3
            ∧ ops evs3 = (if dirty then match o2 with Ok _ => [OpStashPop] | _ => [] end else [])
            ∧ (o = Ok tt ∨ o = Exit 1)
            ∧ (o2 ≠ Ok tt → o = Exit 1)) as (evs3 & Heq & Hops3 & Ho & Hfail).
  { destruct o2 as [[]|e|c]; [| |by destruct (Hexit c)].
    - unfold stash_after, bind in Hrun. rewrite <-Hdirty in Hrun.
      destruct dirty; unfold when in Hrun; cbv beta iota in Hrun.
      + destruct (git_stash_pop faults w2) as [[[]|e|c] w3] eqn:Hpop;
          apply gateway_inv in Hpop as [(msg & ? & ->)|(a & r' & Hsem & ? & ->)];
          unfold console_log, stdout_write, report_failure, bind, console_error, process_exit in Hrun;
          simplify_eq.
        * exists [mkEvent OpStashPop (HEAD (repo w2)) true]. split_and!; [|done|by left|done].
          apply Hevs. simpl. rewrite Htr2, Htr1, <-!app_assoc. done.
        * exists [mkEvent OpStashPop (HEAD (repo w2)) false]. split_and!; [|done|by right|done].
          apply Hevs. simpl. rewrite Htr2, Htr1, <-!app_assoc. done.
      + unfold ret, console_log, stdout_write in Hrun. simplify_eq.
        exists []. split_and!; [|done|by left|done].
        apply Hevs. simpl. rewrite Htr2, Htr1, <-!app_assoc, app_nil_r. done.
    - unfold report_failure, bind, console_error, process_exit in Hrun. simplify_eq.
      exists []. split_and!; [|by destruct (bool_decide _)|by right|done].
      apply Hevs. simpl. rewrite Htr2, Htr1, <-!app_assoc, app_nil_r. done. }
  assert (ops evs = ops evs1 ++ ops evs2 ++ ops evs3) as Hops by (by rewrite Heq, !ops_app).
  assert (OpStashSave stash_label ∉ ops evs2) as Hs2 by (by apply rewrite_ops_exclude).
  assert (OpStashPop ∉ ops evs2) as Hp2 by (by apply rewrite_ops_exclude).
  assert (OpStashSave stash_label ∉ ops evs3) as Hs3.
  { rewrite Hops3. destruct dirty, o2; rewrite ?elem_of_cons, ?elem_of_nil; intuition discriminate. }
  assert (OpStashPop ∉ ops evs1) as Hp1.
  { rewrite Hops1. destruct dirty; rewrite ?elem_of_cons, ?elem_of_nil; intuition discriminate. }
  split_and!.
  - done.
  - rewrite Hops, !elem_of_app, Hops1. split.
    + intros [Hin|[?|?]]; [|done..]. split.
      * destruct dirty; [done|]. apply list_elem_of_singleton in Hin. done.
      * destruct evs1 as [|e1 evs1]; [done|]. exists e1, (evs1 ++ evs2 ++ evs3).
        split; [by rewrite Heq|]. by apply Forall_inv in Hok1.
    + intros [-> _]. left. by right; left.
  - rewrite Hops, !elem_of_app, Hops1. intros [Hin|[?|?]]; [|done..].
    destruct dirty; [done|]. apply list_elem_of_singleton in Hin. done.
  - intros status' w1' o2' w2' [= <- <-] H2'. rewrite H2 in H2'. injection H2' as <- <-.
    split.
    + rewrite Hops, !elem_of_app, Hops3. split.
      * intros [?|[?|Hin]]; [done..|].
        destruct dirty; [|by apply elem_of_nil in Hin].
        destruct o2 as [[]|?|?]; [done|by apply elem_of_nil in Hin..].
      * intros [-> ->]. right; right. by left.
    + intros Hne. split; [|by apply Hfail].
      rewrite Hops, !elem_of_app, Hops3. intros [?|[?|Hin]]; [done..|].
      destruct dirty; [|by apply elem_of_nil in Hin].
      destruct o2 as [[]|?|?]; [done|by apply elem_of_nil in Hin..].
  - done.
Qed.

Lemma stash_guard_witness :
  let w := sample_world ["a.txt"] in
  let run := squashCommits no_faults ["C5"; "C4"] "squashed" false w in
  run.1 = Ok tt
  ∧ OpStashSave stash_label ∈ ops (events_since w run.2)
  ∧ OpStashPop ∈ ops (events_since w run.2).
Proof.
  intros w run.
  destruct (stash_guard no_faults ["C5"; "C4"] "squashed" w run.1 run.2 (surjective_pairing _))
    as (_ & Hsave & _ & Hpop & _).
  split_and!.
  - vm_compute. reflexivity.
  - apply Hsave. split; [reflexivity|]. vm_compute. eexists _, _. split; reflexivity.
  - apply (Hpop ["a.txt"] (stash_before no_faults w).2
             (squash_step no_faults ["C5"; "C4"] "squashed" (stash_before no_faults w).2).1
             (squash_step no_faults ["C5"; "C4"] "squashed" (stash_before no_faults w).2).2).
    + apply injective_projections; [vm_compute; reflexivity|reflexivity].
    + apply surjective_pairing.
    + split; [reflexivity|vm_compute; reflexivity].
Defined.

(* ===================================================================== *)
(** * Part 9: a root commit as the oldest selected commit                *)
(* ===================================================================== *)

Lemma wp_gateway_cases {A} faults op (sem : Repo → string + (A * Repo))
    (Q : Outcome A → World → Prop) w :
  (∀ msg, Q (Throw (GitError op msg)) (journal op false (repo w) w)) →
  (∀ a r', sem (repo w) = inr (a, r') → Q (Ok a) (journal op true r' w)) →
  wp (gateway faults op sem) Q w.
Proof.
  intros Hfail Hok. apply wp_gateway. destruct (faults _); [apply Hfail|].
  destruct (sem (repo w)) as [msg|[a r']] eqn:Hsem; auto.
Qed.

(** The name of the temporary branch of a run that starts in [w]. *)
Definition temp_branch (w : World) : string := "temp-squash-" +:+ pretty (clock w).

(** [h] is a root commit of the store: it is there, and has no parent. *)
Definition is_root (objs : list Commit) (h : Hash) : Prop :=
  ∃ c, find_commit h objs = Some c ∧ parent c = None.

Lemma resolve_root r h : is_root (objects r) h → resolve r (RevParent h) = None.
Proof. intros (c & Hc & Hp). simpl. by rewrite Hc; simpl; rewrite Hp. Qed.

Lemma sem_reset_root m r h : is_root (objects r) h → ∃ msg, sem_reset m (RevParent h) r = inl msg.
Proof. intros Hroot. unfold sem_reset. rewrite resolve_root by done. eauto. Qed.

(** No commit is created, and no reset takes effect. *)
Definition creates_nothing (e : Event) : Prop :=
  match ev_op e with
  | OpCommit _ | OpCherryPick _ => False
  | OpReset _ _ => ev_ok e = false
  | _ => True
  end.

Lemma wp_suppress (m : M unit) (Q : Outcome unit → World → Prop) w :
  wp m (λ o w', match o with
                | Throw _ => Q (Ok tt) w'
                | _ => Q o w'
                end) w →
  wp (suppress m) Q w.
Proof. intros H. apply wp_try. eapply wp_mono; [exact H|]. by intros [[]|e|c] w'. Qed.

Lemma wp_slice_of_Some s (Q : Outcome string → World → Prop) w :
  Q (Ok (slice07 s)) w → wp (slice_of (Some s)) Q w.
Proof. done. Qed.

(** [untouched w0 w1]: from [w0] to [w1] the object store has not changed,
    and no call that was issued created a commit or moved a tip. *)
Definition untouched (w0 w1 : World) : Prop :=
  objects (repo w1) = objects (repo w0) ∧ issued creates_nothing w0 w1.

Lemma untouched_refl w : untouched w w.
Proof. split; [done|apply issued_refl]. Qed.

Lemma untouched_journal w0 w1 op ok r' :
  untouched w0 w1 → objects r' = objects (repo w1) →
  creates_nothing (mkEvent op (HEAD (repo w1)) ok) →
  untouched w0 (journal op ok r' w1).
Proof. intros [Ho Hi] Hr' HP. split; [simpl; congruence|by apply issued_journal]. Qed.

Lemma untouched_quiet w0 w1 out :
  untouched w0 w1 → untouched w0 (mkWorld (repo w1) (clock w1) (trace w1) out (stderr w1)).
Proof. intros [Ho Hi]. split; [done|]. destruct w1. by eapply issued_quiet. Qed.

Ltac untouched :=
  repeat first
    [ assumption
    | apply untouched_refl
    | apply untouched_quiet
    | apply untouched_journal;
        [|first [done|congruence|simpl; congruence]|first [exact I|reflexivity]] ].

Lemma sem_checkout_new_objects b r a r' :
  sem_checkout_new b r = inr (a, r') → objects r' = objects r.
Proof. unfold sem_checkout_new. destruct (branches r !! b); by intros [= <- <-]. Qed.

Lemma sem_checkout_objects b r a r' :
  sem_checkout b r = inr (a, r') → objects r' = objects r.
Proof. unfold sem_checkout. destruct (branches r !! b); by intros [= <- <-]. Qed.

Lemma sem_branch_delete_objects b r a r' :
  sem_branch_delete b r = inr (a, r') → objects r' = objects r.
Proof.
  unfold sem_branch_delete. destruct (decide _); [done|].
  destruct (branches r !! b); by intros [= <- <-].
Qed.

Lemma sem_log_repo n r a r' : sem_log n r = inr (a, r') → r' = r.
Proof. unfold sem_log. destruct (tip r); by intros [= <- <-]. Qed.

(** With a root commit as the oldest selected one, the general path fails
    and creates nothing, whatever else fails. *)
Lemma squashNonConsecutiveCommits_root faults (commits : list Hash) message w h :
  last commits = Some h →
  is_root (objects (repo w)) h →
  wp (squashNonConsecutiveCommits faults commits message)
     (λ o w', (∃ op msg, o = Throw (GitError op msg)) ∧ untouched w w') w.
Proof.
  intros Hlast Hroot.
  set (Q := λ (o : Outcome unit) w', (∃ op msg, o = Throw (GitError op msg)) ∧ untouched w w').
  assert (∀ op msg w1, untouched w w1 → Q (Throw (GitError op msg)) w1) as HQ.
  { intros op msg w1 Hu. split; eauto. }
  unfold squashNonConsecutiveCommits.
  apply wp_bind, wp_gateway_cases; [intros; apply HQ; untouched|].
  intros currentBranch r1 [= <- <-].
  apply wp_bind, wp_Date_now, wp_bind, wp_console_log, wp_bind, wp_gateway_cases;
    [intros; apply HQ; untouched|].
  intros log r1 ->%sem_log_repo.
  do 3 apply wp_bind, wp_console_log.
  apply wp_bind, wp_gateway_cases; [intros; apply HQ; untouched|].
  intros [] r2 Hr2%sem_checkout_new_objects.
  set (w2 := journal (OpCheckoutNew _) true r2 _).
  assert (untouched w w2) as HI2 by (unfold w2; untouched).
  clearbody w2.
  apply wp_try, wp_bind, wp_console_log. rewrite Hlast.
  apply wp_bind, wp_slice_of_Some, wp_bind, wp_console_log, wp_bind, wp_gateway. simpl template.
  set (w3 := mkWorld _ _ _ _ _).
  assert (untouched w w3) as HI3 by (unfold w3; untouched).
  assert (∃ msg, sem_reset Hard (RevParent h) (repo w3) = inl msg) as [msg' ->].
  { apply sem_reset_root. destruct HI3 as [-> _]. done. }
  clearbody w3.
  (* the handler: whatever the cleanup does, an error is raised *)
  assert (∀ msg, wp
    (console_log (nl +:+ "❌ Error: Squash failed!");;
     console_log "🧹 Cleaning up...";;
     console_log ("  Switching back to " +:+ HEAD (repo w));;
     git_checkout faults (HEAD (repo w));;
     stdout_write ("  Removing temporary branch " +:+ ("temp-squash-" +:+ pretty (clock w)) +:+ "... ");;
     suppress (git_branch_D faults ("temp-squash-" +:+ pretty (clock w)));;
     console_log "✓";; throw (GitError (OpReset Hard (RevParent h)) msg)) Q
    (journal (OpReset Hard (RevParent h)) false (repo w3) w3)) as Hh.
  { intros msg. do 3 apply wp_bind, wp_console_log.
    apply wp_bind, wp_gateway_cases; [intros; apply HQ; untouched|].
    intros [] r4 Hr4%sem_checkout_objects.
    set (w4 := journal (OpCheckout _) true r4 _).
    assert (untouched w w4) as HI4 by (unfold w4; untouched).
    clearbody w4.
    apply wp_bind, wp_stdout_write, wp_bind, wp_suppress, wp_gateway_cases.
    - intros msg2. apply wp_bind, wp_console_log, wp_throw, HQ. untouched.
    - intros [] r5 Hr5%sem_branch_delete_objects.
      apply wp_bind, wp_console_log, wp_throw, HQ. untouched. }
  destruct (faults _); apply Hh.
Qed.

Lemma wp_gateway_no_fault {A} faults op (sem : Repo → string + (A * Repo))
    (Q : Outcome A → World → Prop) w :
  faults (length (trace w)) = None →
  match sem (repo w) with
  | inl msg => Q (Throw (GitError op msg)) (journal op false (repo w) w)
  | inr (a, r') => Q (Ok a) (journal op true r' w)
  end →
  wp (gateway faults op sem) Q w.
Proof. intros Hnf H. apply wp_gateway. by rewrite Hnf. Qed.

(** Without outside failures, the error is the one of the hard reset. *)
Lemma squashNonConsecutiveCommits_root_error faults (commits : list Hash) message w h :
  (∀ k, faults k = None) →
  is_Some (tip (repo w)) →
  branches (repo w) !! temp_branch w = None →
  last commits = Some h →
  is_root (objects (repo w)) h →
  wp (squashNonConsecutiveCommits faults commits message)
     (λ o _, ∃ msg, o = Throw (GitError (OpReset Hard (RevParent h)) msg)) w.
Proof.
  intros Hnf [t Ht] Htemp Hlast Hroot.
  assert (HEAD (repo w) ≠ temp_branch w) as Hne.
  { intros Heq. unfold tip in Ht. rewrite Heq in Ht. congruence. }
  unfold squashNonConsecutiveCommits.
  apply wp_bind, wp_gateway_no_fault; [apply Hnf|]. unfold sem_branch. wp_norm.
  apply wp_bind, wp_Date_now. wp_log.
  apply wp_bind, wp_gateway_no_fault; [apply Hnf|].
  wp_norm. unfold sem_log. rewrite Ht. wp_norm.
  do 3 wp_log.
  apply wp_bind, wp_gateway_no_fault; [apply Hnf|].
  wp_norm. fold (temp_branch w). unfold sem_checkout_new. rewrite Htemp, Ht.
  wp_norm.
  apply wp_try. wp_log. rewrite Hlast.
  apply wp_bind, wp_slice_of_Some. wp_log.
  apply wp_bind, wp_gateway_no_fault; [apply Hnf|].
  wp_norm. change (template (Some h)) with h.
  match goal with
  | |- context [sem_reset Hard (RevParent h) ?r] =>
      destruct (sem_reset_root Hard r h Hroot) as [msg ->]
  end.
  wp_norm. do 3 wp_log.
  apply wp_bind, wp_gateway_no_fault; [apply Hnf|].
  wp_norm. unfold sem_checkout. cbn [branches].
  rewrite lookup_insert_ne by done. unfold tip in Ht. rewrite Ht. wp_norm.
  wp_write. apply wp_bind, wp_suppress, wp_gateway_no_fault; [apply Hnf|].
  destruct (sem_branch_delete _ _) as [?|[[] ?]];
    wp_log; apply wp_throw; eauto.
Qed.

(** C10. When the oldest selected commit is a root commit, both paths fail
    with an error of the repository: the reset to [`${oldest}~1`] cannot
    resolve the parent.  The fast path issues that reset only; the general
    path never gets past it.  Neither creates a commit: the object store is
    the same afterwards and no commit or cherry-pick was issued. *)
Theorem root_commit_squash_fails faults (commits : list Hash) message w h :
  last commits = Some h →
  is_root (objects (repo w)) h →
  (∃ msg w',
     squashLatestCommits faults commits message w
       = (Throw (GitError (OpReset Soft (RevParent h)) msg), w')
     ∧ repo w' = repo w
     ∧ ∃ head, events_since w w' = [mkEvent (OpReset Soft (RevParent h)) head false])
  ∧ (∃ op msg w',
       squashNonConsecutiveCommits faults commits message w = (Throw (GitError op msg), w')
       ∧ objects (repo w') = objects (repo w)
       ∧ Forall creates_nothing (events_since w w')
       ∧ ((∀ k, faults k = None) → is_Some (tip (repo w)) →
          branches (repo w) !! temp_branch w = None →
          op = OpReset Hard (RevParent h))).
Proof.
  intros Hlast Hroot. split.
  - unfold squashLatestCommits, bind, git_reset, gateway. rewrite Hlast. simpl template.
    destruct (sem_reset_root Soft _ _ Hroot) as [msg' ->].
    destruct (faults _) as [msg|]; eexists _, _; (split; [reflexivity|]); simpl;
      (split; [done|]); unfold events_since; simpl; rewrite drop_app_length; eauto.
  - pose proof (squashNonConsecutiveCommits_root faults commits message w h Hlast Hroot) as Hwp.
    unfold wp in Hwp.
    destruct (squashNonConsecutiveCommits faults commits message w) as [o w'] eqn:Hrun.
    simpl in Hwp. destruct Hwp as ((op & msg & ->) & Hobj & Hiss). exists op, msg, w'.
    split_and!; [done|done|by apply issued_events_since in Hiss as [_ ?]|].
    intros Hnf Htip Htemp.
    pose proof (squashNonConsecutiveCommits_root_error faults commits message w h
                  Hnf Htip Htemp Hlast Hroot) as Herr.
    apply (wp_run _ _ _ _ _ Hrun) in Herr as [msg' Herr]. congruence.
Qed.

Lemma root_commit_squash_fails_witness :
  let w := sample_world [] in
  (∃ msg w',
     squashLatestCommits no_faults ["C2"; "C1"] "squashed" w
       = (Throw (GitError (OpReset Soft (RevParent "C1")) msg), w')
     ∧ repo w' = repo w
     ∧ ∃ head, events_since w w' = [mkEvent (OpReset Soft (RevParent "C1")) head false])
  ∧ (∃ op msg w',
       squashNonConsecutiveCommits no_faults ["C2"; "C1"] "squashed" w
         = (Throw (GitError op msg), w')
       ∧ objects (repo w') = objects (repo w)
       ∧ Forall creates_nothing (events_since w w')
       ∧ ((∀ k, no_faults k = None) → is_Some (tip (repo w)) →
          branches (repo w) !! temp_branch w = None →
          op = OpReset Hard (RevParent "C1"))).
Proof.
  apply (root_commit_squash_fails no_faults ["C2"; "C1"] "squashed" (sample_world []) "C1").
  - reflexivity.
  - eexists. split; reflexivity.
Defined.

(* ===================================================================== *)
(** * Part 10: failure and rollback on the general path                  *)
(* ===================================================================== *)

(** ** What the calls that move a tip leave alone *)

(** [tip_frame r r']: the checked-out branch is the same, and every other
    branch points where it did. *)
Definition tip_frame (r r' : Repo) : Prop :=
  HEAD r' = HEAD r ∧ ∀ b, b ≠ HEAD r → branches r' !! b = branches r !! b.

Lemma sem_reset_frame m rv r a r' : sem_reset m rv r = inr (a, r') → tip_frame r r'.
Proof.
  unfold sem_reset. destruct (resolve r rv); [|done].
  destruct m; intros [= <- <-]; (split; [done|]); intros b Hb; simpl;
    by rewrite lookup_insert_ne.
Qed.

Lemma sem_commit_frame now msg r a r' : sem_commit now msg r = inr (a, r') → tip_frame r r'.
Proof.
  unfold sem_commit. intros [= <- <-]. split; [done|]. intros b Hb. simpl.
  by rewrite lookup_insert_ne.
Qed.

Lemma sem_cherry_pick_frame h r a r' : sem_cherry_pick h r = inr (a, r') → tip_frame r r'.
Proof.
  unfold sem_cherry_pick. destruct (find_commit h (objects r)); [|done].
  destruct (tip r); [|done]. intros [= <- <-]. split; [done|]. intros b Hb. simpl.
  by rewrite lookup_insert_ne.
Qed.

Lemma sem_revparse_repo rv r a r' : sem_revparse rv r = inr (a, r') → r' = r.
Proof. unfold sem_revparse. destruct (resolve r rv); by intros [= <- <-]. Qed.

Lemma sem_checkout_branches b r a r' :
  sem_checkout b r = inr (a, r') → branches r' = branches r ∧ HEAD r' = b.
Proof. unfold sem_checkout. destruct (branches r !! b); by intros [= <- <-]. Qed.

Lemma sem_branch_delete_branches b r a r' :
  sem_branch_delete b r = inr (a, r') → branches r' = delete b (branches r).
Proof.
  unfold sem_branch_delete. destruct (decide _); [done|].
  destruct (branches r !! b); by intros [= <- <-].
Qed.

Lemma sem_checkout_new_inv b r a r' :
  sem_checkout_new b r = inr (a, r') →
  branches r !! b = None ∧ HEAD r' = b
  ∧ ∀ b', b' ≠ b → branches r' !! b' = branches r !! b'.
Proof.
  unfold sem_checkout_new. destruct (branches r !! b) eqn:Hb; [done|].
  intros [= <- <-]. split_and!; [done..|]. intros b' Hb'. simpl.
  destruct (tip r); [by rewrite lookup_insert_ne|done].
Qed.

(** A hard reset that took effect while [b] was checked out. *)
Definition hard_reset_on (b : string) (ev : Event) : bool :=
  match ev_op ev with
  | OpReset Hard _ => bool_decide (ev_head ev = b) && ev_ok ev
  | _ => false
  end.

(** [extends w0 tr]: the journal [tr] continues the one of [w0]. *)
Definition extends (w0 : World) (tr : list Event) : Prop :=
  ∃ evs, tr = trace w0 ++ evs.

Lemma extends_refl w0 : extends w0 (trace w0).
Proof. exists []. by rewrite app_nil_r. Qed.

Lemma extends_app w0 tr l : extends w0 tr → extends w0 (tr ++ l).
Proof. intros [evs ->]. exists (evs ++ l). by rewrite app_assoc. Qed.

Section Rollback.

Variable faults : nat → option string.
Variable w0 : World.
Variable temp : string.

(** The branch the run started on still points where it did. *)
Definition tip_kept (w : World) : Prop :=
  extends w0 (trace w)
  ∧ branches (repo w) !! HEAD (repo w0) = branches (repo w0) !! HEAD (repo w0).

(** ... and the temporary branch is the one checked out. *)
Definition on_temp (w : World) : Prop :=
  tip_kept w ∧ HEAD (repo w) = temp.

(** The original branch has been reset: a hard reset took effect while it
    was checked out. *)
Definition reset_done (w : World) : Prop :=
  ∃ evs, trace w = trace w0 ++ evs
         ∧ Exists (λ ev, hard_reset_on (HEAD (repo w0)) ev = true) evs.

Lemma tip_kept_quiet : quiet tip_kept.
Proof. by intros r c tr o e o' e'. Qed.

Lemma on_temp_quiet : quiet on_temp.
Proof. by intros r c tr o e o' e'. Qed.

Lemma reset_done_quiet : quiet reset_done.
Proof. by intros r c tr o e o' e'. Qed.

Lemma tip_kept_refl : tip_kept w0.
Proof. split; [apply extends_refl|done]. Qed.

Lemma tip_kept_journal w op ok r' :
  tip_kept w →
  branches r' !! HEAD (repo w0) = branches (repo w) !! HEAD (repo w0) →
  tip_kept (journal op ok r' w).
Proof.
  intros [Htr Hb] Hr'. split; [by apply extends_app|]. simpl. congruence.
Qed.

Lemma reset_done_journal w op ok r' : reset_done w → reset_done (journal op ok r' w).
Proof.
  intros (evs & Htr & Hex). eexists. split.
  - simpl. rewrite Htr, <-app_assoc. done.
  - apply Exists_app. by left.
Qed.

Lemma preserves_reset_done_gateway {A} op (sem : Repo → string + (A * Repo)) :
  preserves reset_done (gateway faults op sem).
Proof. apply preserves_gateway; intros; by apply reset_done_journal. Qed.

Lemma preserves_reset_done_commit msg : preserves reset_done (git_commit faults msg).
Proof. apply preserves_git_commit; intros; by apply reset_done_journal. Qed.

(** On the temporary branch, a call that moves the tip of the checked-out
    branch keeps the original branch where it is. *)
Lemma on_temp_journal w op ok r' :
  temp ≠ HEAD (repo w0) → on_temp w → tip_frame (repo w) r' → on_temp (journal op ok r' w).
Proof.
  intros Hne [Hk Hh] [Hhead Hother]. split.
  - apply tip_kept_journal; [done|]. apply Hother. congruence.
  - simpl. congruence.
Qed.

Lemma tip_frame_refl r : tip_frame r r.
Proof. by split. Qed.

Lemma preserves_on_temp_gateway {A} op (sem : Repo → string + (A * Repo)) :
  temp ≠ HEAD (repo w0) →
  (∀ r a r', sem r = inr (a, r') → tip_frame r r') →
  preserves on_temp (gateway faults op sem).
Proof.
  intros Hne Hsem. apply preserves_gateway.
  - intros w Hw. apply on_temp_journal; [done..|apply tip_frame_refl].
  - intros w a r' Hw Hr'. apply on_temp_journal; [done..|by eapply Hsem].
Qed.

Lemma preserves_on_temp_commit msg :
  temp ≠ HEAD (repo w0) → preserves on_temp (git_commit faults msg).
Proof.
  intros Hne. apply preserves_git_commit.
  - intros w Hw. apply on_temp_journal; [done..|apply tip_frame_refl].
  - intros w a r' Hw Hr'. apply on_temp_journal; [done..|by eapply sem_commit_frame].
Qed.

(** The cleanup of the handler keeps the original branch where it is. *)
Lemma preserves_tip_kept_checkout b : preserves tip_kept (git_checkout faults b).
Proof.
  apply preserves_gateway; intros w **; apply tip_kept_journal; try done.
  match goal with H : sem_checkout _ _ = _ |- _ => apply sem_checkout_branches in H as [-> _] end.
  done.
Qed.

Lemma preserves_tip_kept_branch_D :
  temp ≠ HEAD (repo w0) → preserves tip_kept (git_branch_D faults temp).
Proof.
  intros Hne. apply preserves_gateway; intros w **; apply tip_kept_journal; try done.
  match goal with H : sem_branch_delete _ _ = _ |- _ => apply sem_branch_delete_branches in H as -> end.
  by rewrite lookup_delete_ne.
Qed.

End Rollback.

Ltac reset_done_calls :=
  preserves_structure;
  first [ apply reset_done_quiet
        | apply preserves_reset_done_commit
        | apply preserves_reset_done_gateway ].

Ltac on_temp_calls Hne :=
  preserves_structure;
  first [ apply on_temp_quiet
        | apply (preserves_on_temp_commit _ _ _ _ Hne)
        | apply (preserves_on_temp_gateway _ _ _ _ _ Hne);
            first [ apply sem_reset_frame | apply sem_cherry_pick_frame
                  | (intros ? ? ? ->%sem_revparse_repo; apply tip_frame_refl) ] ].

Ltac tip_kept_calls Hne :=
  preserves_structure;
  first [ apply tip_kept_quiet
        | apply preserves_tip_kept_checkout
        | apply (preserves_tip_kept_branch_D _ _ _ Hne) ].

(** Settles [tip_kept w0 W] for a world [W] reached from one of which [H]
    says [tip_kept], by calls that left the refs alone. *)
Ltac tip_still_kept H :=
  let Htr := fresh in let Hb := fresh in
  destruct H as [Htr Hb];
  split; cbn [repo trace journal];
  [ repeat apply extends_app; exact Htr
  | first [exact Hb|congruence] ].

Lemma squashNonConsecutiveCommits_rollback faults (commits : list Hash) message w :
  wp (squashNonConsecutiveCommits faults commits message)
     (λ _ w', reset_done w w' ∨ tip_kept w w') w.
Proof.
  set (cur := HEAD (repo w)).
  set (temp := temp_branch w).
  set (Q := λ (_ : Outcome unit) w', reset_done w w' ∨ tip_kept w w').
  pose proof (tip_kept_refl w) as Hk0.
  assert (∀ o w1, tip_kept w w1 → Q o w1) as HQ by (intros; by right).
  assert (∀ o w1, reset_done w w1 → Q o w1) as HQr by (intros; by left).
  unfold squashNonConsecutiveCommits.
  apply wp_bind, wp_gateway_cases; [intros; apply HQ; tip_still_kept Hk0|].
  intros currentBranch r1 [= <- <-]. fold cur.
  apply wp_bind, wp_Date_now. wp_log.
  apply wp_bind, wp_gateway_cases; [intros; apply HQ; tip_still_kept Hk0|].
  wp_norm. intros log r1 Hlog. pose proof (sem_log_repo _ _ _ _ Hlog) as ->.
  assert (is_Some (branches (repo w) !! cur)) as Htip.
  { unfold sem_log, tip in Hlog. fold cur in Hlog.
    destruct (branches (repo w) !! cur); [eauto|done]. }
  clear Hlog. do 3 wp_log.
  fold (temp_branch w). fold temp.
  apply wp_bind, wp_gateway_cases; [intros; apply HQ; tip_still_kept Hk0|].
  wp_norm.
  intros [] r2 (Hfresh & Hhead & Hother)%sem_checkout_new_inv.
  assert (temp ≠ cur) as Hne.
  { intros Heq. rewrite Heq in Hfresh. rewrite Hfresh in Htip. by destruct Htip. }
  match goal with |- wp _ _ ?W => set (w2 := W) end.
  assert (on_temp w temp w2) as Ht2.
  { split; [|done]. split; [unfold w2; cbn [trace journal]; repeat apply extends_app; apply extends_refl|].
    unfold w2. cbn [repo journal]. by apply Hother. }
  clearbody w2. clear Hother Hhead Hfresh r2 Hk0.
  set (handler := λ error : Error,
     console_log (nl +:+ "❌ Error: Squash failed!");;
     console_log "🧹 Cleaning up...";;
     console_log ("  Switching back to " +:+ cur);;
     git_checkout faults cur;;
     stdout_write ("  Removing temporary branch " +:+ temp +:+ "... ");;
     suppress (git_branch_D faults temp);;
     console_log "✓";; throw error).
  assert (∀ e w1, tip_kept w w1 → wp (handler e) Q w1) as Hh.
  { intros e w1 Hk. apply (wp_preserves (tip_kept w)); [|done|by intros; apply HQ].
    unfold handler. tip_kept_calls Hne. }
  assert (∀ e w1, reset_done w w1 → wp (handler e) Q w1) as Hhr.
  { intros e w1 Hr. apply (wp_preserves (reset_done w)); [|done|by intros; apply HQr].
    unfold handler. reset_done_calls. }
  apply wp_try. fold handler.
  (* phase 3 runs on the temporary branch *)
  repeat (apply (wp_bind_inv (on_temp w temp));
          [ solve [on_temp_calls Hne]
          | assumption
          | intros ? ? ?
          | by intros ? ? [? _]; apply Hh
          | by intros ? ? [? _]; apply HQ ]).
  match goal with
  | H : on_temp w temp ?W |- wp _ _ ?W => destruct H as [Hk3 _]; revert Hk3; generalize W
  end.
  intros w3 Hk3.
  (* back on the original branch *)
  apply wp_bind, wp_gateway_cases; [intros; apply Hh; tip_still_kept Hk3|].
  intros [] r4 [Hbr4 Hhd4]%sem_checkout_branches.
  apply wp_bind. destruct (last commits) as [oldest|]; [|apply wp_throw, Hh; tip_still_kept Hk3].
  apply wp_slice_of_Some. wp_log.
  apply wp_bind, wp_gateway_cases; [intros; apply Hh; tip_still_kept Hk3|].
  wp_norm. intros [] r5 _.
  (* the original branch has been reset: nothing is promised from here on *)
  apply (wp_preserves (reset_done w)).
  - reset_done_calls.
  - destruct Hk3 as [[evs Htr] _]. eexists. split.
    + wp_norm. rewrite Htr, <-!app_assoc. reflexivity.
    + apply Exists_app. right. apply Exists_app. right. apply Exists_cons_hd.
      unfold hard_reset_on. cbn [ev_op ev_head ev_ok]. rewrite Hhd4.
      by rewrite bool_decide_eq_true_2.
  - intros [[]|e|c] wz Hr; [by apply HQr|by apply Hhr|by apply HQr].
Qed.

(** C2. When the general path fails and no hard reset has taken effect on
    the original branch, that branch points where it pointed before the
    run: every call that moved a tip up to then was issued with the
    temporary branch checked out, and the cleanup of the handler only
    switches branches and deletes the temporary one. *)
Theorem original_tip_kept faults (commits : list Hash) message w e w' :
  squashNonConsecutiveCommits faults commits message w = (Throw e, w') →
  Forall (λ ev, hard_reset_on (HEAD (repo w)) ev = false) (events_since w w') →
  branches (repo w') !! HEAD (repo w) = branches (repo w) !! HEAD (repo w).
Proof.
  intros Hrun Hnone.
  pose proof (squashNonConsecutiveCommits_rollback faults commits message w) as Hwp.
  apply (wp_run _ _ _ _ _ Hrun) in Hwp. cbv beta in Hwp.
  destruct Hwp as [(evs & Htr & Hex)|[_ Hkept]]; [|done].
  exfalso. unfold events_since in Hnone. rewrite Htr, drop_app_length in Hnone.
  apply Exists_exists in Hex as (ev & Hin & Hev).
  rewrite Forall_forall in Hnone. specialize (Hnone ev Hin). congruence.
Qed.

(** ** Two failing runs on the sample repository *)

(** The cherry-pick of [C4], the sixth call of the general path, runs into
    a conflict. *)
Definition conflict_plan : nat → option string := λ k,
  if decide (k = 5) then Some "CONFLICT (content): Merge conflict"
  else None.

(** ... and the conflict leaves the index unmerged, so that git refuses the
    checkout the handler asks for: the seventh call fails too. *)
Definition conflict_then_refusal_plan : nat → option string := λ k,
  if decide (k = 5) then Some "CONFLICT (content): Merge conflict"
  else if decide (k = 6) then Some "error: you need to resolve your current index first"
  else None.

Lemma original_tip_kept_witness :
  branches (repo (squashNonConsecutiveCommits conflict_plan ["C4"; "C2"] "squashed"
                    (sample_world [])).2) !! "main"
  = Some "C5".
Proof.
  set (run := squashNonConsecutiveCommits conflict_plan ["C4"; "C2"] "squashed"
                (sample_world [])).
  apply (original_tip_kept conflict_plan ["C4"; "C2"] "squashed" (sample_world [])
           (GitError (OpCherryPick "C4") "CONFLICT (content): Merge conflict") run.2).
  - transitivity (run.1, run.2); [apply surjective_pairing|].
    assert (run.1 = Throw (GitError (OpCherryPick "C4") "CONFLICT (content): Merge conflict"))
      as -> by (vm_compute; reflexivity).
    reflexivity.
  - decide_by_computation.
Defined.

(** C5 (what the code does). The handler's checkout is not guarded: when it
    fails, its error is the one that is raised, the error of the cherry-pick
    is lost, the deletion of the temporary branch is not attempted, and the
    temporary branch stays checked out. *)
Theorem cleanup_failure_masks_error :
  let run := squashNonConsecutiveCommits conflict_then_refusal_plan ["C4"; "C2"] "squashed"
               (sample_world []) in
  run.1 = Throw (GitError (OpCheckout "main")
                   "error: you need to resolve your current index first")
  ∧ run.1 ≠ Throw (GitError (OpCherryPick "C4") "CONFLICT (content): Merge conflict")
  ∧ (OpBranchDelete (temp_branch (sample_world [])) ∉ ops (trace run.2))
  ∧ HEAD (repo run.2) = temp_branch (sample_world [])
  ∧ is_Some (branches (repo run.2) !! temp_branch (sample_world [])).
Proof.
  intros run.
  assert (run.1 = Throw (GitError (OpCheckout "main")
                           "error: you need to resolve your current index first")) as Hrun
    by (vm_compute; reflexivity).
  split_and!.
  - exact Hrun.
  - rewrite Hrun. discriminate.
  - decide_by_computation.
  - vm_compute. reflexivity.
  - decide_by_computation.
Qed.

(** When the cleanup goes through, the error that is raised is the one
    that made the run fail. *)
Example cleanup_reraises_original_error :
  (squashNonConsecutiveCommits conflict_plan ["C4"; "C2"] "squashed" (sample_world [])).1
  = Throw (GitError (OpCherryPick "C4") "CONFLICT (content): Merge conflict").
Proof. vm_compute. reflexivity. Qed.

(* ===================================================================== *)
(** * Part 11: the order of the cherry-picks                              *)
(* ===================================================================== *)

(** The commits whose cherry-pick was issued while branch [b] was checked
    out, in the order of the calls. *)
Definition picks_on (b : string) (evs : list Event) : list Hash :=
  omap (λ ev, match ev_op ev with
              | OpCherryPick h => if decide (ev_head ev = b) then Some h else None
              | _ => None
              end) evs.

Definition is_pick (op : Op) : bool :=
  match op with
  | OpCherryPick _ => true
  | _ => false
  end.

Lemma picks_on_app b evs1 evs2 : picks_on b (evs1 ++ evs2) = picks_on b evs1 ++ picks_on b evs2.
Proof. apply omap_app. Qed.

Lemma picks_on_other b op hd ok : is_pick op = false → picks_on b [mkEvent op hd ok] = [].
Proof. by destruct op. Qed.

Lemma picks_on_pick b h hd ok :
  picks_on b [mkEvent (OpCherryPick h) hd ok] = if decide (hd = b) then [h] else [].
Proof. unfold picks_on. simpl. by destruct (decide (hd = b)). Qed.


Lemma checkbox_answer_sublist {V} (choices : list V) toggles :
  checkbox_answer choices toggles `sublist_of` choices.
Proof.
  unfold checkbox_answer.
  assert (∀ (f : nat → nat) (l : list V), (snd <$> imap (λ i v, (f i, v)) l) = l) as Hsnd.
  { intros f l. revert f. induction l as [|v l IH]; intros f; [done|].
    rewrite imap_cons. simpl. f_equal. apply (IH (f ∘ S)). }
  rewrite <-(Hsnd id choices) at 2.
  apply fmap_sublist, sublist_filter.
Qed.

Lemma selectCommits_sublist recent toggles commits :
  selectCommits recent toggles = Some commits →
  commits `sublist_of` (hash <$> recent) ∧ (2 ≤ length commits)%nat.
Proof.
  unfold selectCommits. destruct (decide _) as [|Hlen]; [done|].
  intros [= <-]. split; [apply checkbox_answer_sublist|lia].
Qed.



Section Picks.

Variable faults : nat → option string.
Variable w0 : World.
Variables temp cur : string.

(** [pt] and [pc] are the cherry-picks issued so far on the temporary
    branch and on the original one. *)
Definition picks_are (pt pc : list Hash) (w : World) : Prop :=
  ∃ evs, trace w = trace w0 ++ evs ∧ picks_on temp evs = pt ∧ picks_on cur evs = pc.


Lemma picks_are_quiet pt pc : quiet (picks_are pt pc).
Proof. by intros r c tr o e o' e'. Qed.


Lemma picks_are_out pt pc w out :
  picks_are pt pc w → picks_are pt pc (mkWorld (repo w) (clock w) (trace w) out (stderr w)).
Proof. done. Qed.

Lemma picks_are_journal pt pc w op ok r' :
  is_pick op = false → picks_are pt pc w → picks_are pt pc (journal op ok r' w).
Proof.
  intros Hop (evs & Htr & Hpt & Hpc). exists (evs ++ [mkEvent op (HEAD (repo w)) ok]).
  split_and!.
  - simpl. by rewrite Htr, <-app_assoc.
  - by rewrite picks_on_app, picks_on_other, app_nil_r.
  - by rewrite picks_on_app, picks_on_other, app_nil_r.
Qed.

Lemma picks_are_journal_pick pt pc w h ok r' :
  picks_are pt pc w →
  picks_are (pt ++ if decide (HEAD (repo w) = temp) then [h] else [])
            (pc ++ if decide (HEAD (repo w) = cur) then [h] else [])
            (journal (OpCherryPick h) ok r' w).
Proof.
  intros (evs & Htr & Hpt & Hpc).
  exists (evs ++ [mkEvent (OpCherryPick h) (HEAD (repo w)) ok]). split_and!.
  - simpl. by rewrite Htr, <-app_assoc.
  - by rewrite picks_on_app, picks_on_pick, Hpt.
  - by rewrite picks_on_app, picks_on_pick, Hpc.
Qed.





Lemma preserves_picks_are_gateway {A} pt pc op (sem : Repo → string + (A * Repo)) :
  is_pick op = false → preserves (picks_are pt pc) (gateway faults op sem).
Proof. intros Hop. apply preserves_gateway; intros; by apply picks_are_journal. Qed.



End Picks.

Lemma sem_reset_head m rv r a r' : sem_reset m rv r = inr (a, r') → HEAD r' = HEAD r.
Proof. by intros [? _]%sem_reset_frame. Qed.




Lemma sem_branch_delete_head b r a r' : sem_branch_delete b r = inr (a, r') → HEAD r' = HEAD r.
Proof.
  unfold sem_branch_delete. destruct (decide _); [done|].
  destruct (branches r !! b); by intros [= <- <-].
Qed.








(* ===================================================================== *)
(** * Part 12: a selection that has become stale                          *)
(* ===================================================================== *)








(* ===================================================================== *)
(** * Part 13: the history that a squash leaves                           *)
(* ===================================================================== *)

(** ** The object store along a run *)

Lemma find_commit_hash h objs c : find_commit h objs = Some c → hash c = h.
Proof.
  unfold find_commit. intros [_ H]%find_some. by apply bool_decide_eq_true in H.
Qed.

Lemma ancestry_head h objs c l : ancestry h objs = c :: l → hash c = h.
Proof.
  induction objs as [|x objs IH]; simpl; [done|].
  destruct (decide (hash x = h)); [by intros [= <- _]|done].
Qed.

Lemma ancestry_sublist h objs : ancestry h objs `sublist_of` objs.
Proof.
  revert h. induction objs as [|x objs IH]; intros h; simpl; [done|].
  destruct (decide (hash x = h)).
  - apply sublist_skip. destruct (parent x); [apply IH|apply sublist_nil_l].
  - apply sublist_cons, IH.
Qed.

Lemma ancestry_find h objs c l : ancestry h objs = c :: l → find_commit h objs = Some c.
Proof.
  unfold find_commit. induction objs as [|x objs IH]; simpl; [done|].
  destruct (decide (hash x = h)) as [Hx|Hx].
  - intros [= <- _]. by rewrite bool_decide_eq_true_2.
  - by rewrite bool_decide_eq_false_2.
Qed.

Lemma ancestry_parent h objs c p l :
  ancestry h objs = c :: p :: l → parent c = Some (hash p).
Proof.
  induction objs as [|x objs IH]; simpl; [done|].
  destruct (decide (hash x = h)); [|done].
  intros [= <- Hrest]. destruct (parent x) as [q|]; [|done].
  by apply ancestry_head in Hrest as ->.
Qed.

(** With distinct identities, every commit of a history is the start of
    the rest of that history. *)
Lemma ancestry_split h objs pre c post :
  NoDup (hash <$> objs) →
  ancestry h objs = pre ++ c :: post → ancestry (hash c) objs = c :: post.
Proof.
  revert h pre. induction objs as [|x objs IH]; intros h pre Hnd; simpl; [by destruct pre|].
  apply NoDup_cons in Hnd as [Hx Hnd].
  assert (∀ h' pre', ancestry h' objs = pre' ++ c :: post →
            (if decide (hash x = hash c) then x :: match parent x with
                                                   | Some p => ancestry p objs
                                                   | None => []
                                                   end
             else ancestry (hash c) objs) = c :: post) as Hin.
  { intros h' pre' Hrest. pose proof (IH _ _ Hnd Hrest) as Hc.
    destruct (decide (hash x = hash c)) as [Heq|]; [|done].
    exfalso. apply Hx. rewrite Heq. apply list_elem_of_fmap_2.
    eapply elem_of_sublist; [|apply (ancestry_sublist h')].
    rewrite Hrest. apply elem_of_app. right. by left. }
  destruct (decide (hash x = h)) as [Hh|Hh].
  - destruct pre as [|y pre]; simpl.
    + intros [= <- <-]. by rewrite decide_True.
    + intros [= <- Hrest]. destruct (parent x) as [p|]; [by eapply Hin|by destruct pre].
  - apply Hin.
Qed.

Lemma fresh_hash_fresh objs : fresh_hash objs ∉ hash <$> objs.
Proof. apply infinite_is_fresh. Qed.

(** [grown_from objs0 objs]: the store [objs] is [objs0] with new commits,
    whose identities are not those of [objs0]. *)
Definition grown_from (objs0 objs : list Commit) : Prop :=
  ∃ new, objs = new ++ objs0 ∧ Forall (λ n, hash n ∉ hash <$> objs0) new.

Lemma grown_from_refl objs0 : grown_from objs0 objs0.
Proof. by exists []. Qed.

Lemma grown_from_fresh objs0 objs c :
  grown_from objs0 objs → hash c = fresh_hash objs → grown_from objs0 (c :: objs).
Proof.
  intros (new & -> & Hnew) Hc. exists (c :: new). split; [done|].
  apply Forall_cons. split; [|done].
  rewrite Hc. intros Hin. apply (fresh_hash_fresh (new ++ objs0)).
  rewrite fmap_app. apply elem_of_app. by right.
Qed.

Lemma grown_from_find objs0 objs h :
  grown_from objs0 objs → h ∈ hash <$> objs0 → find_commit h objs = find_commit h objs0.
Proof.
  intros (new & -> & Hnew) Hh. unfold find_commit.
  induction Hnew as [|n new Hn _ IH]; simpl; [done|].
  rewrite bool_decide_eq_false_2; [done|]. by intros <-.
Qed.

Lemma grown_from_ancestry objs0 objs h :
  grown_from objs0 objs → h ∈ hash <$> objs0 → ancestry h objs = ancestry h objs0.
Proof.
  intros (new & -> & Hnew) Hh.
  induction Hnew as [|n new Hn _ IH]; simpl; [done|].
  rewrite decide_False; [done|]. by intros <-.
Qed.

Lemma grown_from_new objs0 objs c :
  grown_from objs0 objs → hash c = fresh_hash objs → hash c ∉ hash <$> objs0.
Proof.
  intros (new & -> & _) Hc Hin. apply (fresh_hash_fresh (new ++ objs0)).
  rewrite <-Hc, fmap_app. apply elem_of_app. by right.
Qed.

(** ** What the calls do to the history of the checked-out branch *)

Lemma history_tip r c l : history r = c :: l → tip r = Some (hash c).
Proof.
  unfold history. destruct (tip r) as [t|]; [|done].
  by intros ->%ancestry_head.
Qed.

Lemma tip_tree_history r : tip_tree r = concat (patch <$> reverse (history r)).
Proof. unfold tip_tree, history, tree_of. by destruct (tip r). Qed.

Lemma history_same r r' :
  objects r' = objects r → branches r' = branches r → HEAD r' = HEAD r →
  history r' = history r.
Proof. unfold history, tip. by intros -> -> ->. Qed.

Lemma tree_of_cons c l : concat (patch <$> reverse (c :: l)) = concat (patch <$> reverse l) ++ patch c.
Proof. by rewrite reverse_cons, fmap_app, concat_app; simpl; rewrite app_nil_r. Qed.

Lemma sem_cherry_pick_spec h r a r' :
  sem_cherry_pick h r = inr (a, r') →
  ∃ src c, find_commit h (objects r) = Some src
    ∧ hash c = fresh_hash (objects r)
    ∧ date c = date src ∧ message c = message src ∧ patch c = patch src
    ∧ objects r' = c :: objects r
    ∧ history r' = c :: history r
    ∧ index r' = tip_tree r ++ patch src
    ∧ tip_frame r r'.
Proof.
  intros Hsem. pose proof (sem_cherry_pick_frame _ _ _ _ Hsem) as Hframe.
  revert Hsem. unfold sem_cherry_pick, history, tip_tree.
  destruct (find_commit h (objects r)) as [src|]; [|done].
  destruct (tip r) as [t|] eqn:Ht; [|done]. intros [= <- <-].
  eexists src, (mkCommit _ _ _ _ _). split_and!; try done.
  unfold tip. cbn [branches HEAD objects]. rewrite lookup_insert_eq.
  cbn [ancestry hash parent]. by rewrite decide_True.
Qed.

Lemma sem_commit_spec now msg r a r' :
  sem_commit now msg r = inr (a, r') →
  ∃ c, hash c = fresh_hash (objects r)
    ∧ message c = msg ∧ patch c = drop (length (tip_tree r)) (index r)
    ∧ objects r' = c :: objects r
    ∧ history r' = c :: history r
    ∧ index r' = index r
    ∧ tip_frame r r'.
Proof.
  intros Hsem. pose proof (sem_commit_frame _ _ _ _ _ Hsem) as Hframe.
  revert Hsem. unfold sem_commit. intros [= <- <-].
  eexists (mkCommit _ _ _ _ _). split_and!; try done.
  unfold history, tip. cbn [branches HEAD objects]. rewrite lookup_insert_eq.
  cbn [ancestry hash parent]. rewrite decide_True by done.
  by destruct (branches r !! HEAD r).
Qed.

Lemma sem_reset_parent_spec m h r a r' :
  sem_reset m (RevParent h) r = inr (a, r') →
  ∃ c p, find_commit h (objects r) = Some c ∧ parent c = Some p
    ∧ objects r' = objects r
    ∧ history r' = ancestry p (objects r)
    ∧ index r' = match m with Soft => index r | Hard => tree_of p (objects r) end
    ∧ tip_frame r r'.
Proof.
  intros Hsem. pose proof (sem_reset_frame _ _ _ _ _ Hsem) as Hframe.
  revert Hsem. unfold sem_reset, resolve.
  destruct (find_commit h (objects r)) as [c|]; [|done]. simpl.
  destruct (parent c) as [p|] eqn:Hp; [|done]. simpl.
  destruct (find_commit p (objects r)) as [q|] eqn:Hq; [|done]. simpl.
  apply find_commit_hash in Hq as <-.
  destruct m; intros [= <- <-]; exists c, (hash q); (split_and!; try done).
  all: unfold history, tip, set_tip; cbn [branches HEAD objects]; by rewrite lookup_insert_eq.
Qed.

Lemma sem_checkout_new_spec b r a r' :
  sem_checkout_new b r = inr (a, r') →
  branches r !! b = None
  ∧ objects r' = objects r ∧ HEAD r' = b ∧ history r' = history r ∧ index r' = index r
  ∧ ∀ b', b' ≠ b → branches r' !! b' = branches r !! b'.
Proof.
  intros Hsem. pose proof (sem_checkout_new_inv _ _ _ _ Hsem) as (Hb & _ & Hothers).
  revert Hsem. unfold sem_checkout_new. rewrite Hb. intros [= <- <-].
  split_and!; try done.
  unfold history, tip. cbn [branches HEAD objects].
  destruct (branches r !! HEAD r) as [t|]; [by rewrite lookup_insert_eq|by rewrite Hb].
Qed.

Lemma sem_checkout_spec b r a r' :
  sem_checkout b r = inr (a, r') →
  ∃ t, branches r !! b = Some t
    ∧ objects r' = objects r ∧ branches r' = branches r ∧ HEAD r' = b
    ∧ history r' = ancestry t (objects r).
Proof.
  unfold sem_checkout. destruct (branches r !! b) as [t|] eqn:Hb; [|done].
  intros [= <- <-]. exists t. split_and!; try done.
  unfold history, tip. cbn [branches HEAD objects]. by rewrite Hb.
Qed.

Lemma sem_branch_delete_spec b r a r' :
  sem_branch_delete b r = inr (a, r') →
  objects r' = objects r ∧ HEAD r' = HEAD r ∧ history r' = history r.
Proof.
  unfold sem_branch_delete. destruct (decide _) as [|Hne]; [done|].
  destruct (branches r !! b); [|done]. intros [= <- <-]. split_and!; try done.
  unfold history, tip. cbn [branches HEAD objects]. by rewrite lookup_delete_ne.
Qed.

Lemma sem_stash_pop_spec r a r' :
  sem_stash_pop r = inr (a, r') →
  objects r' = objects r ∧ HEAD r' = HEAD r ∧ history r' = history r.
Proof.
  unfold sem_stash_pop. destruct (stash r) as [|[? saved] rest]; [done|].
  by intros [= <- <-].
Qed.

Lemma wp_git_commit faults msg (Q : Outcome unit → World → Prop) w :
  (∀ m, Q (Throw (GitError (OpCommit msg) m)) (journal (OpCommit msg) false (repo w) w)) →
  (∀ u r', sem_commit (clock w) msg (repo w) = inr (u, r') →
           Q (Ok u) (journal (OpCommit msg) true r' w)) →
  wp (git_commit faults msg) Q w.
Proof. apply (wp_gateway_cases faults (OpCommit msg) (sem_commit (clock w) msg)). Qed.

Lemma sem_revparse_head_spec r nc r' :
  sem_revparse RevHEAD r = inr (nc, r') → r' = r ∧ tip r = Some nc.
Proof. unfold sem_revparse. simpl. destruct (tip r); by intros [= <- <-]. Qed.

Lemma last_selected (sel sel' : list Commit) oldest :
  sel = sel' ++ [oldest] → last (hash <$> sel) = Some (hash oldest).
Proof. intros ->. rewrite fmap_app. simpl. apply last_snoc. Qed.

Lemma find_commit_newest c objs : find_commit (hash c) (c :: objs) = Some c.
Proof. unfold find_commit. simpl. by rewrite bool_decide_eq_true_2. Qed.

(** The part of a list that a loop has gone through. *)
Lemma take_done {X Y} (f : X → Y) (l dc rc : list X) (xc : X) :
  l = dc ++ xc :: rc →
  take (length (f <$> dc)) l = dc
  ∧ take (length ((f <$> dc) ++ [f xc])) l = dc ++ [xc].
Proof.
  intros ->. split.
  - apply take_app_length'. by rewrite length_fmap.
  - change (dc ++ xc :: rc) with (dc ++ [xc] ++ rc). rewrite (app_assoc dc [xc] rc).
    apply take_app_length'. by rewrite !length_app, length_fmap.
Qed.

Lemma fmap_split {X Y} (f : X → Y) (l : list X) (done : list Y) (x : Y) (rest : list Y) :
  f <$> l = done ++ x :: rest →
  ∃ dc xc rc, l = dc ++ xc :: rc ∧ done = f <$> dc ∧ x = f xc.
Proof.
  intros (dc & rc0 & -> & Hrc & ->)%fmap_app_inv.
  symmetry in Hrc. apply fmap_cons_inv in Hrc as (xc & rc & -> & _ & ->). by eexists _, _, _.
Qed.

(** A contiguous selection that the classifier finds latest and
    consecutive has no commit above it. *)
Lemma top_selection (later sel rest : list Commit) :
  NoDup (hash <$> later ++ sel ++ rest) →
  sel ≠ [] →
  isLatestAndConsecutive (take (length (hash <$> sel)) (hash <$> later ++ sel ++ rest))
                         (hash <$> sel) = true →
  later = [].
Proof.
  intros Hnd Hsel Hc. destruct later as [|u l]; [done|]. exfalso.
  apply isLatestAndConsecutive_Permutation in Hc.
  rewrite take_take, Nat.min_id in Hc.
  simpl in Hnd. apply NoDup_cons in Hnd as [Hu _]. apply Hu.
  rewrite fmap_app. apply elem_of_app. right.
  rewrite fmap_app. apply elem_of_app. left.
  rewrite Hc. destruct sel; [done|]. simpl. by left.
Qed.

(** ** A contiguous selection

    The history of the checked-out branch is [later ++ sel ++ a :: anc]:
    the selected commits [sel], the commits [later] above them, and below
    them the commit [a] and its ancestors. *)

(** A replayed commit keeps the date, the message and the changeset. *)
Definition same_content (c' c : Commit) : Prop :=
  date c' = date c ∧ message c' = message c ∧ patch c' = patch c.

Definition later_entry (c : Commit) : Hash * string := (hash c, subject c).

Lemma laterCommitsOf_later (later rest : list Commit) s :
  hash s ∉ hash <$> later →
  laterCommitsOf (Some (hash s)) (later ++ s :: rest) = later_entry <$> later.
Proof.
  induction later as [|c l IH]; simpl; intros Hs.
  - by rewrite decide_True.
  - apply not_elem_of_cons in Hs as [Hc Hs]. rewrite decide_False by congruence.
    unfold later_entry at 1. f_equal. by apply IH.
Qed.

Section Squash.

Variable faults : nat → option string.
Variable objs0 : list Commit.
Variable t0 : Hash.
Variables later sel : list Commit.
Variable a : Commit.
Variable anc : list Commit.
Variable msg : string.

Hypothesis Hnd : NoDup (hash <$> objs0).
Hypothesis Hchain : ancestry t0 objs0 = later ++ sel ++ a :: anc.

(** The squashed history: the commits of [later] replayed in order, one new
    commit with the changesets of [sel], oldest first, and then [a] and its
    ancestors as they were. *)
Definition squashed (r : Repo) : Prop :=
  ∃ later' cnew,
    history r = later' ++ cnew :: a :: anc
    ∧ Forall2 same_content later' later
    ∧ Forall (λ c, hash c ∉ hash <$> objs0) (cnew :: later')
    ∧ message cnew = msg
    ∧ patch cnew = concat (patch <$> reverse sel).

Lemma chain_start pre c post :
  later ++ sel ++ a :: anc = pre ++ c :: post →
  ancestry (hash c) objs0 = c :: post.
Proof. intros Heq. eapply ancestry_split; [done|]. by rewrite Hchain, Heq. Qed.

Lemma chain_known c :
  c ∈ later ++ sel ++ [a] →
  hash c ∈ hash <$> objs0 ∧ find_commit (hash c) objs0 = Some c.
Proof.
  intros Hin.
  assert (c ∈ later ++ sel ++ a :: anc) as (pre & post & Heq)%list_elem_of_split.
  { rewrite !elem_of_app in Hin. rewrite !elem_of_app, elem_of_cons.
    rewrite list_elem_of_singleton in Hin. tauto. }
  pose proof (chain_start _ _ _ Heq) as Hc. split.
  - apply list_elem_of_fmap_2. eapply elem_of_sublist; [|apply (ancestry_sublist (hash c))].
    rewrite Hc. by left.
  - by eapply ancestry_find.
Qed.

Lemma chain_anc : ancestry (hash a) objs0 = a :: anc.
Proof. apply (chain_start (later ++ sel)). by rewrite <-app_assoc. Qed.

Lemma chain_oldest sel' oldest : sel = sel' ++ [oldest] → parent oldest = Some (hash a).
Proof.
  intros Hsel. eapply ancestry_parent, (chain_start (later ++ sel')).
  by rewrite Hsel, <-!app_assoc.
Qed.

Lemma chain_NoDup : NoDup (hash <$> later ++ sel ++ a :: anc).
Proof.
  rewrite <-Hchain. eapply sublist_NoDup; [exact Hnd|].
  apply fmap_sublist, ancestry_sublist.
Qed.

Lemma chain_later s sel1 :
  sel = s :: sel1 →
  laterCommitsOf (Some (hash s)) (later ++ sel ++ a :: anc) = later_entry <$> later.
Proof.
  intros Hsel. pose proof chain_NoDup as Hd. rewrite Hsel in Hd |- *.
  simpl. apply laterCommitsOf_later.
  rewrite fmap_app in Hd. apply NoDup_app in Hd as (_ & Hd & _).
  intros Hin. apply (Hd _ Hin). by left.
Qed.

(** What is known of the chain in a store that has grown. *)
Lemma grown_find_chain objs c :
  grown_from objs0 objs → c ∈ later ++ sel ++ [a] → find_commit (hash c) objs = Some c.
Proof.
  intros Hg [Hin Hfind]%chain_known. by rewrite (grown_from_find _ _ _ Hg Hin).
Qed.

Lemma grown_anc objs : grown_from objs0 objs → ancestry (hash a) objs = a :: anc.
Proof.
  intros Hg. rewrite (grown_from_ancestry _ _ _ Hg); [apply chain_anc|].
  apply chain_known. rewrite !elem_of_app, list_elem_of_singleton. tauto.
Qed.

Lemma grown_chain objs :
  grown_from objs0 objs → ancestry t0 objs = later ++ sel ++ a :: anc.
Proof.
  intros Hg. rewrite (grown_from_ancestry _ _ _ Hg); [done|].
  assert (∃ c l, ancestry t0 objs0 = c :: l) as (c & l & Heq).
  { rewrite Hchain. destruct later; [destruct sel|]; simpl; eauto. }
  pose proof (ancestry_head _ _ _ _ Heq) as <-.
  apply list_elem_of_fmap_2. eapply elem_of_sublist; [|apply (ancestry_sublist (hash c))].
  rewrite Heq. by left.
Qed.

(** Resetting to the parent of the oldest selected commit. *)
Lemma reset_to_anchor m sel' oldest r u r' :
  sel = sel' ++ [oldest] →
  grown_from objs0 (objects r) →
  sem_reset m (RevParent (hash oldest)) r = inr (u, r') →
  objects r' = objects r
  ∧ history r' = a :: anc
  ∧ index r' = match m with
               | Soft => index r
               | Hard => concat (patch <$> reverse (a :: anc))
               end
  ∧ tip_frame r r'.
Proof.
  intros Hsel Hg (c & p & Hc & Hp & Hobj & Hhist & Hidx & Hframe)%sem_reset_parent_spec.
  rewrite (grown_find_chain _ oldest Hg) in Hc.
  - injection Hc as <-. rewrite (chain_oldest _ _ Hsel) in Hp. injection Hp as <-.
    rewrite (grown_anc _ Hg) in Hhist. split_and!; [done..| |done].
    rewrite Hidx. destruct m; [done|]. unfold tree_of. by rewrite (grown_anc _ Hg).
  - rewrite Hsel, !elem_of_app, !list_elem_of_singleton. tauto.
Qed.

(** The fast path, for a selection that is at the top of the history. *)
Lemma squashLatestCommits_result w :
  later = [] → sel ≠ [] →
  objects (repo w) = objs0 → tip (repo w) = Some t0 →
  index (repo w) = tip_tree (repo w) →
  wp (squashLatestCommits faults (hash <$> sel) msg)
     (λ o w', o = Ok tt → squashed (repo w') ∧ HEAD (repo w') = HEAD (repo w)) w.
Proof.
  intros Hlater Hsel Hobjs Htip Hidx.
  assert (∃ sel' oldest, sel = sel' ++ [oldest]) as (sel' & oldest & Hlast).
  { destruct sel as [|x l _] using rev_ind; [done|eauto]. }
  assert (grown_from objs0 (objects (repo w))) as Hg by (rewrite Hobjs; apply grown_from_refl).
  assert (history (repo w) = sel ++ a :: anc) as Hhist.
  { unfold history. by rewrite Htip, Hobjs, Hchain, Hlater. }
  unfold squashLatestCommits. rewrite (last_selected _ _ _ Hlast). simpl template.
  apply wp_bind, wp_gateway_cases; [done|].
  wp_norm. intros [] r1 (Hobj1 & Hhist1 & Hidx1 & [Hhd1 _])%(reset_to_anchor _ _ _ _ _ _ Hlast Hg).
  apply wp_git_commit; [done|].
  wp_norm. intros [] r2 (c & Hc & Hmsg & Hpatch & Hobj2 & Hhist2 & _ & [Hhd2 _])%sem_commit_spec _.
  split; [|congruence].
  exists [], c. split_and!.
  - by rewrite Hhist2, Hhist1.
  - rewrite Hlater. constructor.
  - repeat constructor. eapply grown_from_new; [|exact Hc]. by rewrite Hobj1.
  - done.
  - rewrite Hpatch, Hidx1, Hidx, !tip_tree_history, Hhist1, Hhist.
    rewrite reverse_app, fmap_app, concat_app. by rewrite drop_app_length.
Qed.

(** The general path. *)
Lemma squashNonConsecutiveCommits_result w :
  sel ≠ [] →
  objects (repo w) = objs0 → tip (repo w) = Some t0 →
  wp (squashNonConsecutiveCommits faults (hash <$> sel) msg)
     (λ o w', o = Ok tt → squashed (repo w') ∧ HEAD (repo w') = HEAD (repo w)) w.
Proof.
  intros Hsel Hobjs Htip.
  assert (∃ sel' oldest, sel = sel' ++ [oldest]) as (sel' & oldest & Hlast).
  { destruct sel as [|x l _] using rev_ind; [done|eauto]. }
  assert (∃ s sel1, sel = s :: sel1) as (s & sel1 & Hfirst).
  { destruct sel; [done|eauto]. }
  set (cur := HEAD (repo w)).
  set (Q := λ (o : Outcome unit) w', o = Ok tt → squashed (repo w') ∧ HEAD (repo w') = cur).
  set (TA := concat (patch <$> reverse (a :: anc))).
  set (new := λ c : Commit, hash c ∉ hash <$> objs0).
  assert (∀ e w1, Q (Throw e) w1) as Hfail by (by intros e w1 [=]).
  unfold squashNonConsecutiveCommits.
  rewrite (last_selected _ _ _ Hlast). simpl template.
  replace (head (hash <$> sel)) with (Some (hash s)) by (by rewrite Hfirst).
  apply wp_bind, wp_gateway_cases; [intros; apply Hfail|].
  intros currentBranch r1 [= <- <-]. fold cur.
  apply wp_bind, wp_Date_now. wp_log.
  apply wp_bind, wp_gateway_cases; [intros; apply Hfail|].
  wp_norm. intros log r1 Hlog. pose proof (sem_log_repo _ _ _ _ Hlog) as ->.
  assert (log = later ++ sel ++ a :: anc) as ->.
  { revert Hlog. unfold sem_log. rewrite Htip, Hobjs, Hchain. by intros [= <-]. }
  clear Hlog. rewrite (chain_later _ _ Hfirst).
  do 3 wp_log.
  match goal with |- context [git_checkout_b faults ?b] => set (temp := b) end.
  apply wp_bind, wp_gateway_cases; [intros; apply Hfail|].
  wp_norm. intros [] r2 (_ & Hobj2 & _)%sem_checkout_new_spec.
  assert (grown_from objs0 (objects r2)) as Hg2
    by (rewrite Hobj2, Hobjs; apply grown_from_refl).
  clear Hobj2.
  set (handler := λ error : Error,
     console_log (nl +:+ "❌ Error: Squash failed!");;
     console_log "🧹 Cleaning up...";;
     console_log ("  Switching back to " +:+ cur);;
     git_checkout faults cur;;
     stdout_write ("  Removing temporary branch " +:+ temp +:+ "... ");;
     suppress (git_branch_D faults temp);;
     console_log "✓";; throw error).
  (* the handler ends with an error *)
  assert (∀ e w1, wp (handler e) Q w1) as Hh.
  { intros e w1. unfold handler. do 3 wp_log.
    apply wp_bind, wp_gateway_cases; [intros; apply Hfail|].
    wp_norm. intros [] r3 _. wp_write.
    apply wp_bind, wp_suppress, wp_gateway_cases.
    - intros m. wp_log. apply wp_throw, Hfail.
    - wp_norm. intros [] r4 _. wp_log. apply wp_throw, Hfail. }
  apply wp_try. fold handler.
  wp_log. apply wp_bind, wp_slice_of_Some. wp_log.
  (* the temporary branch is put on the parent of the oldest selected commit *)
  apply wp_bind, wp_gateway_cases; [intros; apply Hh|].
  wp_norm.
  intros [] r3 (Hobj3 & Hhist3 & Hidx3 & _)%(reset_to_anchor _ _ _ _ _ _ Hlast Hg2).
  wp_log.
  (* the selected commits are applied, oldest first *)
  apply wp_bind, (wp_for_of (λ done w1,
    grown_from objs0 (objects (repo w1))
    ∧ tip_tree (repo w1) = TA ++ concat (patch <$> take (length done) (reverse sel))
    ∧ index (repo w1) = tip_tree (repo w1))).
  { wp_norm. split_and!.
    - by rewrite Hobj3.
    - rewrite tip_tree_history, Hhist3. simpl. by rewrite app_nil_r.
    - by rewrite tip_tree_history, Hhist3. }
  { intros done x rest w1 Hsplit (Hg & Htree & Hidx). wp_write.
    rewrite <-fmap_reverse in Hsplit.
    apply fmap_split in Hsplit as (dc & xc & rc & Hrev & -> & ->).
    destruct (take_done hash _ _ _ _ Hrev) as [Hdc Hdc'].
    apply wp_bind, wp_gateway_cases; [intros; apply Hh|].
    wp_norm.
    intros [] r' (src & c & Hsrc & Hc & _ & _ & Hpatch & Hobj & Hhist & Hidx' & _)%sem_cherry_pick_spec.
    apply wp_console_log. wp_norm.
    rewrite (grown_find_chain _ xc Hg) in Hsrc.
    2:{ rewrite !elem_of_app. right. left. apply elem_of_reverse. rewrite Hrev.
        apply elem_of_app. right. by left. }
    injection Hsrc as <-.
    assert (tip_tree r' = tip_tree (repo w1) ++ patch xc) as Htree'.
    { by rewrite !tip_tree_history, Hhist, tree_of_cons, Hpatch. }
    split_and!.
    - rewrite Hobj. by apply grown_from_fresh.
    - rewrite Htree', Htree, Hdc, Hdc', fmap_app, concat_app, <-app_assoc. simpl.
      by rewrite app_nil_r.
    - by rewrite Hidx', Htree'. }
  intros w4 (Hg4 & Htree4 & Hidx4).
  rewrite take_ge in Htree4 by (by rewrite !length_reverse, length_fmap).
  wp_log. apply wp_bind, wp_slice_of_Some. wp_log.
  (* the squashed commit is created on the temporary branch *)
  apply wp_bind, wp_gateway_cases; [intros; apply Hh|].
  wp_norm.
  intros [] r5 (Hobj5 & Hhist5 & Hidx5 & _)%(reset_to_anchor _ _ _ _ _ _ Hlast Hg4).
  wp_write.
  apply wp_bind, wp_git_commit; [intros; apply Hh|].
  wp_norm.
  intros [] r6 (c1 & Hc1 & Hmsg1 & Hpatch1 & Hobj6 & Hhist6 & _)%sem_commit_spec.
  assert (patch c1 = concat (patch <$> reverse sel)) as HP1.
  { rewrite Hpatch1, Hidx5, Hidx4, Htree4, tip_tree_history, Hhist5.
    fold TA. by rewrite drop_app_length. }
  assert (grown_from objs0 (objects r6)) as Hg6.
  { rewrite Hobj6. apply grown_from_fresh; [by rewrite Hobj5|done]. }
  assert (find_commit (hash c1) (objects r6) = Some c1) as Hfind1.
  { rewrite Hobj6. apply find_commit_newest. }
  apply history_tip in Hhist6.
  clear Hobj5 Hhist5 Hidx5 Hpatch1 Hc1 Hobj6 Hg4 Htree4 Hidx4.
  wp_log.
  apply wp_bind, wp_gateway_cases; [intros; apply Hh|].
  wp_norm. intros nc r7 [-> Htip7]%sem_revparse_head_spec.
  assert (nc = hash c1) as -> by congruence.
  do 3 wp_log.
  (* back on the original branch *)
  apply wp_bind, wp_gateway_cases; [intros; apply Hh|].
  wp_norm. intros [] r8 (t & _ & Hobj8 & _ & Hhd8 & _)%sem_checkout_spec.
  rewrite <-Hobj8 in Hg6, Hfind1. clear Hobj8 Htip7 Hhist6.
  apply wp_bind, wp_slice_of_Some. wp_log.
  apply wp_bind, wp_gateway_cases; [intros; apply Hh|].
  wp_norm.
  intros [] r9 (Hobj9 & Hhist9 & _ & [Hhd9 _])%(reset_to_anchor _ _ _ _ _ _ Hlast Hg6).
  rewrite <-Hobj9 in Hg6, Hfind1. rewrite Hhd8 in Hhd9. clear Hobj9 Hhd8.
  wp_write.
  apply wp_bind, wp_gateway_cases; [intros; apply Hh|].
  wp_norm.
  intros [] r10 (src & c2 & Hsrc & Hc2 & _ & Hmsg2 & Hpatch2 & Hobj10 & Hhist10 & _ & [Hhd10 _])%sem_cherry_pick_spec.
  rewrite Hfind1 in Hsrc. injection Hsrc as <-.
  assert (new c2) as Hnew2 by (by eapply grown_from_new).
  assert (grown_from objs0 (objects r10)) as Hg10.
  { rewrite Hobj10. by apply grown_from_fresh. }
  rewrite Hhist9 in Hhist10. rewrite Hhd9 in Hhd10. rewrite Hmsg1 in Hmsg2. rewrite HP1 in Hpatch2.
  clear Hfind1 Hg6 Hhist9 Hhd9 Hobj10 Hc2 Hmsg1 HP1.
  wp_log.
  (* the end of the run, once the later commits are back *)
  assert (∀ w9,
            HEAD (repo w9) = cur →
            (∃ l', history (repo w9) = l' ++ c2 :: a :: anc
                   ∧ Forall2 same_content l' later ∧ Forall new l') →
            wp (console_log (nl +:+ "🧹 Phase 5: Cleanup");;
                stdout_write ("  Removing temporary branch " +:+ temp +:+ "... ");;
                git_branch_D faults temp;; console_log "✓")
               (λ o w', match o with
                        | Throw e => wp (handler e) Q w'
                        | _ => Q o w'
                        end) w9) as Hend.
  { intros w9 Hhd (l' & Hhist & Hsame & Hnew). wp_log. wp_write.
    apply wp_bind, wp_gateway_cases; [intros; apply Hh|].
    wp_norm. intros [] r11 (_ & Hhd11 & Hhist11)%sem_branch_delete_spec.
    cbn [repo] in Hhd11, Hhist11.
    apply wp_console_log. intros _. wp_norm. split; [|congruence].
    exists l', c2. rewrite Hhist11. split_and!; [done..|by constructor|done|done]. }
  apply wp_bind, wp_when.
  destruct (bool_decide (0 < length (later_entry <$> later))) eqn:Hlen.
  - wp_log.
    apply (wp_for_of (λ done w1,
      grown_from objs0 (objects (repo w1)) ∧ HEAD (repo w1) = cur
      ∧ ∃ l', history (repo w1) = l' ++ c2 :: a :: anc
              ∧ Forall2 same_content l' (reverse (take (length done) (reverse later)))
              ∧ Forall new l')).
    + wp_norm. split_and!; [done..|]. exists []. split_and!; [done|constructor|constructor].
    + intros done x rest w1 Hsplit (Hg & Hhd & l' & Hhist & Hsame & Hnew). wp_write.
      rewrite <-fmap_reverse in Hsplit.
      apply fmap_split in Hsplit as (dc & xc & rc & Hrev & -> & ->).
      destruct (take_done later_entry _ _ _ _ Hrev) as [Hdc Hdc'].
      apply wp_bind, wp_gateway_cases; [intros; apply Hh|].
      wp_norm.
      intros [] r' (src & c & Hsrc & Hc & Hdate & Hmsg & Hpatch & Hobj & Hhist' & _ & [Hhd' _])%sem_cherry_pick_spec.
      apply wp_console_log. wp_norm.
      simpl in Hsrc. rewrite (grown_find_chain _ xc Hg) in Hsrc.
      2:{ rewrite !elem_of_app. left. apply elem_of_reverse. rewrite Hrev.
          apply elem_of_app. right. by left. }
      injection Hsrc as <-.
      split_and!.
      * rewrite Hobj. by apply grown_from_fresh.
      * congruence.
      * exists (c :: l'). rewrite Hhist', Hhist, Hdc', reverse_app. simpl.
        rewrite Hdc in Hsame. split_and!; [done| |].
        -- by constructor.
        -- constructor; [by eapply grown_from_new|done].
    + intros w9 (_ & Hhd & l' & Hhist & Hsame & Hnew). apply Hend; [done|].
      exists l'. split_and!; [done| |done].
      rewrite take_ge, reverse_involutive in Hsame; [done|].
      by rewrite !length_reverse, length_fmap.
  - wp_norm. apply Hend; [done|]. exists [].
    assert (later = []) as Hnil.
    { apply bool_decide_eq_false in Hlen. rewrite length_fmap in Hlen.
      destruct later; [done|simpl in Hlen; lia]. }
    rewrite Hnil. split_and!; [done|constructor|constructor].
Qed.

(** The orchestrator, on either path. *)
Lemma squashCommits_result w :
  sel ≠ [] →
  objects (repo w) = objs0 → tip (repo w) = Some t0 →
  (files (repo w) = [] → index (repo w) = tip_tree (repo w)) →
  wp (squashCommits faults (hash <$> sel) msg false)
     (λ o w', o = Ok tt → squashed (repo w') ∧ HEAD (repo w') = HEAD (repo w)) w.
Proof.
  intros Hsel Hobjs Htip Hclean.
  set (cur := HEAD (repo w)).
  set (Q := λ (o : Outcome unit) w', o = Ok tt → squashed (repo w') ∧ HEAD (repo w') = cur).
  set (handler := (λ error : Error,
     console_error ("Error during squash: " +:+ error_message error);;
     process_exit 1) : Error → M unit).
  assert (∀ e w1, wp (handler e) Q w1) as Hh.
  { intros e w1. unfold handler. apply wp_bind, wp_console_error. by intros [=]. }
  unfold squashCommits. apply wp_try. fold handler.
  apply wp_bind, wp_gateway_cases; [intros; apply Hh|].
  intros status r0 [= <- <-]. wp_norm. cbv iota.
  set (dirty := bool_decide (0 < length (files (repo w)))).
  (* after the path *)
  assert (∀ w2, squashed (repo w2) → HEAD (repo w2) = cur →
            wp (when dirty (git_stash_pop faults);;
                console_log (nl +:+ "✨ Successfully squashed commits!"))
               (λ o w', match o with
                        | Throw e => wp (handler e) Q w'
                        | _ => Q o w'
                        end) w2) as Hpost.
  { intros w2 Hsq Hhd. apply wp_bind, wp_when. destruct dirty.
    - apply wp_gateway_cases; [intros; apply Hh|].
      wp_norm. intros [] r3 (_ & Hhd3 & Hhist3)%sem_stash_pop_spec.
      apply wp_console_log. intros _. wp_norm. split; [|congruence].
      destruct Hsq as (l' & c & Hhist & Hrest). exists l', c. by rewrite Hhist3.
    - apply wp_console_log. by intros _. }
  (* once the uncommitted changes are out of the way *)
  assert (∀ w1, objects (repo w1) = objs0 → tip (repo w1) = Some t0 →
            HEAD (repo w1) = cur → index (repo w1) = tip_tree (repo w1) →
            wp (useSimpleApproach <- areCommitsLatestAndConsecutive faults (hash <$> sel);;
                (if useSimpleApproach
                 then squashLatestCommits faults (hash <$> sel) msg
                 else
                   console_log (nl +:+ "🔄 Using advanced squash approach (non-consecutive or non-latest commits)...");;
                   squashNonConsecutiveCommits faults (hash <$> sel) msg);;
                when dirty (git_stash_pop faults);;
                console_log (nl +:+ "✨ Successfully squashed commits!"))
               (λ o w', match o with
                        | Throw e => wp (handler e) Q w'
                        | _ => Q o w'
                        end) w1) as Hrest.
  { intros w1 Hobj1 Htip1 Hhd1 Hidx1.
    apply wp_bind. unfold areCommitsLatestAndConsecutive.
    apply wp_bind, wp_gateway_cases; [intros; apply Hh|].
    wp_norm. intros log r Hlog. pose proof (sem_log_repo _ _ _ _ Hlog) as ->.
    assert (log = take (length (hash <$> sel)) (later ++ sel ++ a :: anc)) as ->.
    { revert Hlog. unfold sem_log. rewrite Htip1, Hobj1, Hchain. by intros [= <-]. }
    clear Hlog. apply wp_ret. rewrite fmap_take.
    destruct (isLatestAndConsecutive _ _) eqn:Hb.
    - apply top_selection in Hb; [|apply chain_NoDup|done].
      apply wp_bind. eapply wp_mono; [by apply squashLatestCommits_result|].
      wp_norm. intros [[]|e|c] w2 H2; [|apply Hh|by intros [=]].
      destruct (H2 eq_refl) as [Hsq Hhd2]. apply Hpost; [done|congruence].
    - apply wp_bind. wp_log.
      eapply wp_mono; [by apply squashNonConsecutiveCommits_result|].
      wp_norm. intros [[]|e|c] w2 H2; [|apply Hh|by intros [=]].
      destruct (H2 eq_refl) as [Hsq Hhd2]. apply Hpost; [done|congruence]. }
  apply wp_bind, wp_when. fold dirty. destruct dirty eqn:Hdirty.
  - wp_log. apply wp_gateway_cases; [intros; apply Hh|].
    wp_norm. intros [] r1 [= <-]. by apply Hrest.
  - apply Hrest; try done. apply Hclean.
    apply bool_decide_eq_false in Hdirty. destruct (files (repo w)); [done|simpl in Hdirty; lia].
Qed.

End Squash.




(* ===================================================================== *)
(** * Part 14: the entry point                                            *)
(* ===================================================================== *)

(** ** [getRecentCommits], [getNewCommitMessage] and [main] *)

(** The value of [parseInt(options.number)]: [NaN], or an integer. *)
Inductive JsNumber :=
  | NaN
  | Num (z : Z).

(** The options object that [main] receives: [number] after [parseInt],
    [message] (a string or [undefined]) and [dryRun]. *)
Record Options := mkOptions {
  opt_number : JsNumber;
  opt_message : option string;
  opt_dryRun : bool
}.

(** [parseInt(options.number) || 10]: [NaN] and [0] are falsy. *)
Definition maxCount_of (options : Options) : Z :=
  match opt_number options with
  | NaN => 10
  | Num z => if (z =? 0)%Z then 10 else z
  end.

(** The argument [--max-count]: git reads a negative count as no limit. *)
Definition log_limit (maxCount : Z) : option nat :=
  if (maxCount <? 0)%Z then None else Some (Z.to_nat maxCount).

Definition getRecentCommits (faults : nat → option string) (options : Options)
  : M (list Commit) :=
  try_catch
    (let maxCount := maxCount_of options in
     git_log faults (log_limit maxCount))
    (λ error,
     console_error ("Error fetching git commits: " +:+ error_message error) ;;
     process_exit 1).

(** White space for [String.prototype.trim], on the UTF-8 bytes of the
    string: the number of bytes of the white space or line terminator
    character the bytes start with, if any. *)
Definition whitespace_bytes (bs : list N) : option nat :=
  match bs with
  | b1 :: rest1 =>
      if bool_decide (b1 ∈ [9; 10; 11; 12; 13; 32]%N) then Some 1
      else match rest1 with
           | b2 :: rest2 =>
               if bool_decide ((b1, b2) = (194, 160)%N) then Some 2    (* U+00A0 *)
               else match rest2 with
                    | b3 :: _ =>
                        if bool_decide
                             ((b1, b2, b3) ∈ [ (225, 154, 128);        (* U+1680 *)
                                               (226, 128, 168);        (* U+2028 *)
                                               (226, 128, 169);        (* U+2029 *)
                                               (226, 128, 175);        (* U+202F *)
                                               (226, 129, 159);        (* U+205F *)
                                               (227, 128, 128);        (* U+3000 *)
                                               (239, 187, 191) ]%N)    (* U+FEFF *)
                           || bool_decide ((b1, b2) = (226, 128)%N
                                           ∧ (128 ≤ b3 ≤ 138)%N)       (* U+2000-U+200A *)
                        then Some 3 else None
                    | [] => None
                    end
           | [] => None
           end
  | [] => None
  end.

Fixpoint all_whitespace (fuel : nat) (bs : list N) : bool :=
  match bs, fuel with
  | [], _ => true
  | _, O => false
  | _, S fuel' =>
      match whitespace_bytes bs with
      | Some k => all_whitespace fuel' (drop k bs)
      | None => false
      end
  end.

Fixpoint bytes_of (s : string) : list N :=
  match s with
  | EmptyString => []
  | String c rest => Ascii.N_of_ascii c :: bytes_of rest
  end.

(** [!input.trim()] *)
Definition blank (input : string) : bool :=
  all_whitespace (String.length input) (bytes_of input).

(** [inquirer]'s input prompt asks again until [validate] accepts the entry:
    the answer is the first entry that is accepted, and there is none as long
    as no entry is. *)
Definition input_answer (validate : string → bool) (entries : list string) : option string :=
  List.find validate entries.

Definition getNewCommitMessage (presetMessage : option string) (entries : list string)
  : option string :=
  match presetMessage with
  | Some preset =>
      if bool_decide (preset ≠ "") then Some preset
      else input_answer (λ input, negb (blank input)) entries
  | None => input_answer (λ input, negb (blank input)) entries
  end.

(** A run of [main] is finished, or waits at a prompt for an answer that
    the validation accepts. *)
Inductive Run :=
  | Finished (o : Outcome unit)
  | AtPrompt.

Definition finish (r : Outcome unit * World) : Run * World := (Finished r.1, r.2).

Definition main (faults : nat → option string) (options : Options)
    (toggles : list nat) (entries : list string) : World → Run * World := λ w,
  match (console_log "🔍 Fetching recent commits..." ;;
         getRecentCommits faults options) w with
  | (Ok commits, w1) =>
      if bool_decide (length commits < 2) then
        finish ((console_log "Not enough commits to squash. Need at least 2 commits." ;;
                 process_exit 0) w1)
      else
        match selectCommits commits toggles with
        | None => (AtPrompt, w1)
        | Some selectedCommits =>
            match getNewCommitMessage (opt_message options) entries with
            | None => (AtPrompt, w1)
            | Some newMessage =>
                finish ((console_log (nl +:+ "🔄 Squashing commits...") ;;
                         squashCommits faults selectedCommits newMessage
                                       (opt_dryRun options)) w1)
            end
        end
  | (Throw e, w1) => (Finished (Throw e), w1)
  | (Exit c, w1) => (Finished (Exit c), w1)
  end.

(** The commits that [getRecentCommits] asks for. *)
Definition recent_of (options : Options) (r : Repo) : list Commit :=
  match log_limit (maxCount_of options) with
  | Some n => take n (history r)
  | None => history r
  end.


(** ** What [getRecentCommits] returns *)


Lemma maxCount_of_nonzero options : maxCount_of options ≠ 0%Z.
Proof.
  unfold maxCount_of. destruct (opt_number options) as [|z]; [done|].
  destruct (z =? 0)%Z eqn:Hz; [done|]. by apply Z.eqb_neq.
Qed.

Lemma getRecentCommits_run faults options w :
  let op := OpLog (log_limit (maxCount_of options)) in
  match faults (length (trace w)), tip (repo w) with
  | None, Some _ =>
      getRecentCommits faults options w
      = (Ok (recent_of options (repo w)), journal op true (repo w) w)
  | Some msg, _ =>
      getRecentCommits faults options w
      = (Exit 1, mkWorld (repo w) (clock w)
                   (trace w ++ [mkEvent op (HEAD (repo w)) false])
                   (stdout w)
                   (stderr w ++ ["Error fetching git commits: " +:+ msg]))
  | None, None =>
      getRecentCommits faults options w
      = (Exit 1, mkWorld (repo w) (clock w)
                   (trace w ++ [mkEvent op (HEAD (repo w)) false])
                   (stdout w)
                   (stderr w ++ ["Error fetching git commits: "
                                 +:+ "your current branch does not have any commits yet"]))
  end.
Proof.
  intros op. unfold getRecentCommits, try_catch, git_log, gateway, sem_log, recent_of, history.
  cbv zeta. fold op.
  destruct (faults _) as [msg|]; [done|].
  destruct (tip (repo w)) as [t|]; [|done].
  by destruct (log_limit _).
Qed.



(** ** What the prompts answer *)

Lemma checked_Permutation t1 t2 i : t1 ≡ₚ t2 → checked t1 i = checked t2 i.
Proof. intros Hp. unfold checked. by rewrite Hp. Qed.

Lemma checkbox_answer_Permutation {V} (choices : list V) t1 t2 :
  t1 ≡ₚ t2 → checkbox_answer choices t1 = checkbox_answer choices t2.
Proof.
  intros Hp. unfold checkbox_answer. f_equal.
  apply list_filter_iff. intros [i v]. simpl. by rewrite (checked_Permutation _ _ _ Hp).
Qed.

(** X2. The answer of [selectCommits] does not depend on the order in which the
    commits were checked. It lists commits of the list that was shown, in
    the order of that list, at least two of them, and none twice when the
    list shows none twice. *)
Theorem selectCommits_in_list_order commits toggles toggles' selected :
  toggles ≡ₚ toggles' →
  selectCommits commits toggles = Some selected →
  selectCommits commits toggles' = Some selected
  ∧ selected `sublist_of` (hash <$> commits)
  ∧ (2 ≤ length selected)%nat
  ∧ (NoDup (hash <$> commits) → NoDup selected).
Proof.
  intros Hp Hsel.
  pose proof (selectCommits_sublist _ _ _ Hsel) as [Hsub Hlen].
  split_and!; [|done|done|].
  - unfold selectCommits in *. by rewrite <-(checkbox_answer_Permutation _ _ _ Hp).
  - intros Hnd. by eapply sublist_NoDup.
Qed.

Lemma selectCommits_in_list_order_witness :
  selectCommits sample_objects [1; 3; 0; 1]%nat = Some ["C5"; "C2"]
  ∧ ["C5"; "C2"] `sublist_of` (hash <$> sample_objects)
  ∧ (2 ≤ length ["C5"; "C2"])%nat
  ∧ (NoDup (hash <$> sample_objects) → NoDup ["C5"; "C2"]).
Proof.
  apply (selectCommits_in_list_order sample_objects [3; 1; 0; 1]%nat).
  - decide_by_computation.
  - vm_compute. reflexivity.
Defined.

Lemma blank_empty : blank "" = true.
Proof. done. Qed.

Lemma input_answer_first validate entries m :
  input_answer validate entries = Some m →
  ∃ before after, entries = before ++ m :: after
                  ∧ Forall (λ e, validate e = false) before ∧ validate m = true.
Proof.
  unfold input_answer. induction entries as [|e entries IH]; simpl; [done|].
  destruct (validate e) eqn:He.
  - intros [= <-]. by exists [], entries.
  - intros (before & after & -> & Hb & Hm)%IH. exists (e :: before), after.
    split_and!; [done|by constructor|done].
Qed.

(** X3. The message [getNewCommitMessage] returns is never the empty string. A
    preset message that is not empty is returned as it is, without being
    validated, whatever was typed; otherwise the message is the first entry
    that is not blank. *)
Theorem getNewCommitMessage_not_empty presetMessage entries m :
  getNewCommitMessage presetMessage entries = Some m →
  m ≠ ""
  ∧ (∀ preset, presetMessage = Some preset → preset ≠ "" → m = preset)
  ∧ (presetMessage = None ∨ presetMessage = Some "" →
     ∃ before after, entries = before ++ m :: after
                     ∧ Forall (λ e, blank e = true) before ∧ blank m = false).
Proof.
  assert (∀ m, input_answer (λ input, negb (blank input)) entries = Some m →
               m ≠ "" ∧ ∃ before after, entries = before ++ m :: after
                       ∧ Forall (λ e, blank e = true) before ∧ blank m = false) as Hprompt.
  { intros m' (before & after & -> & Hb & Hm)%input_answer_first.
    apply negb_true_iff in Hm. split; [by intros ->|].
    exists before, after. split_and!; [done| |done].
    eapply Forall_impl; [exact Hb|]. intros e He. by apply negb_false_iff in He. }
  unfold getNewCommitMessage. destruct presetMessage as [preset|].
  - destruct (bool_decide (preset ≠ "")) eqn:Hp.
    + apply bool_decide_eq_true in Hp. intros [= <-]. split_and!; [done| |].
      * by intros ? [= <-].
      * by intros [|[= ->]].
    + apply bool_decide_eq_false in Hp. intros [Hm Hrest]%Hprompt. split_and!; [done| |done].
      intros ? [= <-] Hne. by destruct Hp.
  - intros [Hm Hrest]%Hprompt. by split_and!.
Qed.

Lemma getNewCommitMessage_not_empty_witness :
  "fix" ≠ ""
  ∧ (∀ preset, Some "" = Some preset → preset ≠ "" → "fix" = preset)
  ∧ (Some "" = None ∨ Some "" = Some "" →
     ∃ before after, ["  "; ""; "fix"; "other"] = before ++ "fix" :: after
                     ∧ Forall (λ e, blank e = true) before ∧ blank "fix" = false).
Proof.
  apply (getNewCommitMessage_not_empty (Some "") ["  "; ""; "fix"; "other"] "fix").
  vm_compute. reflexivity.
Defined.


(** ** [main] *)


(** The run reads, and the repository is the one of [w0]. *)
Definition only_read (w0 w : World) : Prop :=
  repo w = repo w0 ∧ issued (λ e, mutating_op (ev_op e) = false) w0 w.

Lemma only_read_refl w0 : only_read w0 w0.
Proof. split; [done|apply issued_refl]. Qed.

Lemma only_read_quiet w0 : quiet (only_read w0).
Proof. by intros r c tr o e o' e'. Qed.

Lemma preserves_only_read_gateway {A} w0 faults op (sem : Repo → string + (A * Repo)) :
  mutating_op op = false →
  (∀ r a r', sem r = inr (a, r') → r' = r) →
  preserves (only_read w0) (gateway faults op sem).
Proof.
  intros Hop Hsem. apply preserves_gateway.
  - intros w [Hr Hi]. split; [done|]. by apply issued_journal.
  - intros w a r' [Hr Hi] ->%Hsem. split; [done|]. by apply issued_journal.
Qed.

Lemma sem_status_repo r a r' : sem_status r = inr (a, r') → r' = r.
Proof. by intros [= _ <-]. Qed.

Ltac only_read_calls :=
  preserves_structure;
  first [ apply only_read_quiet
        | apply preserves_only_read_gateway;
            [done|first [apply sem_log_repo|apply sem_status_repo]] ].

Lemma run_console_log {A} s (m : M A) w :
  (console_log s ;; m) w
  = m (mkWorld (repo w) (clock w) (trace w) (stdout w ++ [s +:+ nl]) (stderr w)).
Proof. reflexivity. Qed.

(** X4. With fewer than two commits to choose from, because the branch has one
    commit or because one was asked for, [main] says so and ends the
    process with exit code 0. The log read is its only call, no prompt is
    shown and the repository is unchanged. *)
Theorem main_not_enough_commits faults options toggles entries w :
  faults (length (trace w)) = None →
  is_Some (tip (repo w)) →
  length (recent_of options (repo w)) < 2 →
  ∃ w', main faults options toggles entries w = (Finished (Exit 0), w')
        ∧ repo w' = repo w
        ∧ ops (events_since w w') = [OpLog (log_limit (maxCount_of options))]
        ∧ stdout w' = stdout w
                      ++ [ "🔍 Fetching recent commits..." +:+ nl;
                           "Not enough commits to squash. Need at least 2 commits." +:+ nl ].
Proof.
  intros Hnf [t Ht] Hlen. unfold main. rewrite run_console_log.
  pose proof (getRecentCommits_run faults options) as Hrun.
  match goal with |- context [getRecentCommits _ _ ?W] => specialize (Hrun W) end.
  cbv zeta in Hrun. cbn [repo trace] in Hrun.
  rewrite Hnf, Ht in Hrun. rewrite Hrun. cbn [repo].
  rewrite bool_decide_eq_true_2 by done. rewrite run_console_log.
  unfold finish, process_exit. cbn [fst snd repo journal clock trace stdout stderr].
  eexists. split; [reflexivity|]. cbn [repo trace stdout].
  split_and!; [done| |by rewrite <-app_assoc].
  unfold events_since. cbn [trace]. by rewrite drop_app_length.
Qed.

Lemma main_not_enough_commits_witness :
  ∃ w', main no_faults (mkOptions (Num 1) None false) [] [] (sample_world [])
        = (Finished (Exit 0), w')
        ∧ repo w' = repo (sample_world [])
        ∧ ops (events_since (sample_world []) w') = [OpLog (Some 1)]
        ∧ stdout w' = stdout (sample_world [])
                      ++ [ "🔍 Fetching recent commits..." +:+ nl;
                           "Not enough commits to squash. Need at least 2 commits." +:+ nl ].
Proof.
  apply (main_not_enough_commits no_faults (mkOptions (Num 1) None false) [] []
           (sample_world [])).
  - reflexivity.
  - by eexists.
  - vm_compute. lia.
Defined.



(** X6. With the dry-run option, [main] changes nothing: whatever is selected
    and whatever fails, every call it issues is a read and the repository is
    the same at the end, also when the run waits at a prompt. *)
Theorem main_dry_run_reads_only faults options toggles entries w :
  opt_dryRun options = true →
  let w' := (main faults options toggles entries w).2 in
  repo w' = repo w
  ∧ trace w' = trace w ++ events_since w w'
  ∧ Forall (λ e, mutating_op (ev_op e) = false) (events_since w w').
Proof.
  intros Hdry.
  assert (only_read w (main faults options toggles entries w).2) as [Hrepo Hiss].
  { unfold main.
    assert (preserves (only_read w)
              (console_log "🔍 Fetching recent commits..." ;;
               getRecentCommits faults options)) as Hfetch.
    { unfold getRecentCommits. only_read_calls. }
    specialize (Hfetch w (only_read_refl w)).
    destruct ((console_log _ ;; getRecentCommits faults options) w) as [[commits|e|c] w1];
      simpl in Hfetch; [|done..].
    destruct (bool_decide _).
    - assert (preserves (only_read w)
                (console_log "Not enough commits to squash. Need at least 2 commits." ;;
                 process_exit (A:=unit) 0)) as Hexit
        by (preserves_structure; apply only_read_quiet).
      apply (Hexit w1 Hfetch).
    - destruct (selectCommits _ _) as [selected|]; [|done].
      destruct (getNewCommitMessage _ _) as [newMessage|]; [|done].
      rewrite Hdry.
      assert (preserves (only_read w)
                (console_log (nl +:+ "🔄 Squashing commits...") ;;
                 squashCommits faults selected newMessage true)) as Hsquash.
      { unfold squashCommits. only_read_calls. }
      apply (Hsquash w1 Hfetch). }
  cbv zeta. split; [done|]. by apply issued_events_since.
Qed.

Lemma main_dry_run_reads_only_witness :
  let w := sample_world ["notes.txt"] in
  let w' := (main no_faults (mkOptions (Num 4) (Some "squashed") true) [1; 3]%nat [] w).2 in
  repo w' = repo w
  ∧ trace w' = trace w ++ events_since w w'
  ∧ Forall (λ e, mutating_op (ev_op e) = false) (events_since w w').
Proof.
  apply (main_dry_run_reads_only no_faults (mkOptions (Num 4) (Some "squashed") true)
           [1; 3]%nat [] (sample_world ["notes.txt"])).
  reflexivity.
Defined.

(* ===================================================================== *)
(** * Part 15: more on the classifier and on the later commits            *)
(* ===================================================================== *)

Lemma areCommitsLatestAndConsecutive_repo faults commits w b w1 :
  areCommitsLatestAndConsecutive faults commits w = (Ok b, w1) → repo w1 = repo w.
Proof.
  unfold areCommitsLatestAndConsecutive, bind, git_log, gateway, sem_log, ret.
  destruct (faults _); [done|]. destruct (tip (repo w)); [|done]. by intros [= _ <-].
Qed.

(** X7. The classifier answers [true] exactly when the selection is a
    rearrangement of the first [|selection|] commits of the branch. So it
    answers [false] for a selection with more commits than the branch has,
    for one that lists a commit twice, and for one with a commit that is not
    among these first commits. It reads the log and changes nothing. *)
Theorem classifier_exact faults (commits : list Hash) w b w1 :
  NoDup (hash <$> history (repo w)) →
  areCommitsLatestAndConsecutive faults commits w = (Ok b, w1) →
  let first := take (length commits) (hash <$> history (repo w)) in
  repo w1 = repo w
  ∧ (b = true ↔ commits ≡ₚ first)
  ∧ (length (history (repo w)) < length commits → b = false)
  ∧ (¬ NoDup commits → b = false)
  ∧ (∀ c, c ∈ commits → c ∉ first → b = false).
Proof.
  intros Hnd Hrun first.
  pose proof (areCommitsLatestAndConsecutive_repo _ _ _ _ _ Hrun) as Hrepo.
  apply areCommitsLatestAndConsecutive_result in Hrun. fold first in Hrun.
  assert (NoDup first) as Hfirst by (eapply sublist_NoDup; [exact Hnd|apply sublist_take]).
  assert (b = true → commits ≡ₚ first) as Hperm.
  { rewrite Hrun. intros Hb%isLatestAndConsecutive_Permutation.
    unfold first in Hb. by rewrite take_take, Nat.min_id in Hb. }
  assert (∀ P : Prop, (commits ≡ₚ first → ¬ P) → P → b = false) as Hnot.
  { intros P HP Hp. destruct b; [|done]. by destruct (HP (Hperm eq_refl)). }
  split_and!; [done| | | |].
  - split; [done|]. intros Hp. rewrite Hrun.
    assert (length first = length commits) as Hlen by (by rewrite <-(Permutation_length Hp)).
    pose proof (Permutation_isLatestAndConsecutive first commits Hfirst Hp) as Hb.
    apply isLatestAndConsecutive_true in Hb. apply isLatestAndConsecutive_true.
    by rewrite Hb, <-Hlen, firstn_all.
  - apply Hnot. intros Hp%Permutation_length. unfold first in Hp.
    rewrite length_take, length_fmap in Hp. lia.
  - apply Hnot. intros Hp Hn. apply Hn. by rewrite Hp.
  - intros c Hc. apply Hnot. intros Hp Hn. apply Hn. by rewrite <-Hp.
Qed.

Lemma classifier_exact_witness :
  let w := sample_world [] in
  let run := areCommitsLatestAndConsecutive no_faults ["C4"; "C5"] w in
  let first := take 2 (hash <$> history (repo w)) in
  repo run.2 = repo w
  ∧ (true = true ↔ ["C4"; "C5"] ≡ₚ first)
  ∧ (length (history (repo w)) < 2 → true = false)
  ∧ (¬ NoDup ["C4"; "C5"] → true = false)
  ∧ (∀ c, c ∈ ["C4"; "C5"] → c ∉ first → true = false).
Proof.
  intros w run.
  apply (classifier_exact no_faults ["C4"; "C5"] w true run.2).
  - decide_by_computation.
  - transitivity (run.1, run.2); [apply surjective_pairing|].
    assert (run.1 = Ok true) as -> by (vm_compute; reflexivity).
    reflexivity.
Defined.


(* ===================================================================== *)
(** * Part 16: the working tree around a real run                         *)
(* ===================================================================== *)

(** ** The uncommitted changes *)




















(** ** The content of the branch *)

Lemma same_content_patches later' later :
  Forall2 same_content later' later → patch <$> later' = patch <$> later.
Proof.
  induction 1 as [|c' c l' l (_ & _ & Hp) _ IH]; [done|]. simpl. f_equal; [exact Hp|exact IH].
Qed.

(** X10. Squashing a contiguous selection rewrites the history and not the
    content: when the run completes, the tree of the tip of the branch is
    the tree it was, on either path. *)
Theorem contiguous_squash_keeps_tree faults (later sel : list Commit) (a : Commit)
    (anc : list Commit) msg w w' :
  NoDup (hash <$> objects (repo w)) →
  history (repo w) = later ++ sel ++ a :: anc →
  sel ≠ [] →
  (files (repo w) = [] → index (repo w) = tip_tree (repo w)) →
  squashCommits faults (hash <$> sel) msg false w = (Ok tt, w') →
  tip_tree (repo w') = tip_tree (repo w).
Proof.
  intros Hnd Hhist Hsel Hclean Hrun.
  assert (∃ t0, tip (repo w) = Some t0
                ∧ ancestry t0 (objects (repo w)) = later ++ sel ++ a :: anc)
    as (t0 & Htip & Hchain).
  { revert Hhist. unfold history. destruct (tip (repo w)) as [t0|]; [by eauto|].
    by destruct later, sel. }
  pose proof (squashCommits_result faults _ t0 later sel a anc msg Hnd Hchain w
                Hsel eq_refl Htip Hclean) as Hwp.
  apply (wp_run _ _ _ _ _ Hrun) in Hwp. cbv beta in Hwp.
  destruct (Hwp eq_refl) as [(later' & cnew & Hhist' & Hsame & _ & _ & Hpatch) _].
  rewrite !tip_tree_history, Hhist', Hhist.
  change (later' ++ cnew :: a :: anc) with (later' ++ [cnew] ++ a :: anc).
  rewrite !fmap_reverse, !fmap_app, (same_content_patches _ _ Hsame), !reverse_app, !concat_app.
  assert (concat (reverse (patch <$> [cnew])) = concat (reverse (patch <$> sel))) as ->; [|done].
  simpl. by rewrite app_nil_r, Hpatch, fmap_reverse.
Qed.

Lemma contiguous_squash_keeps_tree_witness :
  let w := sample_world ["notes.txt"] in
  let run := squashCommits no_faults ["C4"; "C3"] "squashed" false w in
  tip_tree (repo run.2) = tip_tree (repo w).
Proof.
  intros w run.
  apply (contiguous_squash_keeps_tree no_faults [sample_commit "C5" (Some "C4")]
           [sample_commit "C4" (Some "C3"); sample_commit "C3" (Some "C2")]
           (sample_commit "C2" (Some "C1")) [sample_commit "C1" None]
           "squashed" w run.2).
  - decide_by_computation.
  - vm_compute. reflexivity.
  - discriminate.
  - discriminate.
  - transitivity (run.1, run.2); [apply surjective_pairing|].
    assert (run.1 = Ok tt) as -> by (vm_compute; reflexivity).
    reflexivity.
Defined.

(* ===================================================================== *)
(** * Part 17: the branches around the general path                       *)
(* ===================================================================== *)

(** ** A run that completes moves one branch *)

(** [hd] is checked out, and the branches other than [temp] and the branch
    [w0] had checked out point where they pointed in [w0]. *)
Definition framed (w0 : World) (temp hd : string) (w : World) : Prop :=
  HEAD (repo w) = hd
  ∧ ∀ b, b ≠ temp → b ≠ HEAD (repo w0) → branches (repo w) !! b = branches (repo w0) !! b.

Lemma framed_quiet w0 temp hd : quiet (framed w0 temp hd).
Proof. by intros r c tr o e o' e'. Qed.

Lemma framed_step w0 temp hd w r' :
  hd = temp ∨ hd = HEAD (repo w0) →
  framed w0 temp hd w → tip_frame (repo w) r' →
  ∀ op ok, framed w0 temp hd (journal op ok r' w).
Proof.
  intros Hhd [Hd Hfr] [Hd' Hfr'] op ok. split; simpl; [congruence|].
  intros b Hb1 Hb2. rewrite Hfr', Hfr; [done..|]. rewrite Hd. by destruct Hhd as [-> | ->].
Qed.

Lemma preserves_framed_gateway {A} w0 temp hd faults op (sem : Repo → string + (A * Repo)) :
  hd = temp ∨ hd = HEAD (repo w0) →
  (∀ r a r', sem r = inr (a, r') → tip_frame r r') →
  preserves (framed w0 temp hd) (gateway faults op sem).
Proof.
  intros Hhd Hsem. apply preserves_gateway.
  - intros w Hw. by apply framed_step; [..|apply tip_frame_refl].
  - intros w a r' Hw Hr'%Hsem. by apply framed_step.
Qed.

Lemma preserves_framed_commit w0 temp hd faults msg :
  hd = temp ∨ hd = HEAD (repo w0) →
  preserves (framed w0 temp hd) (git_commit faults msg).
Proof.
  intros Hhd. apply preserves_git_commit.
  - intros w Hw. by apply framed_step; [..|apply tip_frame_refl].
  - intros w a r' Hw Hr'%sem_commit_frame. by apply framed_step.
Qed.

Lemma sem_revparse_frame rv r a r' : sem_revparse rv r = inr (a, r') → tip_frame r r'.
Proof. intros ->%sem_revparse_repo. apply tip_frame_refl. Qed.

Ltac framed_calls Hhd :=
  preserves_structure;
  first [ apply framed_quiet
        | apply preserves_framed_commit; exact Hhd
        | apply preserves_framed_gateway;
            [ exact Hhd
            | first [ apply sem_reset_frame | apply sem_cherry_pick_frame
                    | apply sem_revparse_frame ] ] ].

(** Runs the steps that keep the invariant [I]. *)
Ltac framed_steps I Hhd on_throw on_exit :=
  repeat (apply (wp_bind_inv I);
          [ solve [framed_calls Hhd]
          | assumption
          | intros ? ? ?
          | intros ? ? _; on_throw
          | intros ? ? _; on_exit ]).

Lemma squashNonConsecutiveCommits_framed faults (commits : list Hash) message w :
  wp (squashNonConsecutiveCommits faults commits message)
     (λ o w', o = Ok tt →
        HEAD (repo w') = HEAD (repo w)
        ∧ branches (repo w) !! temp_branch w = None
        ∧ temp_branch w ≠ HEAD (repo w)
        ∧ branches (repo w') !! temp_branch w = None
        ∧ ∀ b, b ≠ temp_branch w → b ≠ HEAD (repo w) →
               branches (repo w') !! b = branches (repo w) !! b) w.
Proof.
  set (cur := HEAD (repo w)). set (temp := temp_branch w).
  set (Q := λ (o : Outcome unit) w', o = Ok tt →
        HEAD (repo w') = cur
        ∧ branches (repo w) !! temp = None
        ∧ temp ≠ cur
        ∧ branches (repo w') !! temp = None
        ∧ ∀ b, b ≠ temp → b ≠ cur → branches (repo w') !! b = branches (repo w) !! b).
  assert (∀ e w1, Q (Throw e) w1) as Hfail by (by intros e w1 [=]).
  assert (∀ c w1, Q (Exit c) w1) as Hexit by (by intros c w1 [=]).
  unfold squashNonConsecutiveCommits.
  apply wp_bind, wp_gateway_cases; [intros; apply Hfail|].
  intros currentBranch r1 [= <- <-]. fold cur.
  apply wp_bind, wp_Date_now. wp_log.
  apply wp_bind, wp_gateway_cases; [intros; apply Hfail|].
  wp_norm. intros log r1 Hlog. pose proof (sem_log_repo _ _ _ _ Hlog) as ->.
  assert (is_Some (branches (repo w) !! cur)) as Htip.
  { revert Hlog. unfold sem_log, tip. fold cur. destruct (branches (repo w) !! cur); [eauto|done]. }
  clear Hlog. do 3 wp_log. fold (temp_branch w). fold temp.
  apply wp_bind, wp_gateway_cases; [intros; apply Hfail|].
  wp_norm. intros [] r2 (Hfresh & Hhd2 & Hothers)%sem_checkout_new_inv.
  assert (temp ≠ cur) as Hne.
  { intros Heq. rewrite Heq in Hfresh. rewrite Hfresh in Htip. by destruct Htip. }
  match goal with |- wp _ _ ?W => set (w2 := W) end.
  assert (framed w temp temp w2) as Hw2.
  { split; [done|]. intros b Hb _. unfold w2. wp_norm. by apply Hothers. }
  clearbody w2. clear Hhd2 Hothers r2.
  set (handler := λ error : Error,
     console_log (nl +:+ "❌ Error: Squash failed!");;
     console_log "🧹 Cleaning up...";;
     console_log ("  Switching back to " +:+ cur);;
     git_checkout faults cur;;
     stdout_write ("  Removing temporary branch " +:+ temp +:+ "... ");;
     suppress (git_branch_D faults temp);;
     console_log "✓";; throw error).
  assert (∀ e w1, wp (handler e) Q w1) as Hh.
  { intros e w1. unfold handler. do 3 wp_log.
    apply wp_bind, wp_gateway_cases; [intros; apply Hfail|].
    wp_norm. intros [] r3 _. wp_write.
    apply wp_bind, wp_suppress, wp_gateway_cases.
    - intros m. wp_log. apply wp_throw, Hfail.
    - wp_norm. intros [] r4 _. wp_log. apply wp_throw, Hfail. }
  apply wp_try. fold handler.
  (* on the temporary branch *)
  assert (temp = temp ∨ temp = HEAD (repo w)) as Htemp by (by left).
  framed_steps (framed w temp temp) Htemp ltac:(apply Hh) ltac:(apply Hexit).
  match goal with
  | H : framed w temp temp ?W |- wp _ _ ?W => revert H; generalize W
  end.
  intros w5 [_ Hfr5].
  (* back on the original branch *)
  apply wp_bind, wp_gateway_cases; [intros; apply Hh|].
  wp_norm. intros [] r6 [Hbr6 Hhd6]%sem_checkout_branches.
  match goal with |- wp _ _ ?W => set (w6 := W) end.
  assert (framed w temp cur w6) as Hw6.
  { split; [done|]. intros b Hb1 Hb2. unfold w6. wp_norm. rewrite Hbr6. by apply Hfr5. }
  clearbody w6. clear Hbr6 Hhd6 r6 Hfr5.
  assert (cur = temp ∨ cur = HEAD (repo w)) as Hcur by (by right).
  framed_steps (framed w temp cur) Hcur ltac:(apply Hh) ltac:(apply Hexit).
  match goal with
  | H : framed w temp cur ?W |- wp _ _ ?W => revert H; generalize W
  end.
  intros w9 [Hhd9 Hfr9].
  (* the temporary branch is deleted *)
  apply wp_bind, wp_gateway_cases; [intros; apply Hh|].
  wp_norm. intros [] r10 Hdel.
  pose proof (sem_branch_delete_branches _ _ _ _ Hdel) as Hbr10.
  pose proof (sem_branch_delete_head _ _ _ _ Hdel) as Hhd10.
  apply wp_console_log. intros _. wp_norm.
  rewrite Hbr10. split_and!; [congruence|done|done|apply lookup_delete_eq|].
  intros b Hb1 Hb2. rewrite lookup_delete_ne by done. by apply Hfr9.
Qed.

(** X11. When the general path completes, the branch it started on is checked
    out again, the temporary branch is gone, and no branch other than the
    one it started on has moved or appeared. *)
Theorem general_path_moves_one_branch faults (commits : list Hash) message w w' :
  squashNonConsecutiveCommits faults commits message w = (Ok tt, w') →
  HEAD (repo w') = HEAD (repo w)
  ∧ branches (repo w') !! temp_branch w = None
  ∧ ∀ b, b ≠ HEAD (repo w) → branches (repo w') !! b = branches (repo w) !! b.
Proof.
  intros Hrun.
  pose proof (squashNonConsecutiveCommits_framed faults commits message w) as Hwp.
  apply (wp_run _ _ _ _ _ Hrun) in Hwp. cbv beta in Hwp.
  destruct (Hwp eq_refl) as (Hhd & Hfresh & Hne & Hgone & Hfr).
  split_and!; [done..|]. intros b Hb.
  destruct (decide (b = temp_branch w)) as [->|Hb']; [congruence|by apply Hfr].
Qed.

Lemma general_path_moves_one_branch_witness :
  let w := sample_world [] in
  let run := squashNonConsecutiveCommits no_faults ["C4"; "C2"] "squashed" w in
  HEAD (repo run.2) = HEAD (repo w)
  ∧ branches (repo run.2) !! temp_branch w = None
  ∧ ∀ b, b ≠ HEAD (repo w) → branches (repo run.2) !! b = branches (repo w) !! b.
Proof.
  intros w run.
  apply (general_path_moves_one_branch no_faults ["C4"; "C2"] "squashed" w run.2).
  transitivity (run.1, run.2); [apply surjective_pairing|].
  assert (run.1 = Ok tt) as -> by (vm_compute; reflexivity).
  reflexivity.
Defined.


(** ** A branch that already has the name of the temporary branch *)

(** X12. When a branch named like the temporary branch exists, the general path
    stops with an error before anything is changed: the repository is the
    same, at most three calls are issued ([branch], [log], [checkout -b]),
    and the cleanup of the handler, which would delete that branch, does not
    run. Without an outside failure the error is the refusal of
    [checkout -b]. *)
Theorem temp_branch_collision faults (commits : list Hash) message w t :
  branches (repo w) !! temp_branch w = Some t →
  ∃ e w',
    squashNonConsecutiveCommits faults commits message w = (Throw e, w')
    ∧ repo w' = repo w
    ∧ ops (events_since w w') `prefix_of` [OpBranch; OpLog None; OpCheckoutNew (temp_branch w)]
    ∧ ((∀ k, faults k = None) → is_Some (tip (repo w)) →
       e = GitError (OpCheckoutNew (temp_branch w)) "a branch with that name already exists").
Proof.
  intros Hex.
  assert (∀ evs, events_since w (mkWorld (repo w) (clock w) (trace w ++ evs)
                                   (stdout w) (stderr w)) = evs) as Hev0.
  { intros evs. unfold events_since. simpl. by rewrite drop_app_length. }
  assert (∀ evs out, events_since w (mkWorld (repo w) (clock w) (trace w ++ evs)
                                       out (stderr w)) = evs) as Hev.
  { intros evs out. unfold events_since. simpl. by rewrite drop_app_length. }
  unfold squashNonConsecutiveCommits.
  unfold bind at 1, git_branch, gateway at 1, sem_branch.
  destruct (faults (length (trace w))) as [m|] eqn:Hf0.
  { eexists _, _. split; [reflexivity|]. unfold journal. rewrite Hev.
    split_and!; [done|by eexists [_; _]|]. intros Hnf. by rewrite Hnf in Hf0. }
  unfold bind at 1, Date_now. rewrite run_console_log.
  unfold bind at 1, git_log, gateway at 1, sem_log. cbn [trace repo journal].
  destruct (faults (length (trace w ++ _))) as [m|] eqn:Hf1.
  { eexists _, _. split; [reflexivity|]. unfold journal. cbn [repo trace clock stdout stderr]. rewrite <-app_assoc, Hev.
    split_and!; [done|by eexists [_]|]. intros Hnf. by rewrite Hnf in Hf1. }
  destruct (tip (repo w)) as [t0|] eqn:Htip.
  2:{ eexists _, _. split; [reflexivity|]. unfold journal. cbn [repo trace clock stdout stderr]. rewrite <-app_assoc, Hev.
      split_and!; [done|by eexists [_]|]. by intros _ [? [=]]. }
  rewrite !run_console_log.
  unfold bind at 1, git_checkout_b, gateway at 1, sem_checkout_new. cbn [trace repo journal clock].
  fold (temp_branch w). rewrite Hex.
  destruct (faults (length ((trace w ++ _) ++ _))) as [m|] eqn:Hf2.
  { eexists _, _. split; [reflexivity|]. unfold journal. cbn [repo trace clock stdout stderr]. rewrite <-!app_assoc, Hev.
    split_and!; [done|done|]. intros Hnf. by rewrite Hnf in Hf2. }
  eexists _, _. split; [reflexivity|]. unfold journal. cbn [repo trace clock stdout stderr]. rewrite <-!app_assoc, Hev.
  by split_and!.
Qed.

Lemma temp_branch_collision_witness :
  let r := mkRepo sample_objects {[ "main" := "C5"; "temp-squash-1700000000000" := "C3" ]}
             "main" (tree_of "C5" sample_objects) [] [] in
  let w := mkWorld r 1700000000000%N [] [] [] in
  ∃ e w',
    squashNonConsecutiveCommits no_faults ["C4"; "C2"] "squashed" w = (Throw e, w')
    ∧ repo w' = repo w
    ∧ ops (events_since w w') `prefix_of` [OpBranch; OpLog None; OpCheckoutNew (temp_branch w)]
    ∧ ((∀ k, no_faults k = None) → is_Some (tip (repo w)) →
       e = GitError (OpCheckoutNew (temp_branch w)) "a branch with that name already exists").
Proof.
  intros r w.
  apply (temp_branch_collision no_faults ["C4"; "C2"] "squashed" w "C3").
  vm_compute. reflexivity.
Defined.

(* ===================================================================== *)
(** * Part 18: a squash without outside failures completes                *)
(* ===================================================================== *)

(** ** When git accepts a call *)






Lemma sem_revparse_HEAD_ok r :
  is_Some (tip r) → ∃ t, sem_revparse RevHEAD r = inr (t, r).
Proof. intros [t Ht]. unfold sem_revparse. simpl. rewrite Ht. by eexists. Qed.







Section Total.

Variable faults : nat → option string.
Variable objs0 : list Commit.
Variable t0 : Hash.
Variables later sel : list Commit.
Variable a : Commit.
Variable anc : list Commit.
Variable msg : string.

Hypothesis Hnf : ∀ k, faults k = None.
Hypothesis Hnd : NoDup (hash <$> objs0).
Hypothesis Hchain : ancestry t0 objs0 = later ++ sel ++ a :: anc.











End Total.



(** ** From the command line to the new history *)



(* ===================================================================== *)
(** * Part 19: what the fast path folds                                   *)
(* ===================================================================== *)

(** [squashLatestCommits] reads one element of the selection, the last. *)
Lemma squashLatestCommits_last faults (commits commits' : list Hash) msg :
  last commits = last commits' →
  squashLatestCommits faults commits msg = squashLatestCommits faults commits' msg.
Proof. intros Hlast. unfold squashLatestCommits. by rewrite Hlast. Qed.

(** X15. The fast path looks at the last listed commit only. When it completes,
    every commit from the tip of the branch down to that commit, listed or
    not, is folded into one new commit, which has the given message and
    their changesets, oldest first, and stands on the parent of the last
    listed commit; the commits below are as they were. A list whose last
    element is the tip folds the tip alone. *)
Theorem fast_path_folds_down_to_last faults (commits : list Hash)
    (above : list Commit) (o a : Commit) (anc : list Commit) msg w w' :
  NoDup (hash <$> objects (repo w)) →
  history (repo w) = above ++ o :: a :: anc →
  last commits = Some (hash o) →
  index (repo w) = tip_tree (repo w) →
  squashLatestCommits faults commits msg w = (Ok tt, w') →
  HEAD (repo w') = HEAD (repo w)
  ∧ ∃ cnew,
      history (repo w') = cnew :: a :: anc
      ∧ (hash cnew ∉ hash <$> objects (repo w))
      ∧ message cnew = msg
      ∧ patch cnew = concat (patch <$> reverse (above ++ [o])).
Proof.
  intros Hnd Hhist Hlast Hidx Hrun.
  assert (history (repo w) = [] ++ (above ++ [o]) ++ a :: anc) as Hhist'
    by (by rewrite Hhist, <-app_assoc).
  assert (∃ t0, tip (repo w) = Some t0
                ∧ ancestry t0 (objects (repo w)) = [] ++ (above ++ [o]) ++ a :: anc)
    as (t0 & Htip & Hchain).
  { revert Hhist'. unfold history. destruct (tip (repo w)) as [t0|]; [by eauto|].
    by destruct above. }
  rewrite (squashLatestCommits_last _ _ (hash <$> above ++ [o])) in Hrun.
  2:{ rewrite Hlast. symmetry. by apply (last_selected _ above). }
  pose proof (squashLatestCommits_result faults _ t0 [] (above ++ [o]) a anc msg Hnd Hchain w
                eq_refl) as Hwp.
  apply (wp_run _ _ _ _ _ Hrun) in Hwp; [|by destruct above|done..].
  destruct (Hwp eq_refl) as [(later' & cnew & Hh & Hsame & Hnew & Hmsg & Hpatch) Hhd].
  apply Forall2_nil_inv_r in Hsame as ->.
  split; [done|]. exists cnew. split_and!; [done| |done|done].
  by apply Forall_cons in Hnew as [? _].
Qed.

Lemma fast_path_folds_down_to_last_witness :
  let w := sample_world [] in
  let run := squashLatestCommits no_faults ["C3"; "C5"; "C4"] "squashed" w in
  HEAD (repo run.2) = HEAD (repo w)
  ∧ ∃ cnew,
      history (repo run.2)
      = cnew :: sample_commit "C3" (Some "C2")
             :: [sample_commit "C2" (Some "C1"); sample_commit "C1" None]
      ∧ (hash cnew ∉ hash <$> objects (repo w))
      ∧ message cnew = "squashed"
      ∧ patch cnew = concat (patch <$> reverse ([sample_commit "C5" (Some "C4")]
                                                 ++ [sample_commit "C4" (Some "C3")])).
Proof.
  intros w run.
  apply (fast_path_folds_down_to_last no_faults ["C3"; "C5"; "C4"]
           [sample_commit "C5" (Some "C4")] (sample_commit "C4" (Some "C3"))
           (sample_commit "C3" (Some "C2"))
           [sample_commit "C2" (Some "C1"); sample_commit "C1" None] "squashed" w run.2).
  - decide_by_computation.
  - vm_compute. reflexivity.
  - reflexivity.
  - vm_compute. reflexivity.
  - transitivity (run.1, run.2); [apply surjective_pairing|].
    assert (run.1 = Ok tt) as -> by (vm_compute; reflexivity).
    reflexivity.
Defined.

(* ===================================================================== *)
(** * Part 20: a failure after the original branch was reset              *)
(* ===================================================================== *)

(** [grows r r']: the call kept the object store, or added one commit
    under a new identity. *)
Definition grows (r r' : Repo) : Prop :=
  objects r' = objects r
  ∨ ∃ c, objects r' = c :: objects r ∧ hash c = fresh_hash (objects r).

Lemma grown_from_grows objs0 r r' :
  grown_from objs0 (objects r) → grows r r' → grown_from objs0 (objects r').
Proof. intros Hg [->|(c & -> & Hc)]; [done|by apply grown_from_fresh]. Qed.

Lemma sem_reset_grows m rv r u r' :
  sem_reset m rv r = inr (u, r') → HEAD r' = HEAD r ∧ grows r r'.
Proof.
  intros Hr. split; [by eapply sem_reset_head|]. left. revert Hr. unfold sem_reset.
  destruct (resolve r rv); [|done]. by destruct m; intros [= <- <-].
Qed.

Lemma sem_cherry_pick_grows h r u r' :
  sem_cherry_pick h r = inr (u, r') → HEAD r' = HEAD r ∧ grows r r'.
Proof.
  intros (src & c & _ & Hc & _ & _ & _ & Hobj & _ & _ & [Hhd _])%sem_cherry_pick_spec.
  split; [done|]. right. eauto.
Qed.

Lemma sem_commit_grows now msg r u r' :
  sem_commit now msg r = inr (u, r') → HEAD r' = HEAD r ∧ grows r r'.
Proof.
  intros (c & Hc & _ & _ & Hobj & _ & _ & [Hhd _])%sem_commit_spec.
  split; [done|]. right. eauto.
Qed.

Lemma sem_revparse_grows rv r u r' :
  sem_revparse rv r = inr (u, r') → HEAD r' = HEAD r ∧ grows r r'.
Proof. intros ->%sem_revparse_repo. split; [done|by left]. Qed.

Section Rewound.

Variable faults : nat → option string.
Variable w0 : World.
Variable temp : string.
Variables later sel : list Commit.
Variable a : Commit.
Variable anc : list Commit.

Let cur := HEAD (repo w0).
Let objs0 := objects (repo w0).

(** No hard reset has taken effect on the original branch. *)
Definition not_reset (ev : Event) : Prop := hard_reset_on cur ev = false.

(** The temporary branch is checked out. *)
Definition aside (w : World) : Prop :=
  HEAD (repo w) = temp ∧ grown_from objs0 (objects (repo w)) ∧ issued not_reset w0 w.

(** The original branch now ends with [a] and its ancestors, under commits
    that the run has created. *)
Definition rewound (w : World) : Prop :=
  HEAD (repo w) = cur ∧ grown_from objs0 (objects (repo w))
  ∧ ∃ l, history (repo w) = l ++ a :: anc ∧ Forall (λ c, hash c ∉ hash <$> objs0) l.

Lemma aside_quiet : quiet aside.
Proof. by intros r c tr o e o' e'. Qed.

Lemma rewound_quiet : quiet rewound.
Proof. by intros r c tr o e o' e'. Qed.

Lemma not_reset_elsewhere op hd ok : hd ≠ cur → not_reset (mkEvent op hd ok).
Proof.
  intros Hne. unfold not_reset, hard_reset_on. simpl.
  destruct op as [| | | | | |m rv| | | | |]; try done. destruct m; [done|].
  by rewrite bool_decide_eq_false_2.
Qed.

Lemma not_reset_failed op hd : not_reset (mkEvent op hd false).
Proof.
  unfold not_reset, hard_reset_on. simpl.
  destruct op as [| | | | | |m rv| | | | |]; try done. destruct m; [done|].
  apply andb_false_r.
Qed.

Lemma not_reset_other op hd ok :
  (∀ rv, op ≠ OpReset Hard rv) → not_reset (mkEvent op hd ok).
Proof.
  intros Hop. unfold not_reset, hard_reset_on. simpl.
  destruct op as [| | | | | |m rv| | | | |]; try done. destruct m; [done|].
  by destruct (Hop rv).
Qed.

Lemma preserves_aside_gateway {A} op (sem : Repo → string + (A * Repo)) :
  temp ≠ cur →
  (∀ r u r', sem r = inr (u, r') → HEAD r' = HEAD r ∧ grows r r') →
  preserves aside (gateway faults op sem).
Proof.
  intros Hne Hsem. apply preserves_gateway.
  - intros w (Hhd & Hg & Hi). split_and!; [done..|].
    apply issued_journal; [apply not_reset_failed|done].
  - intros w u r' (Hhd & Hg & Hi) [Hhd' Hgr]%Hsem. split_and!; simpl.
    + congruence.
    + by eapply grown_from_grows.
    + apply issued_journal; [|done]. apply not_reset_elsewhere. congruence.
Qed.

Lemma preserves_aside_commit msg :
  temp ≠ cur → preserves aside (git_commit faults msg).
Proof.
  intros Hne. apply preserves_git_commit.
  - intros w (Hhd & Hg & Hi). split_and!; [done..|].
    apply issued_journal; [apply not_reset_failed|done].
  - intros w u r' (Hhd & Hg & Hi) [Hhd' Hgr]%sem_commit_grows. split_and!; simpl.
    + congruence.
    + by eapply grown_from_grows.
    + apply issued_journal; [|done]. apply not_reset_elsewhere. congruence.
Qed.

Lemma preserves_rewound_pick h : preserves rewound (gateway faults (OpCherryPick h) (sem_cherry_pick h)).
Proof.
  apply preserves_gateway; [done|].
  intros w u r' (Hhd & Hg & l & Hhist & Hnew)
    (src & c & _ & Hc & _ & _ & _ & Hobj & Hhist' & _ & [Hhd' _])%sem_cherry_pick_spec.
  split_and!; simpl.
  - congruence.
  - rewrite Hobj. by apply grown_from_fresh.
  - exists (c :: l). rewrite Hhist', Hhist. split; [done|].
    constructor; [by eapply grown_from_new|done].
Qed.

Lemma preserves_rewound_branch_D b :
  preserves rewound (gateway faults (OpBranchDelete b) (sem_branch_delete b)).
Proof.
  apply preserves_gateway; [done|].
  intros w u r' (Hhd & Hg & l & Hhist & Hnew) (Hobj & Hhd' & Hhist')%sem_branch_delete_spec.
  split_and!; simpl; [congruence|by rewrite Hobj|]. exists l. by rewrite Hhist'.
Qed.

Lemma preserves_rewound_checkout :
  preserves rewound (gateway faults (OpCheckout cur) (sem_checkout cur)).
Proof.
  apply preserves_gateway; [done|].
  intros w u r' (Hhd & Hg & l & Hhist & Hnew)
    (t & Ht & Hobj & Hbr & Hhd' & Hhist')%sem_checkout_spec.
  split_and!; simpl; [done|by rewrite Hobj|]. exists l. split; [|done].
  rewrite Hhist', <-Hhist. unfold history, tip. by rewrite Hhd, Ht.
Qed.

End Rewound.

Ltac aside_calls Hne :=
  preserves_structure;
  first [ apply aside_quiet
        | apply preserves_aside_commit; exact Hne
        | apply preserves_aside_gateway;
            [ exact Hne
            | first [ apply sem_reset_grows | apply sem_cherry_pick_grows
                    | apply sem_revparse_grows ] ] ].

Ltac rewound_calls :=
  preserves_structure;
  first [ apply rewound_quiet
        | apply preserves_rewound_pick
        | apply preserves_rewound_branch_D
        | apply preserves_rewound_checkout ].

Ltac aside_steps I Hne on_throw on_exit :=
  repeat (apply (wp_bind_inv I);
          [ solve [aside_calls Hne]
          | assumption
          | intros ? ? ?
          | intros ? ? ?; on_throw
          | intros ? ? ?; on_exit ]).

Lemma squashNonConsecutiveCommits_rewound faults (later sel : list Commit) (a : Commit)
    (anc : list Commit) msg t0 w :
  NoDup (hash <$> objects (repo w)) →
  ancestry t0 (objects (repo w)) = later ++ sel ++ a :: anc →
  tip (repo w) = Some t0 →
  sel ≠ [] →
  wp (squashNonConsecutiveCommits faults (hash <$> sel) msg)
     (λ o w', o ≠ Ok tt →
        issued (not_reset w) w w' ∨ rewound w a anc w') w.
Proof.
  intros Hnd Hchain Htip Hsel.
  assert (∃ sel' oldest, sel = sel' ++ [oldest]) as (sel' & oldest & Hlast).
  { destruct sel as [|x l _] using rev_ind; [done|eauto]. }
  set (cur := HEAD (repo w)). set (temp := temp_branch w).
  set (Q := λ (o : Outcome unit) w', o ≠ Ok tt →
              issued (not_reset w) w w' ∨ rewound w a anc w').
  assert (∀ (o : Outcome unit) w1, issued (not_reset w) w w1 → Q o w1) as Hleft
    by (intros o w1 H _; by left).
  assert (∀ (o : Outcome unit) w1, rewound w a anc w1 → Q o w1) as Hright
    by (intros o w1 H _; by right).
  unfold squashNonConsecutiveCommits.
  rewrite (last_selected _ _ _ Hlast). simpl template.
  pose proof (issued_refl (not_reset w) w) as Hi0.
  apply wp_bind, wp_gateway_cases;
    [intros; apply Hleft, issued_journal; [apply not_reset_failed|done]|].
  intros currentBranch r1 [= <- <-]. fold cur.
  apply (issued_journal _ _ _ OpBranch true (repo w)) in Hi0; [|by apply not_reset_other].
  apply wp_bind, wp_Date_now. wp_log.
  apply wp_bind, wp_gateway_cases;
    [intros; apply Hleft, issued_journal; [apply not_reset_failed|exact Hi0]|].
  wp_norm. intros log r1 Hlog. pose proof (sem_log_repo _ _ _ _ Hlog) as ->. clear Hlog.
  match goal with
  | |- wp _ _ (journal ?op true ?r ?W) =>
      assert (issued (not_reset w) w (journal op true r W)) as Hi1
        by (apply issued_journal; [by apply not_reset_other|exact Hi0])
  end.
  clear Hi0.
  do 3 wp_log. fold (temp_branch w). fold temp.
  apply wp_bind, wp_gateway_cases;
    [intros; apply Hleft, issued_journal; [apply not_reset_failed|exact Hi1]|].
  wp_norm. intros [] r2 (Hfresh & Hobj2 & Hhd2 & _)%sem_checkout_new_spec.
  assert (temp ≠ cur) as Hne.
  { intros Heq. unfold tip in Htip. fold cur in Htip. rewrite <-Heq in Htip. congruence. }
  match goal with |- wp _ _ ?W => set (w2 := W) end.
  assert (aside w temp w2) as Hw2.
  { split_and!; [done|unfold w2, journal; cbn [repo]; rewrite Hobj2; apply grown_from_refl|].
    unfold w2. apply issued_journal; [by apply not_reset_other|exact Hi1]. }
  clearbody w2. clear Hfresh Hobj2 Hhd2 r2 Hi1.
  set (handler := λ error : Error,
     console_log (nl +:+ "❌ Error: Squash failed!");;
     console_log "🧹 Cleaning up...";;
     console_log ("  Switching back to " +:+ cur);;
     git_checkout faults cur;;
     stdout_write ("  Removing temporary branch " +:+ temp +:+ "... ");;
     suppress (git_branch_D faults temp);;
     console_log "✓";; throw error).
  (* the handler issues no reset, and leaves a rewound branch rewound *)
  assert (∀ e w1, issued (not_reset w) w w1 → wp (handler e) Q w1) as Hh.
  { intros e w1 Hi. apply (wp_preserves (issued (not_reset w) w)); [|done|by intros; apply Hleft].
    unfold handler. preserves_structure;
      first [ apply issued_quiet
            | apply preserves_issued_gateway; intros; by apply not_reset_other ]. }
  assert (∀ e w1, rewound w a anc w1 → wp (handler e) Q w1) as Hh'.
  { intros e w1 Hr. apply (wp_preserves (rewound w a anc)); [|done|by intros; apply Hright].
    unfold handler. rewound_calls. }
  apply wp_try. fold handler.
  (* on the temporary branch *)
  aside_steps (aside w temp) Hne
    ltac:(idtac; match goal with H : aside _ _ _ |- _ => apply Hh, (proj2 (proj2 H)) end)
    ltac:(idtac; match goal with H : aside _ _ _ |- _ => apply Hleft, (proj2 (proj2 H)) end).
  match goal with
  | H : aside w temp ?W |- wp _ _ ?W => revert H; generalize W
  end.
  intros w5 (Hhd5 & Hg5 & Hi5).
  (* back on the original branch *)
  apply wp_bind, wp_gateway_cases;
    [intros; apply Hh, issued_journal; [apply not_reset_failed|done]|].
  wp_norm. intros [] r6 (t & _ & Hobj6 & _ & Hhd6 & _)%sem_checkout_spec.
  apply (issued_journal _ _ _ (OpCheckout cur) true r6) in Hi5; [|by apply not_reset_other].
  apply wp_bind, wp_slice_of_Some. wp_log.
  apply wp_bind, wp_gateway_cases;
    [intros; apply Hh, issued_journal; [apply not_reset_failed|exact Hi5]|].
  wp_norm.
  rewrite <-Hobj6 in Hg5.
  intros [] r7 (Hobj7 & Hhist7 & _ & [Hhd7 _])%(reset_to_anchor _ _ _ _ _ _ Hnd Hchain _ _ _ _ _ _ Hlast Hg5).
  match goal with |- wp _ _ ?W => set (w7 := W) end.
  assert (rewound w a anc w7) as Hw7.
  { unfold w7, journal. split_and!; cbn [repo]; [by rewrite Hhd7, Hhd6|by rewrite Hobj7|].
    exists []. by split. }
  clearbody w7.
  (* the rest of the run keeps the branch rewound *)
  apply (wp_preserves (rewound w a anc)); [|done|].
  - rewound_calls.
  - intros [[]|e|c] w8 Hw8; [by apply Hright|by apply Hh'|by apply Hright].
Qed.

(** X16. The cleanup does not undo the squash. When the general path, run on a
    contiguous selection, fails after its hard reset of the original branch
    has taken effect, that branch is left where the run had brought it: on
    the commits below the selection, under the commits that the run had
    created by then. The selected commits and the commits above them are no
    longer on the branch. *)
Theorem failed_run_leaves_branch_rewound faults (later sel : list Commit) (a : Commit)
    (anc : list Commit) msg w e w' :
  NoDup (hash <$> objects (repo w)) →
  history (repo w) = later ++ sel ++ a :: anc →
  sel ≠ [] →
  squashNonConsecutiveCommits faults (hash <$> sel) msg w = (Throw e, w') →
  Exists (λ ev, hard_reset_on (HEAD (repo w)) ev = true) (events_since w w') →
  HEAD (repo w') = HEAD (repo w)
  ∧ ∃ created,
      history (repo w') = created ++ a :: anc
      ∧ Forall (λ c, hash c ∉ hash <$> objects (repo w)) created
      ∧ ∀ c, c ∈ later ++ sel → c ∉ history (repo w').
Proof.
  intros Hnd Hhist Hsel Hrun Hreset.
  assert (∃ t0, tip (repo w) = Some t0
                ∧ ancestry t0 (objects (repo w)) = later ++ sel ++ a :: anc)
    as (t0 & Htip & Hchain).
  { revert Hhist. unfold history. destruct (tip (repo w)) as [t0|]; [by eauto|].
    by destruct later, sel. }
  pose proof (squashNonConsecutiveCommits_rewound faults later sel a anc msg t0 w
                Hnd Hchain Htip Hsel) as Hwp.
  apply (wp_run _ _ _ _ _ Hrun) in Hwp. cbv beta in Hwp.
  destruct Hwp as [Hi|(Hhd & Hg & l & Hhist' & Hnew)]; [done| |].
  - exfalso. apply issued_events_since in Hi as [_ Hall].
    apply Exists_exists in Hreset as (ev & Hin & Hev).
    rewrite Forall_forall in Hall. specialize (Hall ev Hin). unfold not_reset in Hall.
    congruence.
  - split; [done|]. exists l. split_and!; [done..|].
    intros c Hc Hin. rewrite Hhist' in Hin. apply elem_of_app in Hin as [Hin|Hin].
    + rewrite Forall_forall in Hnew. apply (Hnew c Hin).
      apply list_elem_of_fmap_2. eapply elem_of_sublist; [|apply (ancestry_sublist t0)].
      rewrite Hchain, app_assoc. apply elem_of_app. by left.
    + pose proof (chain_NoDup _ _ _ _ _ _ Hnd Hchain) as Hd.
      rewrite app_assoc, fmap_app in Hd. apply NoDup_app in Hd as (_ & Hd & _).
      apply (Hd (hash c)); by apply list_elem_of_fmap_2.
Qed.

(** The restoring cherry-pick of the commit above the selection is refused. *)
Definition restore_conflict_plan : nat → option string := λ k,
  if decide (k = 12) then Some "could not apply the commit" else None.

Lemma failed_run_leaves_branch_rewound_witness :
  let w := sample_world [] in
  let run := squashNonConsecutiveCommits restore_conflict_plan ["C4"; "C3"] "squashed" w in
  HEAD (repo run.2) = HEAD (repo w)
  ∧ ∃ created,
      history (repo run.2)
      = created ++ sample_commit "C2" (Some "C1") :: [sample_commit "C1" None]
      ∧ Forall (λ c, hash c ∉ hash <$> objects (repo w)) created
      ∧ ∀ c, c ∈ [sample_commit "C5" (Some "C4")]
                 ++ [sample_commit "C4" (Some "C3"); sample_commit "C3" (Some "C2")] →
             c ∉ history (repo run.2).
Proof.
  intros w run.
  apply (failed_run_leaves_branch_rewound restore_conflict_plan
           [sample_commit "C5" (Some "C4")]
           [sample_commit "C4" (Some "C3"); sample_commit "C3" (Some "C2")]
           (sample_commit "C2" (Some "C1")) [sample_commit "C1" None] "squashed" w
           (GitError (OpCherryPick "C5") "could not apply the commit") run.2).
  - decide_by_computation.
  - vm_compute. reflexivity.
  - done.
  - transitivity (run.1, run.2); [apply surjective_pairing|].
    assert (run.1 = Throw (GitError (OpCherryPick "C5") "could not apply the commit")) as ->
      by (vm_compute; reflexivity).
    reflexivity.
  - decide_by_computation.
Defined.

(* ===================================================================== *)
(** * Part 21: what the dry run prints                                    *)
(* ===================================================================== *)

(** The line that announces the squashed commit in the preview. *)
Definition new_commit_line (message : string) : string :=
  ("🔶 NEW " +:+ message) +:+ nl.

(** The lines of the two listings of the preview, for one commit of the log. *)
Definition current_line (commits : list Hash) (commit : Commit) : string :=
  ((if bool_decide (hash commit ∈ commits) then "🔷" else "⚪️")
   +:+ " " +:+ slice07 (hash commit) +:+ " " +:+ subject commit) +:+ nl.

Definition after_lines (commits : list Hash) (message : string) (commit : Commit)
  : list string :=
  if bool_decide (hash commit ∈ commits) then
    if bool_decide (Some (hash commit) = last commits) then [new_commit_line message]
    else []
  else [("⚪️ " +:+ slice07 (hash commit) +:+ " " +:+ subject commit) +:+ nl].

Lemma current_line_not_new commits message c :
  current_line commits c ≠ new_commit_line message.
Proof. unfold current_line, new_commit_line. by destruct (bool_decide _). Qed.

Lemma after_lines_new commits message c :
  new_commit_line message ∈ after_lines commits message c ↔ last commits = Some (hash c).
Proof.
  unfold after_lines. split.
  - destruct (bool_decide (hash c ∈ commits)).
    + destruct (bool_decide (Some (hash c) = last commits)) eqn:Hl.
      * intros _. by apply bool_decide_eq_true in Hl.
      * by intros ?%elem_of_nil.
    + intros Hin%list_elem_of_singleton. unfold new_commit_line in Hin. done.
  - intros Hl. rewrite bool_decide_eq_true_2.
    + rewrite bool_decide_eq_true_2 by done. by left.
    + rewrite last_lookup in Hl. by eapply list_elem_of_lookup_2.
Qed.

Lemma elem_of_concat {X} (x : X) (ls : list (list X)) :
  x ∈ concat ls ↔ ∃ l, x ∈ l ∧ l ∈ ls.
Proof.
  induction ls as [|l ls IH]; simpl.
  - split; [by intros ?%elem_of_nil|by intros (l & _ & ?%elem_of_nil)].
  - rewrite elem_of_app, IH. split.
    + intros [Hx|(l' & Hx & Hl')]; [exists l; split; [done|by left]|].
      exists l'. split; [done|by right].
    + intros (l' & Hx & [->|Hl']%elem_of_cons); [by left|right; eauto].
Qed.

Lemma sem_log_window n r log r' :
  sem_log (Some n) r = inr (log, r') → log = take n (history r) ∧ r' = r.
Proof. unfold sem_log, history. destruct (tip r); [|done]. by intros [= <- <-]. Qed.

(** X17. The preview announces the squashed commit only when it meets the last
    commit of the selection. A dry run that completes prints the line of
    the new commit if and only if that last commit is among the commits
    that the preview reads: the first [max 10 (length commits + 3)] commits
    of the current branch. A selection that ends further down is previewed
    without its result. *)
Theorem dry_run_announces_new_commit faults (commits : list Hash) message w w' :
  squashCommits faults commits message true w = (Ok tt, w') →
  ∃ lines,
    stdout w' = stdout w ++ lines
    ∧ (new_commit_line message ∈ lines
       ↔ ∃ c, c ∈ take (Nat.max 10 (length commits + 3)) (history (repo w))
              ∧ last commits = Some (hash c)).
Proof.
  intros Hrun.
  set (window := take (Nat.max 10 (length commits + 3)) (history (repo w))).
  set (Q := λ (o : Outcome unit) w', o = Ok tt →
     ∃ lines, stdout w' = stdout w ++ lines
       ∧ (new_commit_line message ∈ lines
          ↔ ∃ c, c ∈ window ∧ last commits = Some (hash c))).
  enough (wp (squashCommits faults commits message true) Q w) as Hwp
    by (by apply (wp_run _ _ _ _ _ Hrun) in Hwp; apply Hwp).
  assert (∀ e w1, wp (console_error ("Error during squash: " +:+ error_message e) ;;
                      process_exit 1) Q w1) as Hh by (by intros e w1 [=]).
  unfold squashCommits. apply wp_try.
  apply wp_bind, wp_gateway_cases; [intros; apply Hh|].
  intros status r1 [= <- <-].
  apply wp_bind, wp_gateway_cases; [intros; apply Hh|].
  wp_norm. intros log r2 [Hlog ->]%sem_log_window. fold window in Hlog. subst log.
  do 2 wp_log.
  (* the current commits *)
  apply wp_bind.
  apply (wp_for_of (λ done w1, stdout w1 = stdout w
           ++ [(nl +:+ "📋 Dry Run - Squash Preview" +:+ nl) +:+ nl; "Current Commits:" +:+ nl]
           ++ (current_line commits <$> done))).
  { wp_norm. by rewrite <-app_assoc. }
  { intros done x rest w1 _ Hw1. apply wp_console_log. wp_norm.
    rewrite Hw1, fmap_app, <-!app_assoc. done. }
  intros w1 Hw1. wp_log.
  (* the commits after the squash *)
  apply wp_bind.
  apply (wp_for_of (λ done w2, stdout w2 = stdout w1 ++ [(nl +:+ "After Squash:") +:+ nl]
           ++ concat (after_lines commits message <$> done))).
  { wp_norm. done. }
  { intros done x rest w2 _ Hw2.
    assert (stdout w2 ++ after_lines commits message x
            = stdout w1 ++ [(nl +:+ "After Squash:") +:+ nl]
              ++ concat (after_lines commits message <$> done ++ [x])) as Hnext.
    { rewrite Hw2, fmap_app, concat_app, <-!app_assoc. simpl. by rewrite app_nil_r. }
    revert Hnext. unfold after_lines at 1 3.
    destruct (bool_decide (hash x ∈ commits)).
    - destruct (bool_decide (Some (hash x) = last commits)); intros Hnext;
        apply wp_when; simpl.
      + by apply wp_console_log.
      + by rewrite app_nil_r in Hnext.
    - intros Hnext. by apply wp_console_log. }
  intros w2 Hw2. do 3 wp_log.
  assert (∀ tail, (∀ l, l ∈ tail → l ≠ new_commit_line message) → ∀ w3,
            stdout w3 = stdout w2 ++ tail → Q (Ok tt) w3) as Hend.
  { intros tail Htail w3 Hw3 _. eexists. split.
    - rewrite Hw3, Hw2, Hw1, <-!app_assoc. reflexivity.
    - rewrite !elem_of_app, !elem_of_cons, elem_of_nil. split.
      + intros [[?|[?|[]]]|[Hin|[[?|[]]|[Hin|Hin]]]]; try done.
        * apply list_elem_of_fmap in Hin as (c & Hc & _).
          by destruct (current_line_not_new commits message c).
        * apply elem_of_concat in Hin as (ls & Hin & (c & -> & Hc)%list_elem_of_fmap).
          apply after_lines_new in Hin. eauto.
        * by destruct (Htail _ Hin).
      + intros (c & Hc & Hl). right. right. right. left.
        apply elem_of_concat. exists (after_lines commits message c). split.
        * by apply after_lines_new.
        * by apply list_elem_of_fmap_2. }
  apply wp_when. destruct (bool_decide (0 < length (files (repo w)))).
  - apply wp_console_log. wp_norm.
    eapply Hend; [|cbn [stdout]; rewrite <-!app_assoc; reflexivity].
    intros l. rewrite !elem_of_app, !elem_of_cons, !elem_of_nil. unfold new_commit_line.
    by intros [[->|[]]|[[->|[]]|[[->|[]]|[->|[]]]]].
  - eapply Hend; [|cbn [stdout]; rewrite <-!app_assoc; reflexivity].
    intros l. rewrite !elem_of_app, !elem_of_cons, !elem_of_nil. unfold new_commit_line.
    by intros [[->|[]]|[[->|[]]|[->|[]]]].
Qed.

Lemma dry_run_announces_new_commit_witness :
  let w := sample_world [] in
  let run := squashCommits no_faults ["C4"; "C3"] "squashed" true w in
  ∃ lines,
    stdout run.2 = stdout w ++ lines
    ∧ (new_commit_line "squashed" ∈ lines
       ↔ ∃ c, c ∈ take (Nat.max 10 (length ["C4"; "C3"] + 3)) (history (repo w))
              ∧ last ["C4"; "C3"] = Some (hash c)).
Proof.
  intros w run.
  apply (dry_run_announces_new_commit no_faults ["C4"; "C3"] "squashed" w run.2).
  transitivity (run.1, run.2); [apply surjective_pairing|].
  assert (run.1 = Ok tt) as -> by (vm_compute; reflexivity).
  reflexivity.
Defined.
